(** * go-sudoku: constraint propagation and backtracking search

    A shallow embedding of the solver engine of the [sudoku] package
    (the method set of [*Sudoku]: [New], [parseBoard], [assign],
    [eliminate], [emptyBoard], [isSolved], [search]) together with the
    properties its specification states about it.

    Conventions of the embedding:
    - Go's [int] / [Index] is [Z]; [uint16] is [N] with the 16-bit
      wrap-around written out where it matters;
    - a [Values] slice is a [list Digits]; in-place mutation of the slice
      is explicit state passing: every engine function returns the board
      it leaves behind together with its result;
    - a run-time panic (index out of range, [singleMemberDigit] on a set
      whose cardinality is not 1) is the outcome [Panic];
    - the recursion of [eliminate]/[assign] and of [search] is not
      structural, so the recursive functions take a fuel argument; the
      termination theorems show that the candidate count of the board is
      always enough fuel. *)

From Stdlib Require Import String Ascii ZArith NArith List Bool Lia FinFun.
Import ListNotations.

Local Open Scope Z_scope.

(* ================================================================== *)
(** * Candidate sets *)
(* ================================================================== *)

(** Modelled from the spec: the [Digits] type and its methods
    ([isMember], [add], [remove], [size], [singleMemberDigit],
    [fullDigitsSet]) are declared in a file of the package that is not
    part of the sources at hand.  The specification describes the type as
    "a fixed-width bitset abstraction with membership, insertion, removal,
    cardinality, and the-one-remaining-digit queries" over the digits 1-9,
    whose single-member query is a contract violation (panic) when the
    cardinality is not 1.  It is modelled as a 16-bit word in which bit
    [n] stands for digit [n]. *)
Definition Digits := N.

Definition mask16 : N := 65535.

(** [uint16(1) << n]: the shift wraps to 0 from 16 on. *)
Definition bit (n : N) : N := N.land (N.shiftl 1 n) mask16.

Definition fullDigitsSet : Digits := 1022%N.

Definition emptyDigitsSet : Digits := 0%N.

Definition isMember (d : Digits) (n : N) : bool :=
  negb (N.land d (bit n) =? 0)%N.

Definition add (d : Digits) (n : N) : Digits := N.lor d (bit n).

Definition remove (d : Digits) (n : N) : Digits := N.ldiff d (bit n).

Definition positions16 : list N := map N.of_nat (seq 0 16).

Definition onesCount16 (d : N) : nat :=
  length (filter (N.testbit d) positions16).

Definition size (d : Digits) : Z := Z.of_nat (onesCount16 d).

Definition trailingZeros16 (d : N) : N :=
  match filter (N.testbit d) positions16 with
  | [] => 16%N
  | p :: _ => p
  end.

(** [None] stands for the panic of the contract violation. *)
Definition singleMemberDigit (d : Digits) : option N :=
  if size d =? 1 then Some (trailingZeros16 d) else None.

(** A candidate set is well formed when it only holds digits 1-9. *)
Definition wfDigits (d : Digits) : Prop := N.ldiff d fullDigitsSet = 0%N.

Definition wfDigitsb (d : Digits) : bool := (N.ldiff d fullDigitsSet =? 0)%N.

(* ================================================================== *)
(** * Boards and slices *)
(* ================================================================== *)

Definition Index := Z.

Definition Unit := list Index.

Definition Values := list Digits.

(** [l[i]] for a Go slice: [None] is the index-out-of-range panic. *)
Definition get {A : Type} (l : list A) (i : Z) : option A :=
  if i <? 0 then None else nth_error l (Z.to_nat i).

Fixpoint update {A : Type} (l : list A) (n : nat) (a : A) : list A :=
  match l, n with
  | [], _ => []
  | _ :: t, O => a :: t
  | h :: t, S n' => h :: update t n' a
  end.

(** [l[i] = a] for an index already known to be in range (every store of
    the engine follows a load of the same index). *)
Definition set {A : Type} (l : list A) (i : Z) (a : A) : list A :=
  update l (Z.to_nat i) a.

(** [index] calculates the linear index of a square. *)
Definition index (row col : Z) : Index := row * 9 + col.

(** The values of a loop [for i := 0; i < n; i++]. *)
Definition upto (n : nat) : list Z := map Z.of_nat (seq 0 n).

(** [slices.Index]: first position of [x] in [l], or -1. *)
Fixpoint slicesIndexFrom (l : list Z) (x : Z) (pos : Z) : Z :=
  match l with
  | [] => -1
  | y :: t => if y =? x then pos else slicesIndexFrom t x (pos + 1)
  end.

Definition slicesIndex (l : list Z) (x : Z) : Z := slicesIndexFrom l x 0.

(* ================================================================== *)
(** * Topology: [New] *)
(* ================================================================== *)

Record Sudoku : Type := mkSudoku {
  unitlist : list Unit;
  units : list (list Unit);
  peers : list (list Index)
}.

Definition rowUnits : list Unit :=
  map (fun row => map (fun col => index row col) (upto 9)) (upto 9).

Definition colUnits : list Unit :=
  map (fun col => map (fun row => index row col) (upto 9)) (upto 9).

Definition blockUnits : list Unit :=
  flat_map (fun blockRow =>
    map (fun blockCol =>
      flat_map (fun row =>
        map (fun col => index (blockRow * 3 + row) (blockCol * 3 + col))
            (upto 3))
        (upto 3))
      (upto 3))
    (upto 3).

Definition newUnitlist : list Unit := rowUnits ++ colUnits ++ blockUnits.

(** [units[i]]: the units of [ul] that contain [i], in order. *)
Definition unitsFor (ul : list Unit) (i : Index) : list Unit :=
  filter (fun unit => slicesIndex unit i >=? 0) ul.

(** [peers[i]]: scan the units of [i], appending every candidate that is
    not [i] and not yet present. *)
Definition peersFor (us : list Unit) (i : Index) : list Index :=
  fold_left (fun acc unit =>
    fold_left (fun acc candidate =>
      if negb (candidate =? i) && (slicesIndex acc candidate <? 0)
      then acc ++ [candidate] else acc) unit acc) us [].

Definition New : Sudoku :=
  let ul := newUnitlist in
  let us := map (unitsFor ul) (upto 81) in
  let ps := map (fun i => peersFor (nth (Z.to_nat i) us []) i) (upto 81) in
  mkSudoku ul us ps.

(** [j] is a peer of [i] in the topology [s]. *)
Definition isPeer (s : Sudoku) (i j : Index) : Prop :=
  exists ps, get (peers s) i = Some ps /\ In j ps.

Definition memZ (x : Z) (l : list Z) : bool := existsb (Z.eqb x) l.

Definition isPeerb (s : Sudoku) (i j : Index) : bool :=
  match get (peers s) i with
  | Some ps => memZ j ps
  | None => false
  end.

Fixpoint nodupZ (l : list Z) : bool :=
  match l with
  | [] => true
  | x :: t => negb (memZ x t) && nodupZ t
  end.

Definition inRange (i : Z) : bool := (0 <=? i) && (i <? 81).

(** Everything the engine needs from a topology to run without an
    index-out-of-range panic on an 81-square board. *)
Definition topologyInRange (s : Sudoku) : bool :=
  (Z.of_nat (length (units s)) =? 81) &&
  (Z.of_nat (length (peers s)) =? 81) &&
  forallb (forallb (forallb inRange)) (units s) &&
  forallb (forallb inRange) (peers s) &&
  forallb (forallb inRange) (unitlist s).

(** The per-square part of the topology invariants, as a check. *)
Definition squareTopologyOk (s : Sudoku) (i : Index) : bool :=
  match get (units s) i, get (peers s) i with
  | Some us, Some ps =>
      (length us =? 3)%nat && (length ps =? 20)%nat && nodupZ ps &&
      negb (memZ i ps) &&
      forallb (fun u => memZ i u && existsb (fun u' =>
                 if list_eq_dec Z.eq_dec u u' then true else false)
                 (unitlist s)) us &&
      forallb (fun j => isPeerb s j i) ps &&
      forallb (fun j => Bool.eqb (isPeerb s i j)
                 (negb (j =? i) && existsb (memZ j) us)) (upto 81)
  | _, _ => false
  end.

(* ================================================================== *)
(** * Outcomes of the engine *)
(* ================================================================== *)

(** What a call of an engine function does: it returns [a] and leaves
    the board [vals] behind ([Done]), it panics, or the model ran out of
    fuel. *)
Inductive outcome (A : Type) : Type :=
| Done (a : A) (vals : Values)
| Panic
| OutOfFuel.

Arguments Done {A} a vals.
Arguments Panic {A}.
Arguments OutOfFuel {A}.

(** [if !call { return false }; rest]: the rest runs on the board the
    call left when the call returned true; a false result, a panic or
    the lack of fuel ends the function. *)
Definition andThen (call : outcome bool) (rest : Values -> outcome bool)
    : outcome bool :=
  match call with
  | Done true values => rest values
  | other => other
  end.

(** A loop [for _, x := range xs { if !f(values, x) { return false } }]
    over a board that [f] mutates: it stops at the first failure. *)
Fixpoint forAll {X : Type} (f : Values -> X -> outcome bool)
    (xs : list X) (values : Values) : outcome bool :=
  match xs with
  | [] => Done true values
  | x :: rest => andThen (f values x) (forAll f rest)
  end.

(** The digits of a loop [for d := uint16(1); d <= 9; d++]. *)
Definition digits19 : list N := [1; 2; 3; 4; 5; 6; 7; 8; 9]%N.

(** Sum of the cardinalities of the squares: the measure that bounds the
    propagation. *)
Definition candidates (values : Values) : nat :=
  fold_right (fun d acc => (onesCount16 d + acc)%nat) O values.

(* ================================================================== *)
(** * Propagation: [assign] and [eliminate] *)
(* ================================================================== *)

Section Engine.

Variable s : Sudoku.

(** The body of [assign], over the [eliminate] it calls. *)
Definition assignWith (elim : Values -> Index -> N -> outcome bool)
    (values : Values) (square : Index) (digit : N) : outcome bool :=
  forAll (fun values d =>
      match get values square with
      | None => Panic
      | Some ds =>
          if isMember ds d && negb (d =? digit)%N
          then elim values square d
          else Done true values
      end) digits19 values.

(** [dplaces]: the squares of [unit] that have [digit] among their
    candidates ([None]: a square of the unit is out of range). *)
Fixpoint dplacesOf (values : Values) (unit : Unit) (digit : N)
    : option (list Index) :=
  match unit with
  | [] => Some []
  | sq :: rest =>
      match get values sq, dplacesOf values rest digit with
      | Some ds, Some places =>
          Some (if isMember ds digit then sq :: places else places)
      | _, _ => None
      end
  end.

(** One iteration of the loop of [eliminate] over the units of the
    square. *)
Definition unitStep (elim : Values -> Index -> N -> outcome bool)
    (digit : N) (values : Values) (unit : Unit) : outcome bool :=
  match dplacesOf values unit digit with
  | None => Panic
  | Some [] => Done false values
  | Some [place] => assignWith elim values place digit
  | Some _ => Done true values
  end.

(** The part of [eliminate] that follows the store
    [values[square] = values[square].remove(digit)]: the switch on the
    cardinality left in the square, then the loop over the units of the
    square.  [elim] is the [eliminate] of the recursive calls. *)
Definition propagate (elim : Values -> Index -> N -> outcome bool)
    (values : Values) (square : Index) (digit : N) : outcome bool :=
  match get values square with
  | None => Panic
  | Some ds' =>
      andThen
        match size ds' with
        | 0 => Done false values
        | 1 =>
            match singleMemberDigit ds', get (peers s) square with
            | Some remaining, Some ps =>
                forAll (fun values peer => elim values peer remaining)
                       ps values
            | _, _ => Panic
            end
        | _ => Done true values
        end
        (fun values =>
           match get (units s) square with
           | None => Panic
           | Some us => forAll (unitStep elim digit) us values
           end)
  end.

(** The body of [eliminate]. *)
Definition eliminateBody (elim : Values -> Index -> N -> outcome bool)
    (values : Values) (square : Index) (digit : N) : outcome bool :=
  match get values square with
  | None => Panic
  | Some ds =>
      if negb (isMember ds digit) then Done true values
      else propagate elim (set values square (remove ds digit)) square digit
  end.

Fixpoint eliminateFuel (fuel : nat) (values : Values) (square : Index)
    (digit : N) : outcome bool :=
  match fuel with
  | O => OutOfFuel
  | S fuel' => eliminateBody (eliminateFuel fuel') values square digit
  end.

Definition assignFuel (fuel : nat) (values : Values) (square : Index)
    (digit : N) : outcome bool :=
  assignWith (eliminateFuel fuel) values square digit.

(** [eliminate] and [assign] with the fuel the termination theorem
    shows sufficient. *)
Definition eliminate (values : Values) (square : Index) (digit : N)
    : outcome bool :=
  eliminateFuel (S (candidates values)) values square digit.

Definition assign (values : Values) (square : Index) (digit : N)
    : outcome bool :=
  assignFuel (S (candidates values)) values square digit.

(* ------------------------------------------------------------------ *)
(** ** [emptyBoard] and [isSolved] *)

Definition emptyBoard : Values := repeat fullDigitsSet 81.

(** The inner loop of [isSolved] over the squares of one unit:
    [Some None] is the early [return false], [Some (Some dset)] the
    set accumulated at the end of the loop, [None] a panic. *)
Fixpoint unitDigits (values : Values) (unit : Unit) (dset : Digits)
    : option (option Digits) :=
  match unit with
  | [] => Some (Some dset)
  | sq :: rest =>
      match get values sq with
      | None => None
      | Some ds =>
          if negb (size ds =? 1) then Some None
          else match singleMemberDigit ds with
               | None => None
               | Some m => unitDigits values rest (add dset m)
               end
      end
  end.

(** [isSolved] only reads the board; it is run as an engine function all
    the same, so that the board it leaves behind is part of its
    outcome. *)
Definition isSolved (values : Values) : outcome bool :=
  forAll (fun values unit =>
      match unitDigits values unit emptyDigitsSet with
      | None => Panic
      | Some None => Done false values
      | Some (Some dset) =>
          if negb (dset =? fullDigitsSet)%N then Done false values
          else Done true values
      end) (unitlist s) values.

(* ------------------------------------------------------------------ *)
(** ** [search] *)

(** The scan of [search] for the square to try: [sq] is the index of the
    head of [rest], [squareToTry] and [minSize] the loop variables. *)
Fixpoint selectFrom (rest : list Digits) (sq : Index)
    (squareToTry : Index) (minSize : Z) : Index :=
  match rest with
  | [] => squareToTry
  | d :: rest' =>
      if (size d >? 1) && (size d <? minSize)
      then selectFrom rest' (sq + 1) sq (size d)
      else selectFrom rest' (sq + 1) squareToTry minSize
  end.

Definition selectSquare (values : Values) : Index :=
  selectFrom values 0 (-1) 9.

(** The digit loop of [search]; [recur] is the recursive [search].  The
    trial runs on [vcopy], a copy of [values]: [values] itself is never
    written. *)
Fixpoint tryDigits (recur : Values -> outcome bool) (values : Values)
    (squareToTry : Index) (ds : list N) : outcome bool :=
  match ds with
  | [] => Done false values
  | d :: rest =>
      match get values squareToTry with
      | None => Panic
      | Some cand =>
          if isMember cand d then
            let vcopy := values in
            match assign vcopy squareToTry d with
            | Done true vcopy' =>
                match recur vcopy' with
                | Done true vresult => Done true vresult
                | Done false _ => tryDigits recur values squareToTry rest
                | other => other
                end
            | Done false _ => tryDigits recur values squareToTry rest
            | other => other
            end
          else tryDigits recur values squareToTry rest
      end
  end.

(** [search]: the outcome carries the returned pair (board, solved). *)
Fixpoint searchFuel (fuel : nat) (values : Values) : outcome bool :=
  match fuel with
  | O => OutOfFuel
  | S fuel' =>
      let squareToTry := selectSquare values in
      if squareToTry =? -1 then Done true values
      else tryDigits (searchFuel fuel') values squareToTry digits19
  end.

Definition search (values : Values) : outcome bool :=
  searchFuel (S (candidates values)) values.

End Engine.

(* ================================================================== *)
(** * Parser: [parseBoard] *)
(* ================================================================== *)

(** The two errors [parseBoard] builds with [fmt.Errorf]: the count of
    digits found, and the digit and square of the contradiction. *)
Inductive parseError : Type :=
| FormatError (count : Z)
| ContradictionError (d : N) (sq : Index).

(** The runes of an ASCII string literal, for writing inputs down. *)
Definition runesOf (str : string) : list Z :=
  map (fun a => Z.of_nat (nat_of_ascii a)) (list_ascii_of_string str).

Definition isDigitRune (r : Z) : bool := (r >=? 48) && (r <=? 57).

Definition isDotRune (r : Z) : bool := r =? 46.

(** [uint16(r) - uint16('0')]. *)
Definition digitOfRune (r : Z) : N :=
  Z.to_N (((r mod 65536) - 48) mod 65536).

(** The first loop of [parseBoard]: [dgs] is the slice built so far. *)
Fixpoint scanRunes (runes : list Z) (dgs : list N) : list N :=
  match runes with
  | [] => dgs
  | r :: rest =>
      if isDigitRune r then scanRunes rest (dgs ++ [digitOfRune r])
      else if isDotRune r then scanRunes rest (dgs ++ [0%N])
      else scanRunes rest dgs
  end.

Section Parser.

Variable s : Sudoku.

(** The second loop of [parseBoard]: [sq] is the index of the head of
    [dgs].  [Done None values] is [return values, nil]; an error is
    returned with a nil board. *)
Fixpoint assignAll (dgs : list N) (sq : Index) (values : Values)
    : outcome (option parseError) :=
  match dgs with
  | [] => Done None values
  | d :: rest =>
      if negb (d =? 0)%N then
        match assign s values sq d with
        | Done true values' => assignAll rest (sq + 1) values'
        | Done false _ => Done (Some (ContradictionError d sq)) []
        | Panic => Panic
        | OutOfFuel => OutOfFuel
        end
      else assignAll rest (sq + 1) values
  end.

(** [parseBoard], given the runes that [range str] yields. *)
Definition parseBoard (runes : list Z) : outcome (option parseError) :=
  let dgs := scanRunes runes [] in
  if negb (Z.of_nat (length dgs) =? 81)
  then Done (Some (FormatError (Z.of_nat (length dgs)))) []
  else assignAll dgs 0 emptyBoard.

End Parser.

(* ================================================================== *)
(** * Notions used by the statements *)
(* ================================================================== *)

(** The members of a candidate set, as the list of its set bits. *)
Definition members (d : Digits) : list N := filter (N.testbit d) positions16.

(** Bitwise inclusion of candidate sets. *)
Definition subDigits (a b : Digits) : Prop := N.ldiff a b = 0%N.

(** [narrows v v']: board [v'] has the squares of [v], each with a
    subset of the candidates it has in [v]. *)
Definition narrows (v v' : Values) : Prop := Forall2 subDigits v' v.

(** Every square of the board holds digits 1-9 only. *)
Definition wfBoard (v : Values) : Prop := Forall wfDigits v.

Definition wfBoardb (v : Values) : bool := forallb wfDigitsb v.

(** [refines o o']: outcome [o], obtained with less fuel, is [o'] unless
    the fuel ran out. *)
Definition refines (o o' : outcome bool) : Prop := o = OutOfFuel \/ o = o'.

(** [staysNonEmpty v v']: the squares that have a candidate in [v] have
    one in [v']. *)
Definition staysNonEmpty (v v' : Values) : Prop :=
  forall q ds, get v q = Some ds -> size ds <> 0 ->
  exists ds', get v' q = Some ds' /\ size ds' <> 0.

(** [settled s v v']: [v'] narrows [v], and every square whose candidate
    set changed between [v] and [v'] and is a singleton in [v'] has had
    its digit removed from all its peers. *)
Definition settled (s : Sudoku) (v v' : Values) : Prop :=
  narrows v v' /\
  forall q dq dq' k ps p,
    get v q = Some dq -> get v' q = Some dq' -> dq' <> dq ->
    singleMemberDigit dq' = Some k ->
    get (peers s) q = Some ps -> In p ps ->
    exists dp, get v' p = Some dp /\ isMember dp k = false.

(** The assign/eliminate consistency, as the specification words it, at
    one board, square and digit: after [assign] succeeds the square
    holds the digit alone and no peer of the square admits it. *)
Definition assignConsistent (s : Sudoku) (values : Values) (sq : Index)
    (d : N) : Prop :=
  forall values', assign s values sq d = Done true values' ->
    (exists ds', get values' sq = Some ds' /\ size ds' = 1 /\
                 singleMemberDigit ds' = Some d) /\
    (forall p, isPeer s sq p ->
       exists dp, get values' p = Some dp /\ isMember dp d = false).

(** Digit [e] has been removed from square [q] between [v] and [v']. *)
Definition touched (v v' : Values) (q : Index) (e : N) : Prop :=
  exists dq dq', get v q = Some dq /\ get v' q = Some dq' /\
    isMember dq e = true /\ isMember dq' e = false.

(** On board [v'], unit [u] still has a square that admits digit [e],
    and if it has exactly one, that square holds [e] alone. *)
Definition unitServed (v' : Values) (u : Unit) (e : N) : Prop :=
  exists places, dplacesOf v' u e = Some places /\ places <> [] /\
    forall p, places = [p] ->
      exists dp, get v' p = Some dp /\ singleMemberDigit dp = Some e.

(** [served s v v']: [v'] narrows [v] and, when [v] is well formed,
    every unit of a square from which a digit was removed between [v]
    and [v'] is served for that digit on [v']. *)
Definition served (s : Sudoku) (v v' : Values) : Prop :=
  narrows v v' /\
  (wfBoard v -> forall q e us u,
     touched v v' q e -> get (units s) q = Some us -> In u us ->
     unitServed v' u e).

(** The units listed for a square are listed for each of their
    squares. *)
Definition unitsClosed (s : Sudoku) : Prop :=
  forall q us u q', get (units s) q = Some us -> In u us -> In q' u ->
  exists us', get (units s) q' = Some us' /\ In u us'.

(** A board on which digit 5 has two places left in the first row,
    squares 0 and 1: every other square of the row has lost it. *)
Definition forcedRowBoard : Values :=
  map (fun i => if (2 <=? i) && (i <=? 8)
                then remove fullDigitsSet 5 else fullDigitsSet) (upto 81).

(** The solved-check as the specification words it: in every unit,
    each square has cardinality 1 and the single members of the squares
    are exactly the digits 1-9. *)
Definition solvedSpec (s : Sudoku) (values : Values) : Prop :=
  forall u, In u (unitlist s) ->
    (forall sq, In sq u ->
       exists ds, get values sq = Some ds /\ size ds = 1) /\
    (forall k, (1 <= k <= 9)%N <->
       exists sq ds, In sq u /\ get values sq = Some ds /\
                     singleMemberDigit ds = Some k).

(** The runes the board format gives a meaning to: the ASCII digits
    ['0']-['9'] and ['.']. *)
Definition keptRune (r : Z) : bool :=
  ((48 <=? r) && (r <=? 57)) || (r =? 46).

(** The token of a kept rune: its digit, 0 for ['0'] and for ['.']. *)
Definition tokenOf (r : Z) : N := if r =? 46 then 0%N else Z.to_N (r - 48).

(** [Assigned s dgs sq v v']: assigning the non-zero tokens of [dgs] to
    the squares [sq], [sq+1], ... in order, starting on board [v],
    succeeds at each of them and leaves board [v']. *)
Inductive Assigned (s : Sudoku)
    : list N -> Index -> Values -> Values -> Prop :=
| Assigned_nil (sq : Index) (v : Values) : Assigned s [] sq v v
| Assigned_zero (rest : list N) (sq : Index) (v v' : Values) :
    Assigned s rest (sq + 1) v v' -> Assigned s (0%N :: rest) sq v v'
| Assigned_digit (d : N) (rest : list N) (sq : Index) (v v1 v' : Values) :
    d <> 0%N -> assign s v sq d = Done true v1 ->
    Assigned s rest (sq + 1) v1 v' -> Assigned s (d :: rest) sq v v'.

(** Some non-zero token of [dgs] cannot be assigned to its square: the
    tokens before it were assigned with success from the empty board,
    and [assign] of this one reports failure. *)
Definition someAssignFails (s : Sudoku) (dgs : list N) : Prop :=
  exists pre d post w w',
    dgs = pre ++ d :: post /\ d <> 0%N /\
    Assigned s pre 0 emptyBoard w /\
    assign s w (Z.of_nat (length pre)) d = Done false w'.

(** The terminal case of the search, as the specification words it, at
    one board: the search reports success and returns its input board
    unchanged exactly when no square has a cardinality above 1, and then
    every square has cardinality exactly 1. *)
Definition searchTerminalClaim (s : Sudoku) (values : Values) : Prop :=
  (search s values = Done true values <->
   forall sq ds, get values sq = Some ds -> ~ 1 < size ds) /\
  ((forall sq ds, get values sq = Some ds -> ~ 1 < size ds) ->
   forall sq ds, get values sq = Some ds -> size ds = 1).

(** A board whose square 0 is empty and whose other squares hold digit 1
    alone. *)
Definition emptySquareBoard : Values :=
  set (repeat (add emptyDigitsSet 1) 81) 0 emptyDigitsSet.

(** A board whose squares hold the digits 1-8, except square 40, which
    holds 3 and 7. *)
Definition pickBoard : Values :=
  set (repeat (remove fullDigitsSet 9) 81) 40
      (add (add emptyDigitsSet 3) 7).

(** The boards of the test suite. *)
Definition easyboard1 : string :=
  "003020600900305001001806400008102900700000008006708200002609500800203009005010300".

Definition hardboard1 : string :=
  "4.....8.5.3..........7......2.....6.....8.4......1.......6.3.7.5..2.....1.4......".

(** A text with digit 5 twice in the first row. *)
Definition contradictoryBoard : string :=
  "55...............................................................................".

(** [elimRule R B elim]: every call of [elim] whose result is selected
    by [B] relates the board it starts from to the board it leaves. *)
Definition elimRule (R : Values -> Values -> Prop) (B : bool -> Prop)
    (elim : Values -> Index -> N -> outcome bool) : Prop :=
  forall v sq d b v', elim v sq d = Done b v' -> B b -> R v v'.

(** The results of the calls that succeeded. *)
Definition succeeded (b : bool) : Prop := b = true.

(** The invariant of the loops of the propagation run with [fuel]. *)
Definition sized (fuel : nat) (w : Values) : Prop :=
  length w = 81%nat /\ (candidates w < fuel)%nat.

(** A board as the propagation keeps it: its squares hold digits 1-9,
    none is empty, and the digit of every square that holds a single
    digit is absent from the peers of the square. *)
Definition propagated (s : Sudoku) (v : Values) : Prop :=
  wfBoard v /\
  (forall q dq, get v q = Some dq -> size dq <> 0) /\
  forall q dq k ps p,
    get v q = Some dq -> singleMemberDigit dq = Some k ->
    get (peers s) q = Some ps -> In p ps ->
    exists dp, get v p = Some dp /\ isMember dp k = false.

(* ================================================================== *)
(** * Notions used by the further properties *)
(* ================================================================== *)

(** Squares [i] and [j] lie in the same row, column or 3x3 block, by
    their coordinates [row = i / 9], [col = i mod 9]. *)
Definition sameRow (i j : Index) : bool := j / 9 =? i / 9.

Definition sameCol (i j : Index) : bool := j mod 9 =? i mod 9.

Definition sameBlock (i j : Index) : bool :=
  (j / 27 =? i / 27) && ((j mod 9) / 3 =? (i mod 9) / 3).

(** [u] has 9 distinct squares of the board, those that [rel] selects. *)
Definition unitIs (u : Unit) (rel : Index -> bool) : bool :=
  (length u =? 9)%nat && nodupZ u && forallb inRange u &&
  forallb (fun j => Bool.eqb (memZ j u) (rel j)) (upto 81).

Definition squareUnitsOk (s : Sudoku) (i : Index) : bool :=
  match get (units s) i with
  | Some [row; col; block] =>
      unitIs row (sameRow i) && unitIs col (sameCol i) &&
      unitIs block (sameBlock i)
  | _ => false
  end.

Definition unitEqb (u u' : Unit) : bool :=
  if list_eq_dec Z.eq_dec u u' then true else false.

(** The checks of the topology that the further properties rest on:
    every unit of the board has 9 distinct squares and is listed for
    each of its squares; two squares are peers exactly when they differ
    and share a row, a column or a block; any two squares are peers or
    have a common peer. *)
Definition unitlistOk (s : Sudoku) : bool :=
  forallb (fun u =>
    (length u =? 9)%nat && nodupZ u &&
    forallb (fun i =>
      match get (units s) i with
      | Some us => existsb (unitEqb u) us
      | None => false
      end) u) (unitlist s).

Definition peersOk (s : Sudoku) : bool :=
  forallb (fun i =>
    forallb (fun j =>
      Bool.eqb (isPeerb s i j)
        (negb (j =? i) && (sameRow i j || sameCol i j || sameBlock i j)))
      (upto 81)) (upto 81).

Definition connectedOk (s : Sudoku) : bool :=
  forallb (fun i =>
    match get (peers s) i with
    | Some ps =>
        forallb (fun j =>
          (j =? i) || memZ j ps || existsb (fun k => isPeerb s k j) ps)
          (upto 81)
    | None => false
    end) (upto 81).

(** The digit a settled square holds (0 when the square is not
    settled). *)
Definition digitOf (v : Values) (sq : Index) : N :=
  match get v sq with
  | Some ds => match singleMemberDigit ds with Some k => k | None => 0%N end
  | None => 0%N
  end.

(** Every unit of the board has, for every digit of 1-9, a square that
    admits it. *)
Definition unitsComplete (s : Sudoku) (v : Values) : Prop :=
  forall u e, In u (unitlist s) -> (1 <= e <= 9)%N ->
  exists p dp, In p u /\ get v p = Some dp /\ isMember dp e = true.

(** A consistent board: 81 squares of digits 1-9, none empty, the digit
    of every settled square absent from its peers, and a place in every
    unit for every digit. *)
Definition consistent (s : Sudoku) (v : Values) : Prop :=
  length v = 81%nat /\ propagated s v /\ unitsComplete s v.

(** Board [v] has the non-zero tokens of [dgs] settled at their
    squares. *)
Definition honoursHints (dgs : list N) (v : Values) : Prop :=
  forall i d, nth_error dgs i = Some d -> d <> 0%N ->
  exists ds, get v (Z.of_nat i) = Some ds /\ singleMemberDigit ds = Some d.

(** Every square of 0-80 is settled on a digit of 1-9 and no two peers
    hold the same digit. *)
Definition noPeerClash (s : Sudoku) (v : Values) : Prop :=
  (forall q, 0 <= q < 81 ->
     exists ds k, get v q = Some ds /\ singleMemberDigit ds = Some k /\
                  (1 <= k <= 9)%N) /\
  (forall i j, isPeer s i j -> digitOf v i <> digitOf v j).

(** The rune ['.'] read as ['0']. *)
Definition dotAsZero (r : Z) : Z := if r =? 46 then 48 else r.

(** A board on which the search fails at once: squares 0 and 1 hold the
    digits 1 and 2, every other square holds digit 3 alone. *)
Definition stuckBoard : Values :=
  set (set (repeat (add emptyDigitsSet 3) 81) 0
           (add (add emptyDigitsSet 1) 2)) 1
      (add (add emptyDigitsSet 1) 2).

(* ------------------------------------------------------------------ *)
(** ** [solveBoard] *)

(** The errors of [solveBoard]: the error of the parser, or "board is
    not solvable". *)
Inductive solveError : Type :=
| ParseFailed (e : parseError)
| NotSolvable.

(** [solveBoard], given the runes that [range str] yields: the board of
    the outcome is the board returned beside the error. *)
Definition solveBoard (s : Sudoku) (runes : list Z)
    : outcome (option solveError) :=
  match parseBoard s runes with
  | Done (Some err) values => Done (Some (ParseFailed err)) values
  | Done None values =>
      match search s values with
      | Done true vresult => Done None vresult
      | Done false vresult => Done (Some NotSolvable) vresult
      | Panic => Panic
      | OutOfFuel => OutOfFuel
      end
  | Panic => Panic
  | OutOfFuel => OutOfFuel
  end.

(** A solution: a board of 81 squares that [isSolved] accepts. *)
Definition solution (s : Sudoku) (sol : Values) : Prop :=
  length sol = 81%nat /\ isSolved s sol = Done true sol.

(** The invariant of the loops of a propagation that keeps solution
    [sol]: the board holds digits 1-9, contains [sol], and has fewer
    candidates than [fuel]. *)
Definition keeps (sol : Values) (fuel : nat) (w : Values) : Prop :=
  wfBoard w /\ narrows w sol /\ (candidates w < fuel)%nat.

(** The solved grid of the easy board of the test suite. *)
Definition easySolution : Values :=
  match parseBoard New (runesOf easyboard1) with
  | Done None values => values
  | _ => []
  end.

(* ================================================================== *)
(** * Lemmas on candidate sets *)
(* ================================================================== *)

Lemma In_positions16 (p : N) : In p positions16 <-> (p < 16)%N.
Proof.
  unfold positions16. rewrite in_map_iff. split.
  - intros [n [<- Hn]]. apply in_seq in Hn. lia.
  - intros Hp. exists (N.to_nat p). split; [apply N2Nat.id|].
    apply in_seq. lia.
Qed.

Lemma NoDup_positions16 : NoDup positions16.
Proof.
  unfold positions16. apply Injective_map_NoDup.
  - intros a b Hab. now apply Nat2N.inj.
  - apply seq_NoDup.
Qed.

Lemma NoDup_members (d : Digits) : NoDup (members d).
Proof. apply NoDup_filter, NoDup_positions16. Qed.

Lemma testbit_bit (n p : N) :
  N.testbit (bit n) p = (p =? n)%N && (p <? 16)%N.
Proof.
  unfold bit, mask16. rewrite N.land_spec, N.shiftl_1_l, N.pow2_bits_eqb.
  change 65535%N with (N.ones 16).
  rewrite (N.eqb_sym n p). f_equal.
  destruct (N.ltb_spec p 16).
  - now apply N.ones_spec_low.
  - now apply N.ones_spec_high.
Qed.

Lemma isMember_testbit (d : Digits) (n : N) :
  isMember d n = N.testbit d n && (n <? 16)%N.
Proof.
  unfold isMember.
  destruct (N.testbit d n && (n <? 16)%N) eqn:E.
  - apply andb_true_iff in E as [E1 E2].
    destruct (N.eqb_spec (N.land d (bit n)) 0) as [H|H]; [|reflexivity].
    exfalso. assert (Hb : N.testbit (N.land d (bit n)) n = false)
      by (rewrite H; apply N.bits_0).
    rewrite N.land_spec, testbit_bit, E1, E2, N.eqb_refl in Hb. discriminate.
  - destruct (N.eqb_spec (N.land d (bit n)) 0) as [H|H]; [reflexivity|].
    exfalso. apply H. apply N.bits_inj. intros p.
    rewrite N.land_spec, testbit_bit, N.bits_0.
    destruct (N.eqb_spec p n) as [->|]; [|now rewrite andb_false_r].
    simpl. rewrite E. reflexivity.
Qed.

Lemma isMember_members (d : Digits) (n : N) :
  isMember d n = true <-> In n (members d).
Proof.
  rewrite isMember_testbit, andb_true_iff. unfold members.
  rewrite filter_In, In_positions16, N.ltb_lt. tauto.
Qed.

Lemma isMember_lt16 (d : Digits) (n : N) :
  isMember d n = true -> (n < 16)%N.
Proof.
  rewrite isMember_testbit, andb_true_iff, N.ltb_lt. tauto.
Qed.

Lemma testbit_remove (d : Digits) (n p : N) :
  N.testbit (remove d n) p =
  N.testbit d p && negb ((p =? n)%N && (p <? 16)%N).
Proof. unfold remove. now rewrite N.ldiff_spec, testbit_bit. Qed.

Lemma testbit_add (d : Digits) (n p : N) :
  N.testbit (add d n) p = N.testbit d p || ((p =? n)%N && (p <? 16)%N).
Proof. unfold add. now rewrite N.lor_spec, testbit_bit. Qed.

Lemma isMember_remove (d : Digits) (n m : N) :
  isMember (remove d n) m = isMember d m && negb (m =? n)%N.
Proof.
  rewrite !isMember_testbit, testbit_remove.
  destruct (N.testbit d m), (m =? n)%N, (m <? 16)%N; reflexivity.
Qed.

Lemma isMember_remove_same (d : Digits) (n : N) :
  isMember (remove d n) n = false.
Proof. rewrite isMember_remove, N.eqb_refl. apply andb_false_r. Qed.

Lemma members_remove (d : Digits) (n : N) :
  members (remove d n) = filter (fun p => negb (p =? n)%N) (members d).
Proof.
  unfold members.
  assert (H : forall l, (forall p, In p l -> (p < 16)%N) ->
    filter (N.testbit (remove d n)) l =
    filter (fun p => negb (p =? n)%N) (filter (N.testbit d) l)).
  { induction l as [|p l IH]; intros Hl; [reflexivity|].
    simpl. rewrite testbit_remove.
    assert (Hp : (p <? 16)%N = true) by (apply N.ltb_lt, Hl; now left).
    rewrite Hp, andb_true_r.
    rewrite IH by (intros q Hq; apply Hl; now right).
    destruct (N.testbit d p); simpl; [|reflexivity].
    destruct (p =? n)%N; reflexivity. }
  apply H. intros p. apply In_positions16.
Qed.

Lemma length_filter_remove (l : list N) (n : N) :
  NoDup l -> In n l ->
  S (length (filter (fun p => negb (p =? n)%N) l)) = length l.
Proof.
  induction l as [|p l IH]; intros Hnd Hin; [contradiction|].
  inversion Hnd as [|? ? Hnotin Hnd']; subst. simpl.
  destruct (N.eqb_spec p n) as [->|Hne]; simpl.
  - f_equal. clear IH Hnd Hin Hnd'.
    induction l as [|q l IH]; [reflexivity|]. simpl.
    destruct (N.eqb_spec q n) as [->|]; simpl.
    + exfalso. apply Hnotin. now left.
    + f_equal. apply IH. intros H. apply Hnotin. now right.
  - f_equal. apply IH; [assumption|]. destruct Hin; congruence.
Qed.

Lemma onesCount16_members (d : Digits) : onesCount16 d = length (members d).
Proof. reflexivity. Qed.

(** Removing a member takes exactly one off the cardinality. *)
Lemma onesCount16_remove (d : Digits) (n : N) :
  isMember d n = true -> S (onesCount16 (remove d n)) = onesCount16 d.
Proof.
  intros H. rewrite !onesCount16_members, members_remove.
  apply length_filter_remove; [apply NoDup_members|].
  now apply isMember_members.
Qed.

Lemma size_remove (d : Digits) (n : N) :
  isMember d n = true -> size (remove d n) = size d - 1.
Proof. intros H. unfold size. rewrite <- (onesCount16_remove d n H). lia. Qed.

Lemma size_nonneg (d : Digits) : 0 <= size d.
Proof. unfold size. lia. Qed.

Lemma size_zero_iff (d : Digits) :
  size d = 0 <-> forall n, isMember d n = false.
Proof.
  unfold size. rewrite onesCount16_members. split.
  - intros H n. destruct (isMember d n) eqn:E; [|reflexivity].
    apply isMember_members in E. destruct (members d); [contradiction|].
    simpl in H. lia.
  - intros H. destruct (members d) as [|p l] eqn:E; [reflexivity|].
    assert (Hp : isMember d p = true)
      by (apply isMember_members; rewrite E; now left).
    rewrite H in Hp. discriminate.
Qed.

Lemma size_pos_of_member (d : Digits) (n : N) :
  isMember d n = true -> 1 <= size d.
Proof.
  intros H. pose proof (size_nonneg d).
  destruct (Z.eq_dec (size d) 0) as [E|]; [|lia].
  rewrite (proj1 (size_zero_iff d) E) in H. discriminate.
Qed.

(** A set of cardinality 1 has a single member, which is what
    [singleMemberDigit] returns. *)
Lemma size_one_single (d : Digits) :
  size d = 1 ->
  exists k, singleMemberDigit d = Some k /\ isMember d k = true /\
            forall m, isMember d m = true -> m = k.
Proof.
  intros H. unfold singleMemberDigit. rewrite H. simpl.
  unfold trailingZeros16. unfold size in H. rewrite onesCount16_members in H.
  fold (members d).
  destruct (members d) as [|k [|k' l]] eqn:E; simpl in H; try lia.
  exists k. split; [reflexivity|]. split.
  - apply isMember_members. rewrite E. now left.
  - intros m Hm. apply isMember_members in Hm. rewrite E in Hm.
    destruct Hm as [Hm|[]]. now symmetry.
Qed.

Lemma single_size_one (d : Digits) (k : N) :
  isMember d k = true -> (forall m, isMember d m = true -> m = k) ->
  size d = 1.
Proof.
  intros Hk Hall. unfold size. rewrite onesCount16_members.
  pose proof (NoDup_members d) as Hnd.
  assert (Hin : forall m, In m (members d) -> m = k)
    by (intros m Hm; apply Hall; now apply isMember_members).
  apply isMember_members in Hk.
  destruct (members d) as [|a [|b l]]; simpl in *; try contradiction;
    try reflexivity.
  exfalso. inversion Hnd as [|? ? Hnotin _]; subst. apply Hnotin. left.
  rewrite (Hin a), (Hin b); auto.
Qed.

Lemma singleMemberDigit_Some (d : Digits) (k : N) :
  singleMemberDigit d = Some k ->
  size d = 1 /\ isMember d k = true /\
  forall m, isMember d m = true -> m = k.
Proof.
  unfold singleMemberDigit. destruct (Z.eqb_spec (size d) 1) as [H|H];
    [|discriminate].
  intros Hk. destruct (size_one_single d H) as [k' [Hs [Hm Hu]]].
  unfold singleMemberDigit in Hs. rewrite H in Hs. simpl in Hs.
  assert (k' = k) by congruence. subst. auto.
Qed.

Lemma subDigits_spec (a b : Digits) :
  subDigits a b <-> forall p, N.testbit a p = true -> N.testbit b p = true.
Proof.
  unfold subDigits. split.
  - intros H p Hp. assert (E : N.testbit (N.ldiff a b) p = false)
      by (rewrite H; apply N.bits_0).
    rewrite N.ldiff_spec, Hp in E. destruct (N.testbit b p); auto.
  - intros H. apply N.bits_inj. intros p. rewrite N.ldiff_spec, N.bits_0.
    destruct (N.testbit a p) eqn:E; [|reflexivity].
    rewrite (H p E). reflexivity.
Qed.

Lemma subDigits_refl (a : Digits) : subDigits a a.
Proof. apply subDigits_spec. auto. Qed.

Lemma subDigits_trans (a b c : Digits) :
  subDigits a b -> subDigits b c -> subDigits a c.
Proof. rewrite !subDigits_spec. auto. Qed.

Lemma subDigits_remove (d : Digits) (n : N) : subDigits (remove d n) d.
Proof.
  apply subDigits_spec. intros p. rewrite testbit_remove.
  now intros [H _]%andb_true_iff.
Qed.

Lemma subDigits_isMember (a b : Digits) (n : N) :
  subDigits a b -> isMember a n = true -> isMember b n = true.
Proof.
  rewrite subDigits_spec, !isMember_testbit, !andb_true_iff.
  intros H [H1 H2]. auto.
Qed.

Lemma subDigits_absent (a b : Digits) (n : N) :
  subDigits a b -> isMember b n = false -> isMember a n = false.
Proof.
  intros Hsub Hb. destruct (isMember a n) eqn:E; [|reflexivity].
  apply (subDigits_isMember _ _ _ Hsub) in E. congruence.
Qed.

Lemma subDigits_onesCount16 (a b : Digits) :
  subDigits a b -> (onesCount16 a <= onesCount16 b)%nat.
Proof.
  rewrite subDigits_spec. intros H. unfold onesCount16.
  induction positions16 as [|p l IH]; [simpl; lia|].
  simpl. destruct (N.testbit a p) eqn:E.
  - rewrite (H p E). simpl. lia.
  - destruct (N.testbit b p); simpl; lia.
Qed.

Lemma subDigits_size (a b : Digits) : subDigits a b -> size a <= size b.
Proof. intros H. apply subDigits_onesCount16 in H. unfold size. lia. Qed.

Lemma wfDigits_sub (a b : Digits) : subDigits a b -> wfDigits b -> wfDigits a.
Proof. unfold wfDigits. fold (subDigits b fullDigitsSet) (subDigits a fullDigitsSet). apply subDigits_trans. Qed.

Lemma testbit_fullDigitsSet (p : N) :
  N.testbit fullDigitsSet p = (1 <=? p)%N && (p <=? 9)%N.
Proof.
  destruct (N.leb_spec p 9) as [H|H].
  - destruct p as [|p]; [reflexivity|].
    do 4 (destruct p as [p|p|]; try reflexivity; try lia).
  - rewrite andb_false_r. change fullDigitsSet with 1022%N.
    apply N.bits_above_log2. change (N.log2 1022) with 9%N. lia.
Qed.

Lemma wfDigits_isMember (d : Digits) (n : N) :
  wfDigits d -> isMember d n = true -> (1 <= n <= 9)%N.
Proof.
  intros Hwf Hm. rewrite isMember_testbit in Hm.
  apply andb_true_iff in Hm as [Hm _].
  apply (proj1 (subDigits_spec d fullDigitsSet) Hwf) in Hm.
  rewrite testbit_fullDigitsSet in Hm.
  apply andb_true_iff in Hm as [H1 H2].
  apply N.leb_le in H1, H2. lia.
Qed.

Lemma wfDigits_wfDigitsb (d : Digits) : wfDigitsb d = true <-> wfDigits d.
Proof. unfold wfDigitsb, wfDigits. apply N.eqb_eq. Qed.

(* ================================================================== *)
(** * Lemmas on slices and boards *)
(* ================================================================== *)

Lemma get_Some_range {A : Type} (l : list A) (i : Z) (x : A) :
  get l i = Some x -> 0 <= i < Z.of_nat (length l).
Proof.
  unfold get. destruct (Z.ltb_spec i 0) as [Hi|Hi]; [discriminate|].
  intros Hg. assert (Hn : nth_error l (Z.to_nat i) <> None) by congruence.
  apply nth_error_Some in Hn. lia.
Qed.

Lemma get_in_range {A : Type} (l : list A) (i : Z) :
  0 <= i < Z.of_nat (length l) -> exists x, get l i = Some x.
Proof.
  intros H. unfold get. destruct (Z.ltb_spec i 0); [lia|].
  destruct (nth_error l (Z.to_nat i)) eqn:E; [eauto|].
  apply nth_error_None in E. lia.
Qed.

Lemma get_In {A : Type} (l : list A) (i : Z) (x : A) :
  get l i = Some x -> In x l.
Proof.
  unfold get. destruct (i <? 0); [discriminate|]. apply nth_error_In.
Qed.

Lemma In_get {A : Type} (l : list A) (x : A) :
  In x l -> exists i, get l i = Some x.
Proof.
  intros H. apply In_nth_error in H as [n Hn]. exists (Z.of_nat n).
  unfold get. destruct (Z.ltb_spec (Z.of_nat n) 0); [lia|].
  now rewrite Nat2Z.id.
Qed.

Lemma length_update {A : Type} (l : list A) (n : nat) (a : A) :
  length (update l n a) = length l.
Proof.
  revert n. induction l as [|h t IH]; intros [|n]; simpl; auto.
Qed.

Lemma nth_error_update_same {A : Type} (l : list A) (n : nat) (a : A) :
  (n < length l)%nat -> nth_error (update l n a) n = Some a.
Proof.
  revert n. induction l as [|h t IH]; intros [|n] H; simpl in *;
    try lia; auto. apply IH. lia.
Qed.

Lemma nth_error_update_other {A : Type} (l : list A) (n m : nat) (a : A) :
  n <> m -> nth_error (update l n a) m = nth_error l m.
Proof.
  revert n m. induction l as [|h t IH]; intros [|n] [|m] H; simpl;
    try reflexivity; try congruence. apply IH. congruence.
Qed.

Lemma length_set {A : Type} (l : list A) (i : Z) (a : A) :
  length (set l i a) = length l.
Proof. apply length_update. Qed.

Lemma get_set_same {A : Type} (l : list A) (i : Z) (x a : A) :
  get l i = Some x -> get (set l i a) i = Some a.
Proof.
  intros H. apply get_Some_range in H. unfold get, set.
  destruct (Z.ltb_spec i 0); [lia|]. apply nth_error_update_same. lia.
Qed.

Lemma get_set_other {A : Type} (l : list A) (i j : Z) (x a : A) :
  get l i = Some x -> i <> j -> get (set l i a) j = get l j.
Proof.
  intros H Hne. apply get_Some_range in H. unfold get, set.
  destruct (Z.ltb_spec j 0); [reflexivity|].
  apply nth_error_update_other. lia.
Qed.

Lemma get_repeat {A : Type} (a : A) (n : nat) (i : Z) :
  0 <= i < Z.of_nat n -> get (repeat a n) i = Some a.
Proof.
  intros H. unfold get. destruct (Z.ltb_spec i 0); [lia|].
  apply nth_error_repeat. lia.
Qed.

Lemma In_upto (n : nat) (i : Z) : In i (upto n) <-> 0 <= i < Z.of_nat n.
Proof.
  unfold upto. rewrite in_map_iff. split.
  - intros [k [<- Hk]]. apply in_seq in Hk. lia.
  - intros H. exists (Z.to_nat i). split; [lia|]. apply in_seq. lia.
Qed.

Lemma memZ_In (x : Z) (l : list Z) : memZ x l = true <-> In x l.
Proof.
  unfold memZ. rewrite existsb_exists. split.
  - intros [y [Hy E]]. apply Z.eqb_eq in E. now subst.
  - intros H. exists x. split; [assumption|apply Z.eqb_refl].
Qed.

Lemma nodupZ_NoDup (l : list Z) : nodupZ l = true -> NoDup l.
Proof.
  induction l as [|x t IH]; simpl; [constructor|].
  intros [H1 H2]%andb_true_iff. constructor; [|auto].
  intros Hin. apply memZ_In in Hin. rewrite Hin in H1. discriminate.
Qed.

(** ** The narrowing order *)

Lemma narrows_refl (v : Values) : narrows v v.
Proof. unfold narrows. induction v; constructor; auto using subDigits_refl. Qed.

Lemma narrows_trans (v1 v2 v3 : Values) :
  narrows v1 v2 -> narrows v2 v3 -> narrows v1 v3.
Proof.
  unfold narrows. intros H12. revert v3.
  induction H12 as [|a b l l' Hab _ IH]; intros v3 H23.
  - inversion H23. constructor.
  - inversion H23; subst. constructor; eauto using subDigits_trans.
Qed.

Lemma narrows_length (v v' : Values) : narrows v v' -> length v' = length v.
Proof. apply Forall2_length. Qed.

Lemma Forall2_nth_error {A B : Type} (R : A -> B -> Prop) (l : list A)
    (l' : list B) (n : nat) (a : A) :
  Forall2 R l l' -> nth_error l n = Some a ->
  exists b, nth_error l' n = Some b /\ R a b.
Proof.
  intros H. revert n. induction H as [|x y l l' Hxy _ IH]; intros [|n] Hn;
    simpl in *; try discriminate.
  - inversion Hn; subst. eauto.
  - eauto.
Qed.

Lemma Forall2_nth_error_r {A B : Type} (R : A -> B -> Prop) (l : list A)
    (l' : list B) (n : nat) (b : B) :
  Forall2 R l l' -> nth_error l' n = Some b ->
  exists a, nth_error l n = Some a /\ R a b.
Proof.
  intros H. revert n. induction H as [|x y l l' Hxy _ IH]; intros [|n] Hn;
    simpl in *; try discriminate.
  - inversion Hn; subst. eauto.
  - eauto.
Qed.

(** A square of the narrowed board is a subset of the same square
    before. *)
Lemma narrows_get_after (v v' : Values) (q : Index) (d' : Digits) :
  narrows v v' -> get v' q = Some d' ->
  exists d, get v q = Some d /\ subDigits d' d.
Proof.
  unfold get. intros H. destruct (q <? 0); [discriminate|].
  now apply Forall2_nth_error.
Qed.

Lemma narrows_get_before (v v' : Values) (q : Index) (d : Digits) :
  narrows v v' -> get v q = Some d ->
  exists d', get v' q = Some d' /\ subDigits d' d.
Proof.
  unfold get. intros H. destruct (q <? 0); [discriminate|].
  now apply Forall2_nth_error_r.
Qed.

(** A digit absent from a square stays absent on a narrower board. *)
Lemma absent_stable (v v' : Values) (q : Index) (k : N) :
  narrows v v' ->
  (exists d, get v q = Some d /\ isMember d k = false) ->
  exists d', get v' q = Some d' /\ isMember d' k = false.
Proof.
  intros Hn [d [Hg Hm]].
  destruct (narrows_get_before _ _ _ _ Hn Hg) as [d' [Hg' Hsub]].
  exists d'. split; [assumption|]. exact (subDigits_absent _ _ _ Hsub Hm).
Qed.

Lemma narrows_update (v : Values) (n : nat) (ds ds' : Digits) :
  nth_error v n = Some ds -> subDigits ds' ds -> narrows v (update v n ds').
Proof.
  unfold narrows. revert n. induction v as [|h t IH]; intros [|n] Hn Hs;
    simpl in *; try discriminate.
  - inversion Hn; subst. constructor; [assumption|]. apply narrows_refl.
  - constructor; [apply subDigits_refl|]. eauto.
Qed.

Lemma narrows_set (v : Values) (sq : Index) (ds ds' : Digits) :
  get v sq = Some ds -> subDigits ds' ds -> narrows v (set v sq ds').
Proof.
  unfold get, set. destruct (sq <? 0); [discriminate|]. apply narrows_update.
Qed.

Lemma narrows_candidates (v v' : Values) :
  narrows v v' -> (candidates v' <= candidates v)%nat.
Proof.
  unfold narrows. induction 1 as [|a b l l' Hab _ IH]; simpl; [lia|].
  apply subDigits_onesCount16 in Hab. lia.
Qed.

Lemma narrows_wfBoard (v v' : Values) :
  narrows v v' -> wfBoard v -> wfBoard v'.
Proof.
  unfold narrows, wfBoard. induction 1 as [|a b l l' Hab _ IH]; intros Hwf.
  - constructor.
  - inversion Hwf; subst. constructor; eauto using wfDigits_sub.
Qed.

Lemma wfBoard_get (v : Values) (q : Index) (d : Digits) :
  wfBoard v -> get v q = Some d -> wfDigits d.
Proof.
  intros Hwf Hg. apply get_In in Hg.
  exact (proj1 (Forall_forall _ _) Hwf _ Hg).
Qed.

Lemma candidates_update_remove (v : Values) (n : nat) (ds : Digits) (d : N) :
  nth_error v n = Some ds -> isMember ds d = true ->
  S (candidates (update v n (remove ds d))) = candidates v.
Proof.
  revert n. induction v as [|h t IH]; intros [|n] Hn Hm; simpl in *;
    try discriminate.
  - inversion Hn; subst. rewrite <- (onesCount16_remove ds d Hm). lia.
  - rewrite <- (IH n Hn Hm). lia.
Qed.

(** Each actual removal takes one off the candidate count. *)
Lemma candidates_set_remove (v : Values) (sq : Index) (ds : Digits) (d : N) :
  get v sq = Some ds -> isMember ds d = true ->
  S (candidates (set v sq (remove ds d))) = candidates v.
Proof.
  unfold get, set. destruct (sq <? 0); [discriminate|].
  apply candidates_update_remove.
Qed.

(* ================================================================== *)
(** * Reasoning rules for the engine *)
(* ================================================================== *)

Section ForAllRules.

Context {X : Type}.
Variable R : Values -> Values -> Prop.
Hypothesis R_refl : forall v, R v v.
Hypothesis R_trans : forall v1 v2 v3, R v1 v2 -> R v2 v3 -> R v1 v3.

(** A loop relates the board it starts from to the board it leaves when
    each iteration does; [B] selects the results the rule speaks about
    (all of them, or the successes only). *)
Lemma forAll_rule (B : bool -> Prop) (f : Values -> X -> outcome bool)
    (xs : list X) :
  B true ->
  (forall v x b v', In x xs -> f v x = Done b v' -> B b -> R v v') ->
  forall v b v', forAll f xs v = Done b v' -> B b -> R v v'.
Proof.
  intros Bt. induction xs as [|x rest IH]; intros Hf v b v' Hrun Hb.
  - simpl in Hrun. inversion Hrun; subst. apply R_refl.
  - simpl in Hrun. destruct (f v x) as [[|] v0| |] eqn:E; try discriminate.
    + apply R_trans with v0.
      * apply (Hf v x true v0); auto. now left.
      * apply (IH (fun w z c w' Hz => Hf w z c w' (or_intror Hz)) v0 b v');
          auto.
    + inversion Hrun; subst. apply (Hf v x false v'); auto. now left.
Qed.

(** In a loop that ran to its end, every iteration succeeded, on a board
    between the first and the last. *)
Lemma forAll_true_each (f : Values -> X -> outcome bool) (xs : list X) :
  (forall v x v', In x xs -> f v x = Done true v' -> R v v') ->
  forall v v', forAll f xs v = Done true v' ->
  forall x, In x xs ->
  exists w w', R v w /\ f w x = Done true w' /\ R w' v'.
Proof.
  induction xs as [|y rest IH]; intros Hf v v' Hrun x Hx; [contradiction|].
  simpl in Hrun. destruct (f v y) as [[|] v0| |] eqn:E; try discriminate.
  assert (Hrest : R v0 v').
  { refine (forAll_rule (fun b => b = true) f rest eq_refl _
                         v0 true v' Hrun eq_refl).
    intros w z b w' Hz Hw ->. apply (Hf w z w'); auto. now right. }
  destruct Hx as [->|Hx].
  - exists v, v0. auto.
  - destruct (IH (fun w z w' Hz => Hf w z w' (or_intror Hz)) v0 v' Hrun x Hx)
      as [w [w' [H1 [H2 H3]]]].
    exists w, w'. split; [|auto]. apply R_trans with v0; auto.
    apply (Hf v y v0); auto. now left.
Qed.

End ForAllRules.

Section EngineRules.

Variable s : Sudoku.
Variable R : Values -> Values -> Prop.
Variable B : bool -> Prop.
Hypothesis R_refl : forall v, R v v.
Hypothesis R_trans : forall v1 v2 v3, R v1 v2 -> R v2 v3 -> R v1 v3.
Hypothesis B_true : B true.

(** The one primitive step of the propagation: a member is removed from
    a square.  When the rule speaks of successes only ([B false] does not
    hold), the step may assume that the square is not emptied. *)
Hypothesis R_step : forall v sq ds d,
  get v sq = Some ds -> isMember ds d = true ->
  (size (remove ds d) = 0 -> B false) ->
  R v (set v sq (remove ds d)).

Lemma assignWith_rule (elim : Values -> Index -> N -> outcome bool) :
  elimRule R B elim -> elimRule R B (assignWith elim).
Proof.
  intros IH v sq d b v' Hrun Hb. unfold assignWith in Hrun.
  revert Hrun Hb. apply forAll_rule; auto.
  intros w e b0 w' _ He Hb0.
  destruct (get w sq) as [ds|]; [|discriminate].
  destruct (isMember ds e && negb (e =? d)%N).
  - eapply IH; eauto.
  - inversion He; subst. apply R_refl.
Qed.

Lemma unitStep_rule (elim : Values -> Index -> N -> outcome bool) (d : N) :
  elimRule R B elim ->
  forall v u b v', unitStep elim d v u = Done b v' -> B b -> R v v'.
Proof.
  intros IH v u b v' Hrun Hb. unfold unitStep in Hrun.
  destruct (dplacesOf v u d) as [[|p [|p' l]]|]; try discriminate.
  - inversion Hrun; subst. apply R_refl.
  - eapply assignWith_rule; eauto.
  - inversion Hrun; subst. apply R_refl.
Qed.

Lemma propagate_rule (elim : Values -> Index -> N -> outcome bool) :
  elimRule R B elim -> elimRule R B (propagate s elim).
Proof.
  intros IH v sq d b v' Hrun Hb. unfold propagate in Hrun.
  destruct (get v sq) as [ds'|] eqn:Hget; [|discriminate].
  assert (Hunits : forall w,
    match get (units s) sq with
    | Some us => forAll (unitStep elim d) us w
    | None => Panic
    end = Done b v' -> R w v').
  { intros w Hw. destruct (get (units s) sq) as [us|]; [|discriminate].
    eapply (forAll_rule R R_refl R_trans B _ us B_true);
      [|exact Hw|exact Hb].
    intros w1 u b0 w' _. apply unitStep_rule; auto. }
  destruct (size ds') as [|[p|p|]|p] eqn:Hsize; auto.
  - inversion Hrun; subst. apply R_refl.
  - destruct (singleMemberDigit ds') as [k|]; [|discriminate].
    destruct (get (peers s) sq) as [ps|]; [|discriminate].
    destruct (forAll (fun values peer => elim values peer k) ps v)
      as [[|] v2| |] eqn:Hpeers; try discriminate.
    + apply R_trans with v2; auto.
      eapply (forAll_rule R R_refl R_trans B _ ps B_true);
        [|exact Hpeers|exact B_true].
      intros w p b0 w' _. apply IH.
    + inversion Hrun; subst.
      eapply (forAll_rule R R_refl R_trans B _ ps B_true);
        [|exact Hpeers|exact Hb].
      intros w p b0 w' _. apply IH.
Qed.

Lemma eliminateBody_rule (elim : Values -> Index -> N -> outcome bool) :
  elimRule R B elim -> elimRule R B (eliminateBody s elim).
Proof.
  intros IH v sq d b v' Hrun Hb. unfold eliminateBody in Hrun.
  destruct (get v sq) as [ds|] eqn:Hget; [|discriminate].
  destruct (isMember ds d) eqn:Hmem; simpl in Hrun.
  2:{ inversion Hrun; subst. apply R_refl. }
  apply R_trans with (set v sq (remove ds d)).
  - apply R_step; auto. intros Hz.
    unfold propagate in Hrun. rewrite (get_set_same _ _ _ _ Hget) in Hrun.
    rewrite Hz in Hrun. inversion Hrun; subst. exact Hb.
  - eapply propagate_rule; eauto.
Qed.

Lemma eliminateFuel_rule (fuel : nat) : elimRule R B (eliminateFuel s fuel).
Proof.
  induction fuel as [|fuel IH].
  - intros v sq d b v' Hrun. discriminate.
  - simpl. now apply eliminateBody_rule.
Qed.

Lemma assignFuel_rule (fuel : nat) : elimRule R B (assignFuel s fuel).
Proof. apply assignWith_rule, eliminateFuel_rule. Qed.

End EngineRules.

(* ================================================================== *)
(** * Propagation only narrows *)
(* ================================================================== *)

Section Narrowing.

Variable s : Sudoku.

Lemma narrows_step (v : Values) (sq : Index) (ds : Digits) (d : N) :
  get v sq = Some ds -> narrows v (set v sq (remove ds d)).
Proof. intros H. eapply narrows_set; eauto using subDigits_remove. Qed.

Lemma narrows_elimRule (fuel : nat) :
  elimRule narrows (fun _ => True) (eliminateFuel s fuel).
Proof.
  apply eliminateFuel_rule;
    [exact narrows_refl | exact narrows_trans | exact I
    | intros; now apply narrows_step].
Qed.

Lemma eliminateFuel_narrows (fuel : nat) (v : Values) (sq : Index) (d : N)
    (b : bool) (v' : Values) :
  eliminateFuel s fuel v sq d = Done b v' -> narrows v v'.
Proof. intros H. exact (narrows_elimRule fuel v sq d b v' H I). Qed.

Lemma assignFuel_narrows (fuel : nat) (v : Values) (sq : Index) (d : N)
    (b : bool) (v' : Values) :
  assignFuel s fuel v sq d = Done b v' -> narrows v v'.
Proof.
  intros H.
  exact (assignWith_rule narrows (fun _ => True) narrows_refl narrows_trans
           I _ (narrows_elimRule fuel) v sq d b v' H I).
Qed.

Lemma propagate_narrows (fuel : nat) (v : Values) (sq : Index) (d : N)
    (b : bool) (v' : Values) :
  propagate s (eliminateFuel s fuel) v sq d = Done b v' -> narrows v v'.
Proof.
  intros H.
  exact (propagate_rule s narrows (fun _ => True) narrows_refl narrows_trans
           I _ (narrows_elimRule fuel) v sq d b v' H I).
Qed.

(** Whatever [eliminate] returns, the digit is gone from the square. *)
Lemma eliminateFuel_absent (fuel : nat) (v : Values) (sq : Index) (d : N)
    (b : bool) (v' : Values) :
  eliminateFuel s fuel v sq d = Done b v' ->
  exists ds', get v' sq = Some ds' /\ isMember ds' d = false.
Proof.
  intros H. destruct fuel as [|fuel]; [discriminate|].
  simpl in H. unfold eliminateBody in H.
  destruct (get v sq) as [ds|] eqn:Hget; [|discriminate].
  destruct (isMember ds d) eqn:Hmem; simpl in H.
  - apply propagate_narrows in H.
    apply (absent_stable _ _ sq d H). exists (remove ds d).
    split; [exact (get_set_same _ _ _ _ Hget)|apply isMember_remove_same].
  - inversion H; subst. eauto.
Qed.

End Narrowing.

(* ================================================================== *)
(** * Termination of the propagation *)
(* ================================================================== *)

Lemma forAll_fueled {X : Type} (Inv : Values -> Prop)
    (f : Values -> X -> outcome bool) (xs : list X) :
  (forall v x, In x xs -> Inv v ->
     f v x <> OutOfFuel /\ forall b v', f v x = Done b v' -> Inv v') ->
  forall v, Inv v -> forAll f xs v <> OutOfFuel.
Proof.
  induction xs as [|x rest IH]; intros Hf v Hv; simpl; [discriminate|].
  destruct (Hf v x (or_introl eq_refl) Hv) as [Hne Hinv].
  destruct (f v x) as [[|] v0| |]; try discriminate; try assumption.
  apply IH; [|apply (Hinv true v0 eq_refl)].
  intros w y Hy. apply Hf. now right.
Qed.

Lemma forAll_total {X : Type} (Inv : Values -> Prop)
    (f : Values -> X -> outcome bool) (xs : list X) :
  (forall v x, In x xs -> Inv v -> exists b v', f v x = Done b v' /\ Inv v') ->
  forall v, Inv v -> exists b v', forAll f xs v = Done b v' /\ Inv v'.
Proof.
  induction xs as [|x rest IH]; intros Hf v Hv; simpl; [eauto|].
  destruct (Hf v x (or_introl eq_refl) Hv) as [b [v0 [E Hv0]]].
  rewrite E. destruct b; simpl; [|eauto].
  apply IH; auto. intros w y Hy. apply Hf. now right.
Qed.

Lemma dplacesOf_Some (v : Values) (u : Unit) (d : N) (places : list Index) :
  dplacesOf v u d = Some places ->
  forall p, In p places <->
    In p u /\ exists ds, get v p = Some ds /\ isMember ds d = true.
Proof.
  revert places. induction u as [|q rest IH]; simpl; intros places H.
  - inversion H; subst. simpl. intros p. tauto.
  - destruct (get v q) as [ds|] eqn:Hds; [|discriminate].
    destruct (dplacesOf v rest d) as [pl|]; [|discriminate].
    specialize (IH pl eq_refl). inversion H; subst. intros p.
    destruct (isMember ds d) eqn:Hm; simpl; rewrite IH.
    + split.
      * intros [<-|[H1 H2]]; eauto.
      * intros [[<-|H1] H2]; auto.
    + split.
      * intros [H1 H2]; auto.
      * intros [[<-|H1] [ds' [H2 H3]]]; [congruence|eauto].
Qed.

Lemma dplacesOf_total (v : Values) (u : Unit) (d : N) :
  (forall q, In q u -> 0 <= q < Z.of_nat (length v)) ->
  exists places, dplacesOf v u d = Some places.
Proof.
  induction u as [|q rest IH]; intros Hu; simpl; [eauto|].
  destruct (get_in_range v q (Hu q (or_introl eq_refl))) as [ds Hds].
  destruct IH as [places E]; [intros; apply Hu; now right|].
  rewrite Hds, E. eauto.
Qed.

Section Termination.

Variable s : Sudoku.

(** With more fuel than candidates on the board, the model of
    [eliminate] never runs out of fuel: on any board, for any topology. *)
Lemma eliminateFuel_fueled (fuel : nat) :
  forall v sq d, (candidates v < fuel)%nat ->
  eliminateFuel s fuel v sq d <> OutOfFuel.
Proof.
  induction fuel as [|fuel IH]; intros v sq d Hc; [lia|].
  simpl. unfold eliminateBody.
  destruct (get v sq) as [ds|] eqn:Hget; [|discriminate].
  destruct (isMember ds d) eqn:Hmem; simpl; [|discriminate].
  pose proof (candidates_set_remove v sq ds d Hget Hmem) as Hdec.
  set (v1 := set v sq (remove ds d)) in *.
  assert (Hc1 : (candidates v1 < fuel)%nat) by lia.
  clearbody v1. clear Hget Hmem Hdec Hc v ds.
  set (Inv := fun w : Values => (candidates w < fuel)%nat).
  assert (Hassign : forall w q e, Inv w ->
    assignWith (eliminateFuel s fuel) w q e <> OutOfFuel).
  { intros w q e Hw. unfold assignWith. apply (forAll_fueled Inv); auto.
    intros w1 e1 _ Hw1. destruct (get w1 q) as [dq|]; [|split; discriminate].
    destruct (isMember dq e1 && negb (e1 =? e)%N).
    - split; [now apply IH|]. intros b w' Hrun.
      apply eliminateFuel_narrows, narrows_candidates in Hrun.
      unfold Inv in *. lia.
    - split; [discriminate|]. intros b w' Hrun. now inversion Hrun; subst. }
  assert (Hunits : forall w, Inv w ->
    match get (units s) sq with
    | Some us => forAll (unitStep (eliminateFuel s fuel) d) us w
    | None => Panic
    end <> OutOfFuel).
  { intros w Hw. destruct (get (units s) sq) as [us|]; [|discriminate].
    apply (forAll_fueled Inv); auto. intros w1 u _ Hw1. split.
    - unfold unitStep.
      destruct (dplacesOf w1 u d) as [[|p [|p' l]]|]; try discriminate.
      now apply Hassign.
    - intros b w' Hrun.
      assert (Hn : narrows w1 w').
      { revert Hrun. intros Hrun.
        exact (unitStep_rule narrows (fun _ => True) narrows_refl
                 narrows_trans I _ d (narrows_elimRule s fuel)
                 w1 u b w' Hrun I). }
      apply narrows_candidates in Hn. unfold Inv in *. lia. }
  unfold propagate. destruct (get v1 sq) as [ds'|]; [|discriminate].
  destruct (size ds') as [|[p|p|]|p]; try (now apply Hunits);
    [discriminate|].
  destruct (singleMemberDigit ds') as [k|]; [|discriminate].
  destruct (get (peers s) sq) as [ps|]; [|discriminate].
  destruct (forAll (fun values peer => eliminateFuel s fuel values peer k)
              ps v1) as [[|] v2| |] eqn:Hpeers; try discriminate.
  - apply Hunits.
    assert (Hn : narrows v1 v2).
    { eapply (forAll_rule narrows narrows_refl narrows_trans
                (fun _ => True) _ ps I); [|exact Hpeers|exact I].
      intros w p b0 w' _ Hw _. eapply eliminateFuel_narrows; exact Hw. }
    apply narrows_candidates in Hn. unfold Inv. lia.
  - exfalso. revert Hpeers. apply (forAll_fueled Inv); auto.
    intros w p _ Hw. split; [now apply IH|]. intros b w' Hrun.
    apply eliminateFuel_narrows, narrows_candidates in Hrun.
    unfold Inv in *. lia.
Qed.

Lemma assignFuel_fueled (fuel : nat) (v : Values) (sq : Index) (d : N) :
  (candidates v < fuel)%nat -> assignFuel s fuel v sq d <> OutOfFuel.
Proof.
  intros Hc. unfold assignFuel, assignWith.
  apply (forAll_fueled (fun w => (candidates w < fuel)%nat)); auto.
  intros w e _ Hw. destruct (get w sq) as [dq|]; [|split; discriminate].
  destruct (isMember dq e && negb (e =? d)%N).
  - split; [now apply eliminateFuel_fueled|]. intros b w' Hrun.
    apply eliminateFuel_narrows, narrows_candidates in Hrun. lia.
  - split; [discriminate|]. intros b w' Hrun. now inversion Hrun; subst.
Qed.

End Termination.

(* ================================================================== *)
(** * The propagation returns: no panic on a board of 81 squares *)
(* ================================================================== *)

Lemma inRange_spec (i : Z) : inRange i = true <-> 0 <= i < 81.
Proof. unfold inRange. rewrite andb_true_iff, Z.leb_le, Z.ltb_lt. tauto. Qed.

Section Totality.

Variable s : Sudoku.
Hypothesis topo : topologyInRange s = true.

Lemma topo_units (sq : Index) :
  0 <= sq < 81 ->
  exists us, get (units s) sq = Some us /\
    forall u q, In u us -> In q u -> 0 <= q < 81.
Proof.
  intros Hsq. unfold topologyInRange in topo.
  repeat (apply andb_true_iff in topo as [topo ?]).
  apply Z.eqb_eq in topo.
  destruct (get_in_range (units s) sq) as [us Hus]; [lia|].
  exists us. split; [assumption|]. intros u q Hu Hq.
  apply inRange_spec.
  match goal with H : forallb (forallb (forallb inRange)) _ = true |- _ =>
    rewrite forallb_forall in H; specialize (H us (get_In _ _ _ Hus));
    rewrite forallb_forall in H; specialize (H u Hu);
    rewrite forallb_forall in H; exact (H q Hq) end.
Qed.

Lemma topo_peers (sq : Index) :
  0 <= sq < 81 ->
  exists ps, get (peers s) sq = Some ps /\
    forall p, In p ps -> 0 <= p < 81.
Proof.
  intros Hsq. unfold topologyInRange in topo.
  repeat (apply andb_true_iff in topo as [topo ?]).
  apply Z.eqb_eq in topo.
  destruct (get_in_range (peers s) sq) as [ps Hps]; [lia|].
  exists ps. split; [assumption|]. intros p Hp.
  apply inRange_spec.
  match goal with H : forallb (forallb inRange) (peers s) = true |- _ =>
    rewrite forallb_forall in H; specialize (H ps (get_In _ _ _ Hps));
    rewrite forallb_forall in H; exact (H p Hp) end.
Qed.

Lemma topo_unitlist (u : Unit) (q : Index) :
  In u (unitlist s) -> In q u -> 0 <= q < 81.
Proof.
  intros Hu Hq. unfold topologyInRange in topo.
  repeat (apply andb_true_iff in topo as [topo ?]).
  apply inRange_spec.
  match goal with H : forallb (forallb inRange) (unitlist s) = true |- _ =>
    rewrite forallb_forall in H; specialize (H u Hu);
    rewrite forallb_forall in H; exact (H q Hq) end.
Qed.

Lemma sized_narrows (fuel : nat) (w w' : Values) :
  sized fuel w -> narrows w w' -> sized fuel w'.
Proof.
  intros [H1 H2] Hn. split.
  - rewrite (narrows_length _ _ Hn). assumption.
  - apply narrows_candidates in Hn. lia.
Qed.

Lemma assignWith_total (fuel : nat) :
  (forall v sq d, sized fuel v -> 0 <= sq < 81 ->
     exists b v', eliminateFuel s fuel v sq d = Done b v') ->
  forall v sq d, sized fuel v -> 0 <= sq < 81 ->
  exists b v', assignFuel s fuel v sq d = Done b v' /\ sized fuel v'.
Proof.
  intros IH v sq d Hv Hsq. unfold assignFuel, assignWith.
  apply (forAll_total (sized fuel)); [|assumption].
  intros w e _ Hw.
  destruct (get_in_range w sq) as [dq Hdq]; [destruct Hw; lia|].
  rewrite Hdq. destruct (isMember dq e && negb (e =? d)%N); [|eauto].
  destruct (IH w sq e Hw Hsq) as [b [w' E]]. exists b, w'. split; [exact E|].
  eapply sized_narrows; eauto using eliminateFuel_narrows.
Qed.

Lemma eliminateFuel_total (fuel : nat) :
  forall v sq d, sized fuel v -> 0 <= sq < 81 ->
  exists b v', eliminateFuel s fuel v sq d = Done b v'.
Proof.
  induction fuel as [|fuel IH]; intros v sq d [Hlen Hc] Hsq; [lia|].
  simpl. unfold eliminateBody.
  destruct (get_in_range v sq) as [ds Hget]; [lia|]. rewrite Hget.
  destruct (isMember ds d) eqn:Hmem; simpl; [|eauto].
  pose proof (candidates_set_remove v sq ds d Hget Hmem) as Hdec.
  pose proof (get_set_same v sq ds (remove ds d) Hget) as Hget1.
  pose proof (length_set v sq (remove ds d)) as Hlen1.
  set (v1 := set v sq (remove ds d)) in *.
  assert (Hv1 : sized fuel v1) by (split; lia).
  clearbody v1. clear Hget Hmem Hdec Hc Hlen Hlen1 v.
  destruct (topo_units sq Hsq) as [us [Hus Hus_range]].
  destruct (topo_peers sq Hsq) as [ps [Hps Hps_range]].
  assert (Hunits : forall w, sized fuel w ->
    exists b v', forAll (unitStep (eliminateFuel s fuel) d) us w = Done b v').
  { intros w Hw.
    destruct (forAll_total (sized fuel) (unitStep (eliminateFuel s fuel) d)
                us) with (v := w) as [b [v' [E _]]]; eauto.
    intros w1 u Hu Hw1. unfold unitStep.
    destruct (dplacesOf_total w1 u d) as [places Hpl].
    { intros q Hq. destruct Hw1 as [Hl _]. rewrite Hl.
      apply (Hus_range u q Hu Hq). }
    rewrite Hpl. destruct places as [|p [|p' l]]; eauto.
    apply (assignWith_total fuel IH); [assumption|].
    apply (Hus_range u p Hu).
    apply (proj1 (dplacesOf_Some _ _ _ _ Hpl p)). now left. }
  unfold propagate, andThen. rewrite Hget1, Hus.
  destruct (size (remove ds d)) as [|[p|p|]|p] eqn:Hsize; eauto.
  destruct (size_one_single _ Hsize) as [k [Hk _]]. rewrite Hk, Hps.
  destruct (forAll_total (sized fuel)
              (fun values peer => eliminateFuel s fuel values peer k) ps)
    with (v := v1) as [b [v2 [E Hv2]]]; auto.
  { intros w p Hp Hw. destruct (IH w p k Hw (Hps_range p Hp)) as [b [w' E]].
    exists b, w'. split; [exact E|].
    eapply sized_narrows; eauto using eliminateFuel_narrows. }
  rewrite E. destruct b; eauto.
Qed.

End Totality.

(* ================================================================== *)
(** * The topology built by [New] *)
(* ================================================================== *)

Lemma New_topologyInRange : topologyInRange New = true.
Proof. vm_compute. reflexivity. Qed.

Lemma New_squares_ok : forallb (squareTopologyOk New) (upto 81) = true.
Proof. vm_compute. reflexivity. Qed.

Lemma New_square_ok (i : Index) :
  0 <= i < 81 -> squareTopologyOk New i = true.
Proof.
  intros Hi. pose proof New_squares_ok as H. rewrite forallb_forall in H.
  apply H. now apply In_upto.
Qed.

Lemma isPeerb_isPeer (s : Sudoku) (i j : Index) :
  isPeerb s i j = true <-> isPeer s i j.
Proof.
  unfold isPeerb, isPeer. destruct (get (peers s) i) as [ps|].
  - rewrite memZ_In. split; [eauto|]. intros [ps' [E H]].
    inversion E; subst. assumption.
  - split; [discriminate|]. intros [ps' [E _]]. discriminate.
Qed.

(** What the check [squareTopologyOk] establishes. *)
Lemma squareTopologyOk_inv (s : Sudoku) (i : Index) :
  squareTopologyOk s i = true ->
  exists us ps,
    get (units s) i = Some us /\ get (peers s) i = Some ps /\
    length us = 3%nat /\ length ps = 20%nat /\ NoDup ps /\ ~ In i ps /\
    (forall u, In u us -> In i u /\ In u (unitlist s)) /\
    (forall j, In j ps -> isPeer s j i) /\
    (forall j, 0 <= j < 81 ->
       (isPeer s i j <-> j <> i /\ exists u, In u us /\ In j u)).
Proof.
  unfold squareTopologyOk. intros Hok.
  destruct (get (units s) i) as [us|]; [|discriminate].
  destruct (get (peers s) i) as [ps|] eqn:Hps; [|discriminate].
  apply andb_true_iff in Hok as [Hok Hchar].
  apply andb_true_iff in Hok as [Hok Hsym].
  apply andb_true_iff in Hok as [Hok Hunits].
  apply andb_true_iff in Hok as [Hok Hself].
  apply andb_true_iff in Hok as [Hok Hnd].
  apply andb_true_iff in Hok as [Hlen3 Hlen20].
  apply Nat.eqb_eq in Hlen3, Hlen20.
  rewrite forallb_forall in Hchar, Hsym, Hunits.
  exists us, ps.
  split; [reflexivity|]. split; [reflexivity|].
  split; [assumption|]. split; [assumption|].
  split; [now apply nodupZ_NoDup|].
  split.
  { intros Hin. apply memZ_In in Hin. rewrite Hin in Hself. discriminate. }
  split.
  { intros u Hu. specialize (Hunits u Hu).
    apply andb_true_iff in Hunits as [H1 H2]. split; [now apply memZ_In|].
    apply existsb_exists in H2 as [u' [Hu' E]].
    destruct (list_eq_dec Z.eq_dec u u'); [now subst|discriminate]. }
  split.
  { intros j Hj. apply isPeerb_isPeer. now apply Hsym. }
  intros j Hj. specialize (Hchar j (proj2 (In_upto 81 j) Hj)).
  apply Bool.eqb_prop in Hchar.
  rewrite <- isPeerb_isPeer, Hchar, andb_true_iff, negb_true_iff, Z.eqb_neq.
  rewrite existsb_exists. split.
  - intros [H1 [u [Hu Hm]]]. split; [assumption|]. exists u.
    split; [assumption|]. now apply memZ_In.
  - intros [H1 [u [Hu Hm]]]. split; [assumption|]. exists u.
    split; [assumption|]. now apply memZ_In.
Qed.

Lemma isPeer_range (i j : Index) : isPeer New i j -> 0 <= i < 81.
Proof.
  intros [ps [Hps _]]. apply get_Some_range in Hps.
  change (Z.of_nat (length (peers New))) with 81 in Hps. exact Hps.
Qed.

Lemma New_peer_sym (i j : Index) : isPeer New i j -> isPeer New j i.
Proof.
  intros H. pose proof (isPeer_range i j H) as Hi.
  destruct (squareTopologyOk_inv New i (New_square_ok i Hi))
    as [us [ps [_ [Hps [_ [_ [_ [_ [_ [Hsym _]]]]]]]]]].
  destruct H as [ps' [Hps' Hj]]. apply Hsym. congruence.
Qed.

(** C9. The topology built by [New] has exactly 27 units; every square
    [i] of 0-80 has exactly 3 units and exactly 20 peers, which are
    pairwise distinct and do not include [i]; the peer relation is
    symmetric. *)
Theorem New_topology_invariants :
  length (unitlist New) = 27%nat /\
  (forall i, 0 <= i < 81 ->
     exists us ps,
       get (units New) i = Some us /\ get (peers New) i = Some ps /\
       length us = 3%nat /\ length ps = 20%nat /\
       NoDup ps /\ ~ In i ps) /\
  (forall i j, isPeer New i j <-> isPeer New j i).
Proof.
  split; [reflexivity|]. split.
  - intros i Hi.
    destruct (squareTopologyOk_inv New i (New_square_ok i Hi))
      as [us [ps [H1 [H2 [H3 [H4 [H5 [H6 _]]]]]]]].
    exists us, ps. auto 10.
  - intros i j. split; apply New_peer_sym.
Qed.

Lemma New_topology_invariants_witness :
  exists us ps,
    get (units New) 20 = Some us /\ get (peers New) 20 = Some ps /\
    length us = 3%nat /\ length ps = 20%nat /\ NoDup ps /\ ~ In 20 ps.
Proof.
  apply (proj1 (proj2 New_topology_invariants) 20). lia.
Defined.

(** The units of a square are units of the board that contain it, and
    the peers of a square are the other squares of its units. *)
Lemma New_units_peers (i : Index) (us : list Unit) :
  0 <= i < 81 -> get (units New) i = Some us ->
  (forall u, In u us -> In i u /\ In u (unitlist New)) /\
  (forall j, 0 <= j < 81 ->
     (isPeer New i j <-> j <> i /\ exists u, In u us /\ In j u)).
Proof.
  intros Hi Hus.
  destruct (squareTopologyOk_inv New i (New_square_ok i Hi))
    as [us' [ps [H1 [_ [_ [_ [_ [_ [H7 [_ H9]]]]]]]]]].
  assert (us' = us) by congruence. subst. auto.
Qed.

(* ================================================================== *)
(** * The result does not depend on the fuel *)
(* ================================================================== *)

Section FuelIrrelevance.

Variable s : Sudoku.

Lemma andThen_refines (o o' : outcome bool)
    (k k' : Values -> outcome bool) :
  refines o o' -> (forall v, refines (k v) (k' v)) ->
  refines (andThen o k) (andThen o' k').
Proof.
  intros [->| ->] Hk; [left; reflexivity|].
  destruct o' as [[|] v| |]; simpl; auto; right; reflexivity.
Qed.

Lemma forAll_refines {X : Type} (f g : Values -> X -> outcome bool)
    (xs : list X) :
  (forall v x, refines (f v x) (g v x)) ->
  forall v, refines (forAll f xs v) (forAll g xs v).
Proof.
  intros Hfg. induction xs as [|x rest IH]; intros v; simpl.
  - right; reflexivity.
  - apply andThen_refines; auto.
Qed.

Lemma assignWith_refines (e1 e2 : Values -> Index -> N -> outcome bool) :
  (forall v sq d, refines (e1 v sq d) (e2 v sq d)) ->
  forall v sq d, refines (assignWith e1 v sq d) (assignWith e2 v sq d).
Proof.
  intros H v sq d. unfold assignWith. apply forAll_refines.
  intros w e. destruct (get w sq) as [dq|]; [|right; reflexivity].
  destruct (isMember dq e && negb (e =? d)%N); [apply H|right; reflexivity].
Qed.

Lemma propagate_refines (e1 e2 : Values -> Index -> N -> outcome bool) :
  (forall v sq d, refines (e1 v sq d) (e2 v sq d)) ->
  forall v sq d, refines (propagate s e1 v sq d) (propagate s e2 v sq d).
Proof.
  intros H v sq d. unfold propagate.
  destruct (get v sq) as [ds'|]; [|right; reflexivity].
  apply andThen_refines.
  - destruct (size ds') as [|[p|p|]|p]; try (right; reflexivity).
    destruct (singleMemberDigit ds') as [k|]; [|right; reflexivity].
    destruct (get (peers s) sq) as [ps|]; [|right; reflexivity].
    apply forAll_refines. intros w p. apply H.
  - intros w. destruct (get (units s) sq) as [us|]; [|right; reflexivity].
    apply forAll_refines. intros w1 u. unfold unitStep.
    destruct (dplacesOf w1 u d) as [[|p [|p' l]]|]; try (right; reflexivity).
    now apply assignWith_refines.
Qed.

Lemma eliminateFuel_S (fuel : nat) :
  forall v sq d,
  refines (eliminateFuel s fuel v sq d) (eliminateFuel s (S fuel) v sq d).
Proof.
  induction fuel as [|fuel IH]; intros v sq d; [left; reflexivity|].
  change (refines (eliminateBody s (eliminateFuel s fuel) v sq d)
            (eliminateBody s (eliminateFuel s (S fuel)) v sq d)).
  unfold eliminateBody. destruct (get v sq) as [ds|]; [|right; reflexivity].
  destruct (negb (isMember ds d)); [right; reflexivity|].
  now apply propagate_refines.
Qed.

Lemma eliminateFuel_le (n m : nat) (v : Values) (sq : Index) (d : N) :
  (n <= m)%nat ->
  refines (eliminateFuel s n v sq d) (eliminateFuel s m v sq d).
Proof.
  induction 1 as [|m Hle IH]; [right; reflexivity|].
  destruct IH as [E|E]; [left; exact E|]. rewrite E. apply eliminateFuel_S.
Qed.

(** Any fuel above the candidate count gives the outcome of
    [eliminate]. *)
Lemma eliminateFuel_eliminate (fuel : nat) (v : Values) (sq : Index)
    (d : N) :
  (candidates v < fuel)%nat ->
  eliminateFuel s fuel v sq d = eliminate s v sq d.
Proof.
  intros Hc. unfold eliminate.
  destruct (eliminateFuel_le (S (candidates v)) fuel v sq d) as [E|E];
    [lia| |now symmetry].
  exfalso. revert E. apply eliminateFuel_fueled. lia.
Qed.

Lemma assignFuel_assign (fuel : nat) (v : Values) (sq : Index) (d : N) :
  (candidates v < fuel)%nat ->
  assignFuel s fuel v sq d = assign s v sq d.
Proof.
  intros Hc. unfold assign.
  destruct (assignWith_refines (eliminateFuel s (S (candidates v)))
              (eliminateFuel s fuel)
              (fun w q e => eliminateFuel_le (S (candidates v)) fuel w q e Hc)
              v sq d) as [E|E]; [|now symmetry].
  exfalso. revert E. apply assignFuel_fueled. lia.
Qed.

End FuelIrrelevance.

(* ================================================================== *)
(** * Termination, narrowing and idempotence: the theorems *)
(* ================================================================== *)

(** C4. The mutually recursive propagation terminates: on every board,
    for every square and digit, [eliminate] and [assign] never run out of
    fuel, whatever fuel above the candidate count is given, because each
    actual removal takes one candidate off the board; on a board of 81
    squares and a square in 0-80 they return a result (a fixed point
    reached, or a contradiction) and leave a board with no more
    candidates than before. *)
Theorem propagation_terminates :
  (forall (values : Values) (square : Index) (digit : N),
     eliminate New values square digit <> OutOfFuel /\
     assign New values square digit <> OutOfFuel /\
     forall fuel, (candidates values < fuel)%nat ->
       eliminateFuel New fuel values square digit =
         eliminate New values square digit /\
       assignFuel New fuel values square digit =
         assign New values square digit) /\
  (forall (values : Values) (square : Index) (ds : Digits) (digit : N),
     get values square = Some ds -> isMember ds digit = true ->
     S (candidates (set values square (remove ds digit))) =
       candidates values) /\
  (forall (values : Values) (square : Index) (digit : N),
     length values = 81%nat -> 0 <= square < 81 ->
     (exists b values',
        eliminate New values square digit = Done b values' /\
        (candidates values' <= candidates values)%nat) /\
     (exists b values',
        assign New values square digit = Done b values' /\
        (candidates values' <= candidates values)%nat)).
Proof.
  split; [|split].
  - intros values square digit. split; [|split].
    + apply eliminateFuel_fueled. lia.
    + apply assignFuel_fueled. lia.
    + intros fuel Hc. split.
      * now apply eliminateFuel_eliminate.
      * now apply assignFuel_assign.
  - apply candidates_set_remove.
  - intros values square digit Hlen Hsq.
    assert (Hs : sized (S (candidates values)) values) by (split; [auto|lia]).
    split.
    + destruct (eliminateFuel_total New New_topologyInRange _ values square
                  digit Hs Hsq) as [b [v' E]].
      exists b, v'. split; [exact E|].
      apply eliminateFuel_narrows in E. now apply narrows_candidates.
    + destruct (assignWith_total New _
                  (eliminateFuel_total New New_topologyInRange _)
                  values square digit Hs Hsq) as [b [v' [E _]]].
      exists b, v'. split; [exact E|].
      apply assignFuel_narrows in E. now apply narrows_candidates.
Qed.

Lemma propagation_terminates_witness :
  (exists b values',
     eliminate New emptyBoard 20 5 = Done b values' /\
     (candidates values' <= candidates emptyBoard)%nat) /\
  (exists b values',
     assign New emptyBoard 20 5 = Done b values' /\
     (candidates values' <= candidates emptyBoard)%nat).
Proof.
  apply (proj2 (proj2 propagation_terminates) emptyBoard 20 5%N).
  - reflexivity.
  - lia.
Defined.

(** C10. Propagation only narrows the board: after a call of
    [eliminate] or [assign], whatever it returns, the board has the same
    squares and every digit that is a candidate of a square was already
    a candidate of that square before the call. *)
Theorem propagation_only_narrows (values : Values) (square : Index)
    (digit : N) (b : bool) (values' : Values) :
  eliminate New values square digit = Done b values' \/
  assign New values square digit = Done b values' ->
  length values' = length values /\
  forall sq ds', get values' sq = Some ds' ->
    exists ds, get values sq = Some ds /\
      forall n, isMember ds' n = true -> isMember ds n = true.
Proof.
  intros H.
  assert (Hn : narrows values values').
  { destruct H as [H|H].
    - now apply eliminateFuel_narrows in H.
    - now apply assignFuel_narrows in H. }
  split; [now apply narrows_length|].
  intros sq ds' Hg. destruct (narrows_get_after _ _ _ _ Hn Hg) as [ds [E Hs]].
  exists ds. split; [exact E|]. intros n. now apply subDigits_isMember.
Qed.

Lemma propagation_only_narrows_witness :
  exists values',
    assign New emptyBoard 20 5 = Done true values' /\
    length values' = length emptyBoard /\
    forall sq ds', get values' sq = Some ds' ->
      exists ds, get emptyBoard sq = Some ds /\
        forall n, isMember ds' n = true -> isMember ds n = true.
Proof.
  eexists. split; [vm_compute; reflexivity|].
  apply (propagation_only_narrows emptyBoard 20 5%N true).
  right. vm_compute. reflexivity.
Defined.

(** C6. If the digit is already absent from the square, [eliminate]
    returns true and leaves the whole board unchanged; hence a second
    call of [eliminate] with the same square and digit, on the board the
    first call left, returns true and changes nothing. *)
Theorem eliminate_idempotent (values : Values) (square : Index) (digit : N) :
  (forall ds, get values square = Some ds -> isMember ds digit = false ->
     eliminate New values square digit = Done true values) /\
  (forall b values',
     eliminate New values square digit = Done b values' ->
     eliminate New values' square digit = Done true values').
Proof.
  assert (Habsent : forall v ds, get v square = Some ds ->
    isMember ds digit = false -> eliminate New v square digit = Done true v).
  { intros v ds Hg Hm. unfold eliminate. simpl. unfold eliminateBody.
    rewrite Hg, Hm. reflexivity. }
  split; [apply Habsent|].
  intros b values' H. apply eliminateFuel_absent in H as [ds' [Hg Hm]].
  now apply (Habsent values' ds').
Qed.

Lemma eliminate_idempotent_witness :
  eliminate New (set emptyBoard 20 (remove fullDigitsSet 5)) 20 5 =
    Done true (set emptyBoard 20 (remove fullDigitsSet 5)) /\
  exists values',
    eliminate New emptyBoard 20 5 = Done true values' /\
    eliminate New values' 20 5 = Done true values'.
Proof.
  split.
  - apply (proj1 (eliminate_idempotent
                    (set emptyBoard 20 (remove fullDigitsSet 5)) 20 5%N)
             (remove fullDigitsSet 5)); reflexivity.
  - eexists. split; [vm_compute; reflexivity|].
    apply (proj2 (eliminate_idempotent emptyBoard 20 5%N) true).
    vm_compute. reflexivity.
Defined.

(* ================================================================== *)
(** * What a successful propagation establishes *)
(* ================================================================== *)

Lemma forAll_post {X : Type} (P : X -> Values -> Prop)
    (f : Values -> X -> outcome bool) (xs : list X) :
  (forall v x v', In x xs -> f v x = Done true v' -> narrows v v' /\ P x v') ->
  (forall x v v', P x v -> narrows v v' -> P x v') ->
  forall v v', forAll f xs v = Done true v' ->
  forall x, In x xs -> P x v'.
Proof.
  intros Hf Hstable v v' Hrun x Hx.
  destruct (forAll_true_each narrows narrows_refl narrows_trans f xs
              (fun w y w' Hy E => proj1 (Hf w y w' Hy E)) v v' Hrun x Hx)
    as [w [w' [_ [E Hn]]]].
  apply Hstable with w'; [|assumption]. exact (proj2 (Hf w x w' Hx E)).
Qed.

Lemma andThen_true (o : outcome bool) (k : Values -> outcome bool)
    (v' : Values) :
  andThen o k = Done true v' -> exists w, o = Done true w /\ k w = Done true v'.
Proof.
  destruct o as [[|] w| |]; simpl; intros H; try discriminate. eauto.
Qed.

Section Success.

Variable s : Sudoku.

(** ** No square is emptied by a successful propagation *)

Lemma staysNonEmpty_refl (v : Values) : staysNonEmpty v v.
Proof. intros q ds Hg Hs. eauto. Qed.

Lemma staysNonEmpty_trans (v1 v2 v3 : Values) :
  staysNonEmpty v1 v2 -> staysNonEmpty v2 v3 -> staysNonEmpty v1 v3.
Proof.
  intros H12 H23 q ds Hg Hs. destruct (H12 q ds Hg Hs) as [ds2 [Hg2 Hs2]].
  eauto.
Qed.

Lemma staysNonEmpty_elimRule (fuel : nat) :
  elimRule staysNonEmpty succeeded (eliminateFuel s fuel).
Proof.
  apply eliminateFuel_rule;
    [exact staysNonEmpty_refl | exact staysNonEmpty_trans | reflexivity |].
  intros v sq ds d Hget Hmem Hsz q dq Hq Hdq.
  destruct (Z.eq_dec sq q) as [->|Hne].
  - rewrite (get_set_same _ _ _ _ Hget). eexists. split; [reflexivity|].
    intros E. specialize (Hsz E). discriminate.
  - rewrite (get_set_other _ _ _ _ _ Hget Hne). eauto.
Qed.

Lemma eliminateFuel_staysNonEmpty (fuel : nat) (v : Values) (sq : Index)
    (d : N) (v' : Values) :
  eliminateFuel s fuel v sq d = Done true v' -> staysNonEmpty v v'.
Proof. intros H. exact (staysNonEmpty_elimRule fuel v sq d true v' H eq_refl). Qed.

Lemma assignFuel_staysNonEmpty (fuel : nat) (v : Values) (sq : Index)
    (d : N) (v' : Values) :
  assignFuel s fuel v sq d = Done true v' -> staysNonEmpty v v'.
Proof.
  intros H.
  exact (assignWith_rule staysNonEmpty succeeded staysNonEmpty_refl
           staysNonEmpty_trans eq_refl _ (staysNonEmpty_elimRule fuel)
           v sq d true v' H eq_refl).
Qed.

(** ** A square that became a singleton has been cleared from its peers *)

Lemma settled_refl (v : Values) : settled s v v.
Proof.
  split; [apply narrows_refl|]. intros q dq dq' k ps p Hg Hg' Hne.
  congruence.
Qed.

Lemma settled_trans (v1 v2 v3 : Values) :
  settled s v1 v2 -> settled s v2 v3 -> settled s v1 v3.
Proof.
  intros [Hn12 H12] [Hn23 H23]. split; [eapply narrows_trans; eauto|].
  intros q dq dq' k ps p Hg Hg' Hne Hk Hps Hp.
  destruct (narrows_get_after _ _ _ _ Hn23 Hg') as [dq2 [Hg2 _]].
  destruct (N.eq_dec dq' dq2) as [->|Hne2].
  - apply (absent_stable v2 v3 p k Hn23).
    now apply (H12 q dq dq2 k ps p).
  - apply (H23 q dq2 dq' k ps p); auto.
Qed.

(** After the store, a successful [propagate] has removed the digit
    left alone in the square from all its peers. *)
Lemma propagate_clears (fuel : nat) (v1 : Values) (sq : Index) (d : N)
    (v' : Values) (ds1 : Digits) (k : N) (ps : list Index) (p : Index) :
  propagate s (eliminateFuel s fuel) v1 sq d = Done true v' ->
  get v1 sq = Some ds1 -> singleMemberDigit ds1 = Some k ->
  get (peers s) sq = Some ps -> In p ps ->
  exists dp, get v' p = Some dp /\ isMember dp k = false.
Proof.
  intros Hrun Hget Hk Hps Hp. unfold propagate in Hrun.
  rewrite Hget in Hrun. apply andThen_true in Hrun as [v2 [Hsw Hunits]].
  destruct (singleMemberDigit_Some _ _ Hk) as [Hsize _].
  rewrite Hsize, Hk, Hps in Hsw.
  assert (Hn : narrows v2 v').
  { destruct (get (units s) sq) as [us|]; [|discriminate].
    eapply (forAll_rule narrows narrows_refl narrows_trans
              (fun _ => True) _ us I); [|exact Hunits|exact I].
    intros w u b0 w' _ Hw _.
    exact (unitStep_rule narrows (fun _ => True) narrows_refl narrows_trans
             I _ d (narrows_elimRule s fuel) w u b0 w' Hw I). }
  assert (H2 : exists dp, get v2 p = Some dp /\ isMember dp k = false).
  { apply (forAll_post
             (fun p w => exists dp, get w p = Some dp /\ isMember dp k = false)
             (fun values peer => eliminateFuel s fuel values peer k) ps)
      with (v := v1); auto.
    - intros w x w' _ E. split.
      + eapply eliminateFuel_narrows; exact E.
      + eapply eliminateFuel_absent; exact E.
    - intros x w w' Habs Hnw. exact (absent_stable w w' x k Hnw Habs). }
  exact (absent_stable v2 v' p k Hn H2).
Qed.

Lemma settled_elimRule (fuel : nat) :
  elimRule (settled s) succeeded (eliminateFuel s fuel).
Proof.
  induction fuel as [|fuel IH]; intros v sq d b v' Hrun Hb;
    [discriminate|].
  unfold succeeded in Hb. subst b. simpl in Hrun.
  unfold eliminateBody in Hrun.
  destruct (get v sq) as [ds|] eqn:Hget; [|discriminate].
  destruct (isMember ds d) eqn:Hmem; simpl in Hrun.
  2:{ inversion Hrun; subst. apply settled_refl. }
  pose proof (propagate_rule s (settled s) succeeded settled_refl
                settled_trans eq_refl _ IH _ sq d true v' Hrun eq_refl)
    as [Hn1 H1].
  pose proof (narrows_step v sq ds d Hget) as Hn0.
  split; [eapply narrows_trans; eauto|].
  intros q dq dq' k ps p Hg Hg' Hne Hk Hps Hp.
  destruct (narrows_get_after _ _ _ _ Hn1 Hg') as [dq1 [Hg1 _]].
  destruct (N.eq_dec dq' dq1) as [->|Hne1].
  - destruct (Z.eq_dec sq q) as [->|Hsq].
    + eapply propagate_clears; eauto.
    + rewrite (get_set_other _ _ _ _ _ Hget Hsq) in Hg1. congruence.
  - apply (H1 q dq1 dq' k ps p); auto.
Qed.

Lemma assignFuel_settled (fuel : nat) (v : Values) (sq : Index) (d : N)
    (v' : Values) :
  assignFuel s fuel v sq d = Done true v' -> settled s v v'.
Proof.
  intros H.
  exact (assignWith_rule (settled s) succeeded settled_refl settled_trans
           eq_refl _ (settled_elimRule fuel) v sq d true v' H eq_refl).
Qed.

(** ** [assign] forces the square *)

Lemma In_digits19 (n : N) : In n digits19 <-> (1 <= n <= 9)%N.
Proof.
  unfold digits19. simpl. split.
  - intros H. repeat (destruct H as [<-|H]; [lia|]). contradiction.
  - intros H.
    assert (E : (n = 1 \/ n = 2 \/ n = 3 \/ n = 4 \/ n = 5 \/ n = 6 \/
                 n = 7 \/ n = 8 \/ n = 9)%N) by lia.
    intuition auto.
Qed.

(** After a successful [assign], the square holds no digit of 1-9 but
    the assigned one. *)
Lemma assignFuel_others_gone (fuel : nat) (v : Values) (sq : Index) (d : N)
    (v' : Values) (e : N) :
  assignFuel s fuel v sq d = Done true v' ->
  (1 <= e <= 9)%N -> e <> d ->
  exists dq, get v' sq = Some dq /\ isMember dq e = false.
Proof.
  intros Hrun He Hne. unfold assignFuel, assignWith in Hrun.
  refine (forAll_post
            (fun e w => e <> d ->
               exists dq, get w sq = Some dq /\ isMember dq e = false)
            _ digits19 _ _ v v' Hrun e (proj2 (In_digits19 e) He) Hne).
  - intros w x w' _ E.
    destruct (get w sq) as [dq|] eqn:Hg; [|discriminate].
    destruct (isMember dq x && negb (x =? d)%N) eqn:Hc.
    + split.
      * eapply eliminateFuel_narrows; exact E.
      * intros _. eapply eliminateFuel_absent; exact E.
    + inversion E; subst. split; [apply narrows_refl|].
      intros Hx. exists dq. split; [assumption|].
      apply andb_false_iff in Hc as [Hc|Hc]; [assumption|].
      apply negb_false_iff, N.eqb_eq in Hc. contradiction.
  - intros x w w' HP Hn Hx. exact (absent_stable w w' sq x Hn (HP Hx)).
Qed.

Lemma assignFuel_forces (fuel : nat) (v : Values) (sq : Index) (d : N)
    (v' : Values) (ds : Digits) :
  wfBoard v -> get v sq = Some ds -> size ds <> 0 ->
  assignFuel s fuel v sq d = Done true v' ->
  exists ds', get v' sq = Some ds' /\ size ds' = 1 /\
              singleMemberDigit ds' = Some d.
Proof.
  intros Hwf Hget Hsz Hrun.
  destruct (assignFuel_staysNonEmpty _ _ _ _ _ Hrun sq ds Hget Hsz)
    as [ds' [Hg' Hsz']].
  pose proof (narrows_wfBoard _ _ (assignFuel_narrows s _ _ _ _ _ _ Hrun) Hwf)
    as Hwf'.
  assert (Hall : forall m, isMember ds' m = true -> m = d).
  { intros m Hm. destruct (N.eq_dec m d) as [|Hne]; [assumption|].
    pose proof (wfDigits_isMember _ _ (wfBoard_get _ _ _ Hwf' Hg') Hm) as Hr.
    destruct (assignFuel_others_gone _ _ _ _ _ m Hrun Hr Hne)
      as [dq [Hq Hmq]]. congruence. }
  assert (Hd : isMember ds' d = true).
  { destruct (members ds') as [|m l] eqn:E.
    - exfalso. apply Hsz'. unfold size. rewrite onesCount16_members, E.
      reflexivity.
    - assert (Hm : isMember ds' m = true)
        by (apply isMember_members; rewrite E; now left).
      now rewrite <- (Hall m Hm). }
  pose proof (single_size_one ds' d Hd Hall) as H1.
  exists ds'. split; [assumption|]. split; [assumption|].
  destruct (size_one_single ds' H1) as [k [Hk [Hmk Hu]]].
  rewrite Hk. f_equal. symmetry. now apply Hu.
Qed.

(** [assign] of the digit a square already holds alone does nothing. *)
Lemma assignFuel_already (fuel : nat) (v : Values) (sq : Index) (d : N)
    (ds : Digits) :
  get v sq = Some ds -> singleMemberDigit ds = Some d ->
  assignFuel s fuel v sq d = Done true v.
Proof.
  intros Hget Hk. destruct (singleMemberDigit_Some _ _ Hk) as [_ [_ Hu]].
  unfold assignFuel, assignWith.
  induction digits19 as [|e rest IH]; [reflexivity|].
  simpl. rewrite Hget.
  destruct (isMember ds e) eqn:Hm; simpl; [|exact IH].
  rewrite (Hu e Hm), N.eqb_refl. simpl. exact IH.
Qed.

End Success.

(* ================================================================== *)
(** * Assign/eliminate consistency *)
(* ================================================================== *)

Lemma wfBoardb_wfBoard (v : Values) : wfBoardb v = true -> wfBoard v.
Proof.
  unfold wfBoardb, wfBoard. rewrite forallb_forall, Forall_forall.
  intros H d Hd. apply wfDigits_wfDigitsb. now apply H.
Qed.

Lemma wfBoard_emptyBoard : wfBoard emptyBoard.
Proof. apply wfBoardb_wfBoard. vm_compute. reflexivity. Qed.

Lemma wfDigits_size_le (d : Digits) : wfDigits d -> size d <= 9.
Proof. intros H. apply (subDigits_size d fullDigitsSet H). Qed.

(** C1, counterexample.  On the board whose square 0 holds digit 5 alone
    and whose other squares hold all nine digits, [assign] of 5 to
    square 0 returns true and changes nothing: square 1, a peer of
    square 0, still admits 5. *)
Lemma assign_consistency_fails :
  ~ assignConsistent New (set emptyBoard 0 (add emptyDigitsSet 5)) 0 5.
Proof.
  intros H.
  destruct (H (set emptyBoard 0 (add emptyDigitsSet 5))) as [_ Hpeers];
    [vm_compute; reflexivity|].
  destruct (Hpeers 1) as [dp [Hg Hm]].
  - exists [1; 2; 3; 4; 5; 6; 7; 8; 9; 18; 27; 36; 45; 54; 63; 72; 10; 11;
            19; 20].
    split; [vm_compute; reflexivity|]. simpl. auto.
  - vm_compute in Hg. inversion Hg; subst. vm_compute in Hm. discriminate.
Qed.

(** C1 (amended). On a board whose squares hold digits 1-9 only: if
    [board[sq]] is not empty and [assign(board, sq, d)] returns true,
    then afterwards [board[sq]] has cardinality 1 with single member [d];
    if moreover [board[sq]] was not already the singleton of [d] before
    the call, then [d] is not a member of [board[p]] for any peer [p] of
    [sq].  When [board[sq]] is already the singleton of [d], [assign]
    returns true and leaves the board as it is. *)
Theorem assign_consistency (values : Values) (sq : Index) (d : N)
    (ds : Digits) :
  wfBoard values -> get values sq = Some ds ->
  (size ds <> 0 ->
   forall values', assign New values sq d = Done true values' ->
     (exists ds', get values' sq = Some ds' /\ size ds' = 1 /\
                  singleMemberDigit ds' = Some d) /\
     (singleMemberDigit ds <> Some d ->
      forall p, isPeer New sq p ->
        exists dp, get values' p = Some dp /\ isMember dp d = false)) /\
  (singleMemberDigit ds = Some d ->
   assign New values sq d = Done true values).
Proof.
  intros Hwf Hget. split.
  - intros Hsz values' Hrun.
    destruct (assignFuel_forces New _ _ _ _ _ _ Hwf Hget Hsz Hrun)
      as [ds' [Hg' [Hs' Hk']]].
    split; [eauto|]. intros Hnot p [ps [Hps Hp]].
    destruct (assignFuel_settled New _ _ _ _ _ Hrun) as [_ Hsettled].
    apply (Hsettled sq ds ds' d ps p); auto. congruence.
  - intros Hk. now apply (assignFuel_already New _ values sq d ds).
Qed.

Lemma assign_consistency_witness :
  (forall values', assign New emptyBoard 20 5 = Done true values' ->
     (exists ds', get values' 20 = Some ds' /\ size ds' = 1 /\
                  singleMemberDigit ds' = Some 5%N) /\
     (forall p, isPeer New 20 p ->
        exists dp, get values' p = Some dp /\ isMember dp 5 = false)) /\
  assign New (set emptyBoard 0 (add emptyDigitsSet 5)) 0 5 =
    Done true (set emptyBoard 0 (add emptyDigitsSet 5)).
Proof.
  split.
  - intros values' Hrun.
    destruct (proj1 (assign_consistency emptyBoard 20 5%N fullDigitsSet
                       (wfBoardb_wfBoard emptyBoard eq_refl) eq_refl))
      with (values' := values') as [H1 H2].
    + vm_compute. discriminate.
    + exact Hrun.
    + split; [exact H1|]. apply H2. vm_compute. discriminate.
  - refine (proj2 (assign_consistency
                     (set emptyBoard 0 (add emptyDigitsSet 5)) 0 5%N
                     (add emptyDigitsSet 5) _ eq_refl) eq_refl).
    apply wfBoardb_wfBoard. vm_compute. reflexivity.
Defined.

(* ================================================================== *)
(** * Boards kept by the propagation *)
(* ================================================================== *)

Lemma propagated_emptyBoard (s : Sudoku) : propagated s emptyBoard.
Proof.
  assert (Hfull : forall q dq, get emptyBoard q = Some dq ->
            dq = fullDigitsSet).
  { intros q dq Hg. apply get_In in Hg. now apply repeat_spec in Hg. }
  split; [exact wfBoard_emptyBoard|]. split.
  - intros q dq Hg. rewrite (Hfull q dq Hg). discriminate.
  - intros q dq k ps p Hg Hk. rewrite (Hfull q dq Hg) in Hk. discriminate.
Qed.

Lemma propagated_step (s : Sudoku) (v v' : Values) :
  settled s v v' -> staysNonEmpty v v' -> propagated s v -> propagated s v'.
Proof.
  intros [Hn Hsettled] Hne [Hwf [Hsz Hclear]]. split; [|split].
  - now apply (narrows_wfBoard v).
  - intros q dq' Hg'. destruct (narrows_get_after _ _ _ _ Hn Hg')
      as [dq [Hg _]].
    destruct (Hne q dq Hg (Hsz q dq Hg)) as [d1 [Hg1 Hs1]]. congruence.
  - intros q dq' k ps p Hg' Hk Hps Hp.
    destruct (narrows_get_after _ _ _ _ Hn Hg') as [dq [Hg _]].
    destruct (N.eq_dec dq' dq) as [->|Hneq].
    + destruct (Hclear q dq k ps p Hg Hk Hps Hp) as [dp [Hgp Hm]].
      exact (absent_stable v v' p k Hn (ex_intro _ dp (conj Hgp Hm))).
    + now apply (Hsettled q dq dq' k ps p).
Qed.

(** A successful [assign] or [eliminate] keeps a board propagated. *)
Lemma propagated_assign (s : Sudoku) (v : Values) (sq : Index) (d : N)
    (v' : Values) :
  propagated s v -> assign s v sq d = Done true v' -> propagated s v'.
Proof.
  intros Hp Hrun. apply (propagated_step s v v'); auto.
  - eapply assignFuel_settled; exact Hrun.
  - eapply assignFuel_staysNonEmpty; exact Hrun.
Qed.

Lemma propagated_eliminate (s : Sudoku) (v : Values) (sq : Index) (d : N)
    (v' : Values) :
  propagated s v -> eliminate s v sq d = Done true v' -> propagated s v'.
Proof.
  intros Hp Hrun. apply (propagated_step s v v'); auto.
  - exact (settled_elimRule s _ v sq d true v' Hrun eq_refl).
  - eapply eliminateFuel_staysNonEmpty; exact Hrun.
Qed.

(** On the boards the propagation keeps, starting with the empty board,
    the consistency of [assign] holds as the specification words it. *)
Lemma assign_consistent_propagated (s : Sudoku) (v : Values) (sq : Index)
    (d : N) :
  propagated s v -> assignConsistent s v sq d.
Proof.
  intros [Hwf [Hsz Hclear]] v' Hrun.
  destruct (get v sq) as [ds|] eqn:Hget.
  2:{ exfalso. unfold assign, assignFuel, assignWith in Hrun.
      simpl in Hrun. rewrite Hget in Hrun. discriminate. }
  destruct (assignFuel_forces s _ _ _ _ _ _ Hwf Hget (Hsz sq ds Hget) Hrun)
    as [ds' [Hg' [Hs' Hk']]].
  split; [eauto|]. intros p [ps [Hps Hp]].
  destruct (N.eq_dec ds' ds) as [->|Hne].
  - destruct (Hclear sq ds d ps p Hget Hk' Hps Hp) as [dp [Hgp Hm]].
    pose proof (assignFuel_narrows s _ _ _ _ _ _ Hrun) as Hn.
    exact (absent_stable v v' p d Hn (ex_intro _ dp (conj Hgp Hm))).
  - destruct (assignFuel_settled s _ _ _ _ _ Hrun) as [_ Hsettled].
    now apply (Hsettled sq ds ds' d ps p).
Qed.

(* ================================================================== *)
(** * Units keep a place for every removed digit *)
(* ================================================================== *)

Lemma single_sub (a b : Digits) (e : N) :
  subDigits a b -> singleMemberDigit b = Some e -> isMember a e = true ->
  singleMemberDigit a = Some e.
Proof.
  intros Hsub Hb Ha. destruct (singleMemberDigit_Some _ _ Hb) as [_ [_ Hu]].
  assert (Hall : forall m, isMember a m = true -> m = e)
    by (intros m Hm; apply Hu; eapply subDigits_isMember; eauto).
  pose proof (single_size_one a e Ha Hall) as H1.
  destruct (size_one_single a H1) as [k [Hk [Hmk _]]].
  rewrite Hk. f_equal. now apply Hall.
Qed.

Lemma absent_narrows (v v' : Values) (q : Index) (dq dq' : Digits) (e : N) :
  narrows v v' -> get v q = Some dq -> get v' q = Some dq' ->
  isMember dq e = false -> isMember dq' e = false.
Proof.
  intros Hn Hg Hg' Hm.
  destruct (absent_stable v v' q e Hn (ex_intro _ dq (conj Hg Hm)))
    as [d' [E Hm']].
  congruence.
Qed.

(** Between a board and a narrower one, the places of a digit in a unit
    are the same unless the digit was removed from a square of the
    unit. *)
Lemma dplacesOf_narrows (v v' : Values) (u : Unit) (e : N)
    (places : list Index) :
  narrows v v' -> dplacesOf v u e = Some places ->
  exists places', dplacesOf v' u e = Some places' /\
    (places' = places \/ exists q, In q u /\ touched v v' q e).
Proof.
  intros Hn. revert places. induction u as [|q rest IH]; simpl; intros pl H.
  - inversion H; subst. eauto.
  - destruct (get v q) as [dq|] eqn:Hg; [|discriminate].
    destruct (dplacesOf v rest e) as [pl0|]; [|discriminate].
    inversion H; subst. clear H.
    destruct (IH pl0 eq_refl) as [pl0' [E Hcase]].
    destruct (narrows_get_before _ _ _ _ Hn Hg) as [dq' [Hg' Hsub]].
    rewrite Hg', E. eexists. split; [reflexivity|].
    destruct Hcase as [->|[q' [Hq' Ht]]].
    2:{ right. exists q'. split; [now right|assumption]. }
    destruct (isMember dq e) eqn:Hm, (isMember dq' e) eqn:Hm'; auto.
    + right. exists q. split; [now left|]. exists dq, dq'. auto.
    + apply (subDigits_isMember _ _ _ Hsub) in Hm'. congruence.
Qed.

Section UnitsServed.

Variable s : Sudoku.
Hypothesis closed : unitsClosed s.

(** A unit whose places for [e] were checked on [w], with the single
    place (if any) forced on [w'], is still served on a narrower board
    [v'], unless [e] was removed from one of its squares in between. *)
Lemma service_transfer (w w' v' : Values) (u : Unit) (e : N)
    (places : list Index) :
  narrows w w' -> narrows w' v' ->
  dplacesOf w u e = Some places -> places <> [] ->
  (forall p, places = [p] ->
     exists dp, get w' p = Some dp /\ singleMemberDigit dp = Some e) ->
  unitServed v' u e \/ exists q, In q u /\ touched w v' q e.
Proof.
  intros Hn1 Hn2 Hpl Hne Hsingle.
  destruct (dplacesOf_narrows w v' u e places
              (narrows_trans _ _ _ Hn1 Hn2) Hpl) as [pl' [E [->|Ht]]];
    [left|right; assumption].
  exists places. split; [assumption|]. split; [assumption|].
  intros p Hp. destruct (Hsingle p Hp) as [dp [Hg Hk]].
  destruct (narrows_get_before _ _ _ _ Hn2 Hg) as [dp' [Hg' Hsub]].
  exists dp'. split; [assumption|]. apply (single_sub dp' dp e Hsub Hk).
  assert (Hin : In p places) by (rewrite Hp; now left).
  apply (dplacesOf_Some _ _ _ _ E) in Hin as [_ [d0 [Hd0 Hm]]]. congruence.
Qed.

Lemma served_refl (v : Values) : served s v v.
Proof.
  split; [apply narrows_refl|].
  intros _ q e us u [dq [dq' [H1 [H2 [H3 H4]]]]]. congruence.
Qed.

Lemma served_trans (v1 v2 v3 : Values) :
  served s v1 v2 -> served s v2 v3 -> served s v1 v3.
Proof.
  intros [Hn12 H12] [Hn23 H23]. split; [eapply narrows_trans; eauto|].
  intros Hwf q e us u [dq [dq' [Hg [Hg' [Hm Hm']]]]] Hus Hu.
  pose proof (narrows_wfBoard _ _ Hn12 Hwf) as Hwf2.
  destruct (narrows_get_before _ _ _ _ Hn12 Hg) as [dq2 [Hg2 _]].
  destruct (isMember dq2 e) eqn:Hm2.
  - apply (H23 Hwf2 q e us u); auto. exists dq2, dq'. auto.
  - assert (Ht : touched v1 v2 q e) by (exists dq, dq2; auto).
    destruct (H12 Hwf q e us u Ht Hus Hu) as [pl [Hpl [Hne Hsingle]]].
    destruct (service_transfer v2 v2 v3 u e pl (narrows_refl v2) Hn23
                Hpl Hne Hsingle) as [Hserved|[q' [Hq' Ht']]];
      [assumption|].
    destruct (closed q us u q' Hus Hu Hq') as [us' [Hus' Hu']].
    apply (H23 Hwf2 q' e us' u); auto.
Qed.

(** The units loop of a successful [propagate] has checked every unit
    of the square, on a board between the one after the store and the
    final one. *)
Lemma propagate_units_each (elim : Values -> Index -> N -> outcome bool)
    (v1 : Values) (sq : Index) (d : N) (v' : Values) (us : list Unit)
    (u : Unit) :
  elimRule narrows (fun _ => True) elim ->
  propagate s elim v1 sq d = Done true v' ->
  get (units s) sq = Some us -> In u us ->
  exists w w', narrows v1 w /\ unitStep elim d w u = Done true w' /\
               narrows w w' /\ narrows w' v'.
Proof.
  intros Hel Hrun Hus Hu. unfold propagate in Hrun.
  destruct (get v1 sq) as [ds'|]; [|discriminate].
  apply andThen_true in Hrun as [v2 [Hsw Hunits]]. rewrite Hus in Hunits.
  assert (Hn12 : narrows v1 v2).
  { destruct (size ds') as [|[p|p|]|p]; try discriminate;
      try (inversion Hsw; subst; apply narrows_refl).
    destruct (singleMemberDigit ds') as [k|]; [|discriminate].
    destruct (get (peers s) sq) as [ps|]; [|discriminate].
    eapply (forAll_rule narrows narrows_refl narrows_trans
              (fun _ => True) _ ps I); [|exact Hsw|exact I].
    intros w p b0 w' _ Hw _. exact (Hel w p k b0 w' Hw I). }
  assert (Hstep : forall w x w', unitStep elim d w x = Done true w' ->
            narrows w w').
  { intros w x w' E.
    exact (unitStep_rule narrows (fun _ => True) narrows_refl narrows_trans
             I _ d Hel w x true w' E I). }
  destruct (forAll_true_each narrows narrows_refl narrows_trans
              (unitStep elim d) us (fun w x w' _ E => Hstep w x w' E)
              v2 v' Hunits u Hu) as [w [w' [Hn2 [E Hn3]]]].
  exists w, w'. split; [eapply narrows_trans; eauto|]. eauto.
Qed.

Lemma served_elimRule (fuel : nat) :
  elimRule (served s) succeeded (eliminateFuel s fuel).
Proof.
  induction fuel as [|fuel IH]; intros v sq d b v' Hrun Hb;
    [discriminate|].
  unfold succeeded in Hb. subst b. simpl in Hrun.
  unfold eliminateBody in Hrun.
  destruct (get v sq) as [ds|] eqn:Hget; [|discriminate].
  destruct (isMember ds d) eqn:Hmem; simpl in Hrun.
  2:{ inversion Hrun; subst. apply served_refl. }
  pose proof (propagate_rule s (served s) succeeded served_refl
                served_trans eq_refl _ IH _ sq d true v' Hrun eq_refl)
    as [Hn1 H1].
  pose proof (narrows_step v sq ds d Hget) as Hn0.
  split; [eapply narrows_trans; eauto|].
  intros Hwf q e us u [dq [dq' [Hg [Hg' [Hm Hm']]]]] Hus Hu.
  pose proof (narrows_wfBoard _ _ Hn0 Hwf) as Hwf1.
  destruct (narrows_get_before _ _ _ _ Hn0 Hg) as [dq1 [Hg1 _]].
  destruct (isMember dq1 e) eqn:Hm1.
  { apply (H1 Hwf1 q e us u); auto. exists dq1, dq'. auto. }
  assert (Hq : q = sq /\ e = d).
  { destruct (Z.eq_dec sq q) as [<-|Hne].
    - split; [reflexivity|].
      rewrite (get_set_same _ _ _ _ Hget) in Hg1. inversion Hg1; subst.
      rewrite isMember_remove in Hm1. assert (dq = ds) by congruence. subst.
      rewrite Hm in Hm1. simpl in Hm1.
      now apply negb_false_iff, N.eqb_eq in Hm1.
    - rewrite (get_set_other _ _ _ _ _ Hget Hne) in Hg1. congruence. }
  destruct Hq as [-> ->].
  destruct (propagate_units_each _ _ _ _ _ us u (narrows_elimRule s fuel)
              Hrun Hus Hu) as [w [w' [Hnw [Hstep [Hnww Hnv]]]]].
  pose proof (narrows_wfBoard _ _ Hnw Hwf1) as Hwfw.
  unfold unitStep in Hstep.
  destruct (dplacesOf w u d) as [pl|] eqn:Hpl; [|discriminate].
  assert (Hchecked : pl <> [] /\ forall p, pl = [p] ->
            exists dp, get w' p = Some dp /\ singleMemberDigit dp = Some d).
  { destruct pl as [|p [|p' l]]; try discriminate.
    - split; [discriminate|]. intros p0 Hp0. inversion Hp0; subst p0.
      assert (Hin : In p [p]) by now left.
      apply (dplacesOf_Some _ _ _ _ Hpl) in Hin as [_ [dp [Hgp Hmp]]].
      destruct (assignFuel_forces s fuel w p d w' dp Hwfw Hgp) as
        [dp' [Hgp' [_ Hk]]]; eauto.
      pose proof (size_pos_of_member _ _ Hmp). lia.
    - split; [discriminate|]. intros p0 Hp0. discriminate. }
  destruct Hchecked as [Hne Hsingle].
  destruct (service_transfer w w' v' u d pl Hnww Hnv Hpl Hne Hsingle)
    as [Hserved|[q' [Hq' [dw [dv [Hgw [Hgv [Hmw Hmv]]]]]]]]; [assumption|].
  destruct (closed sq us u q' Hus Hu Hq') as [us' [Hus' Hu']].
  apply (H1 Hwf1 q' d us' u); auto.
  destruct (narrows_get_after _ _ _ _ Hnw Hgw) as [d1 [Hg1' Hsub]].
  exists d1, dv. repeat split; auto.
  now apply (subDigits_isMember _ _ _ Hsub).
Qed.

Lemma eliminateFuel_served (fuel : nat) (v : Values) (sq : Index) (d : N)
    (v' : Values) :
  eliminateFuel s fuel v sq d = Done true v' -> served s v v'.
Proof. intros H. exact (served_elimRule fuel v sq d true v' H eq_refl). Qed.

End UnitsServed.

Lemma New_unitsClosed : unitsClosed New.
Proof.
  assert (Hb : forallb (fun q =>
      match get (units New) q with
      | Some us =>
          forallb (fun u =>
            forallb (fun q' =>
              match get (units New) q' with
              | Some us' =>
                  existsb (fun u' =>
                    if list_eq_dec Z.eq_dec u u' then true else false) us'
              | None => false
              end) u) us
      | None => true
      end) (upto 81) = true) by (vm_compute; reflexivity).
  intros q us u q' Hus Hu Hq'. rewrite forallb_forall in Hb.
  assert (Hq : 0 <= q < 81).
  { apply get_Some_range in Hus.
    change (Z.of_nat (length (units New))) with 81 in Hus. exact Hus. }
  specialize (Hb q (proj2 (In_upto 81 q) Hq)). rewrite Hus in Hb.
  rewrite forallb_forall in Hb. specialize (Hb u Hu).
  rewrite forallb_forall in Hb. specialize (Hb q' Hq').
  destruct (get (units New) q') as [us'|]; [|discriminate].
  exists us'. split; [reflexivity|].
  apply existsb_exists in Hb as [u' [Hu' E]].
  destruct (list_eq_dec Z.eq_dec u u'); [now subst|discriminate].
Qed.

(** C5. On a board of digits 1-9: [eliminate] returns false when the
    removal leaves the square with no candidate; and for every unit of a
    square from which the propagation removed a digit, if no square of
    the unit admits that digit any more then [eliminate] has returned
    false, and if [eliminate] returned true and exactly one square of the
    unit still admits the digit, that square holds the digit alone (it
    was assigned).  The last part shows the loop over the units doing
    it: no place is a failure, one place is an [assign] of the digit to
    that place. *)
Theorem eliminate_contradictions (values : Values) (square : Index)
    (digit : N) :
  wfBoard values ->
  (forall ds, get values square = Some ds -> isMember ds digit = true ->
     size (remove ds digit) = 0 ->
     eliminate New values square digit =
       Done false (set values square (remove ds digit))) /\
  (forall b values' q e us u places,
     eliminate New values square digit = Done b values' ->
     touched values values' q e ->
     get (units New) q = Some us -> In u us ->
     dplacesOf values' u e = Some places ->
     (places = [] -> b = false) /\
     (b = true -> forall p, places = [p] ->
        exists dp, get values' p = Some dp /\ size dp = 1 /\
                   singleMemberDigit dp = Some e)) /\
  (forall elim v u,
     (dplacesOf v u digit = Some [] ->
      unitStep elim digit v u = Done false v) /\
     (forall p, dplacesOf v u digit = Some [p] ->
      unitStep elim digit v u = assignWith elim v p digit)).
Proof.
  intros Hwf. split; [|split].
  - intros ds Hget Hmem Hsize. unfold eliminate. simpl.
    unfold eliminateBody. rewrite Hget, Hmem. simpl. unfold propagate.
    rewrite (get_set_same _ _ _ _ Hget), Hsize. reflexivity.
  - intros b values' q e us u places Hrun Ht Hus Hu Hpl.
    assert (Htrue : b = true -> unitServed values' u e).
    { intros ->. apply eliminateFuel_served in Hrun as [_ Hserved];
        [|exact New_unitsClosed].
      apply (Hserved Hwf q e us u); auto. }
    split.
    + intros ->. destruct b; [|reflexivity].
      destruct (Htrue eq_refl) as [pl [E [Hne _]]]. congruence.
    + intros Hb p Hp. destruct (Htrue Hb) as [pl [E [_ Hsingle]]].
      assert (pl = places) by congruence. subst pl.
      destruct (Hsingle p Hp) as [dp [Hg Hk]]. exists dp.
      split; [assumption|]. split; [|assumption].
      now destruct (singleMemberDigit_Some _ _ Hk).
  - intros elim v u. unfold unitStep. split.
    + intros ->. reflexivity.
    + intros p ->. reflexivity.
Qed.

Lemma eliminate_contradictions_witness :
  eliminate New (set emptyBoard 0 (add emptyDigitsSet 5)) 0 5 =
    Done false (set (set emptyBoard 0 (add emptyDigitsSet 5)) 0
                  (remove (add emptyDigitsSet 5) 5)) /\
  exists values',
    eliminate New forcedRowBoard 0 5 = Done true values' /\
    exists dp, get values' 1 = Some dp /\ size dp = 1 /\
               singleMemberDigit dp = Some 5%N.
Proof.
  split.
  - apply (proj1 (eliminate_contradictions
                    (set emptyBoard 0 (add emptyDigitsSet 5)) 0 5%N
                    (wfBoardb_wfBoard
                       (set emptyBoard 0 (add emptyDigitsSet 5)) eq_refl))
             (add emptyDigitsSet 5));
      reflexivity.
  - eexists. split; [vm_compute; reflexivity|].
    refine (proj2 (proj1 (proj2 (eliminate_contradictions forcedRowBoard 0
                                   5%N
                                   (wfBoardb_wfBoard forcedRowBoard
                                      eq_refl)))
                     true _ 0 5%N _ [0; 1; 2; 3; 4; 5; 6; 7; 8] [1]
                     _ _ _ _ _) eq_refl 1 eq_refl).
    + vm_compute. reflexivity.
    + eexists. eexists. split; [vm_compute; reflexivity|].
      split; [vm_compute; reflexivity|]. split; reflexivity.
    + vm_compute. reflexivity.
    + now left.
    + vm_compute. reflexivity.
Defined.

(* ================================================================== *)
(** * The solved-check *)
(* ================================================================== *)

(** The inner loop of [isSolved] on a unit whose squares are on the
    board: either every square has cardinality 1 and the loop ends with
    the start set plus their single members, or the loop returns false
    at a square of another cardinality. *)
Lemma unitDigits_spec (values : Values) (u : Unit) :
  (forall sq, In sq u -> exists ds, get values sq = Some ds) ->
  forall acc,
  (exists dset, unitDigits values u acc = Some (Some dset) /\
     (forall sq, In sq u ->
        exists ds, get values sq = Some ds /\ size ds = 1) /\
     (forall p, N.testbit dset p = true <->
        N.testbit acc p = true \/
        exists sq ds, In sq u /\ get values sq = Some ds /\
                      singleMemberDigit ds = Some p)) \/
  (unitDigits values u acc = Some None /\
   exists sq ds, In sq u /\ get values sq = Some ds /\ size ds <> 1).
Proof.
  induction u as [|q rest IH]; intros Hin acc; simpl.
  - left. exists acc. split; [reflexivity|]. split; [contradiction|].
    intros p. split; [auto|]. intros [H|[sq [ds [[] _]]]]. exact H.
  - destruct (Hin q (or_introl eq_refl)) as [ds Hds]. rewrite Hds.
    destruct (Z.eqb_spec (size ds) 1) as [Hs|Hs]; simpl.
    2:{ right. split; [reflexivity|]. exists q, ds. auto. }
    destruct (size_one_single ds Hs) as [m [Hm [Hmem Hu]]]. rewrite Hm.
    destruct (IH (fun sq H => Hin sq (or_intror H)) (add acc m))
      as [[dset [E [Hall Hbits]]]|[E [sq [d' [H1 [H2 H3]]]]]].
    + left. exists dset. split; [assumption|]. split.
      * intros sq [<-|Hsq]; eauto.
      * intros p. rewrite Hbits, testbit_add. split.
        -- intros [Hp|[sq [d' [H1 [H2 H3]]]]].
           ++ apply orb_true_iff in Hp as [Hp|Hp]; [now left|].
              apply andb_true_iff in Hp as [Hp _]. apply N.eqb_eq in Hp.
              subst p. right. exists q, ds. auto.
           ++ right. exists sq, d'. auto.
        -- intros [Hp|[sq [d' [[<-|H1] [H2 H3]]]]].
           ++ left. rewrite Hp. reflexivity.
           ++ left. assert (d' = ds) by congruence. subst d'.
              assert (p = m) by congruence. subst p.
              rewrite N.eqb_refl. simpl.
              apply isMember_lt16, N.ltb_lt in Hmem. rewrite Hmem.
              apply orb_true_r.
           ++ right. exists sq, d'. auto.
    + right. split; [assumption|]. exists sq, d'. auto.
Qed.

(** The check of one unit, as [isSolved] runs it from the empty set. *)
Lemma unitDigits_full (values : Values) (u : Unit) :
  (forall sq, In sq u -> exists ds, get values sq = Some ds) ->
  (unitDigits values u emptyDigitsSet = Some (Some fullDigitsSet) <->
   (forall sq, In sq u -> exists ds, get values sq = Some ds /\ size ds = 1) /\
   (forall k, (1 <= k <= 9)%N <->
      exists sq ds, In sq u /\ get values sq = Some ds /\
                    singleMemberDigit ds = Some k)) /\
  (exists r, unitDigits values u emptyDigitsSet = Some r).
Proof.
  intros Hin.
  destruct (unitDigits_spec values u Hin emptyDigitsSet)
    as [[dset [E [Hall Hbits]]]|[E [sq [ds [H1 [H2 H3]]]]]].
  - split; [|eauto]. rewrite E.
    assert (Hbits' : forall p, N.testbit dset p = true <->
      exists sq ds, In sq u /\ get values sq = Some ds /\
                    singleMemberDigit ds = Some p).
    { intros p. rewrite Hbits. unfold emptyDigitsSet. rewrite N.bits_0.
      split; [intros [H|H]; [discriminate|exact H]|auto]. }
    assert (Hrange : forall k, (1 <= k <= 9)%N <->
              N.testbit fullDigitsSet k = true).
    { intros k. rewrite testbit_fullDigitsSet, andb_true_iff.
      rewrite !N.leb_le. tauto. }
    split.
    + intros Hfull. inversion Hfull; subst dset. split; [assumption|].
      intros k. rewrite Hrange. apply Hbits'.
    + intros [_ Hk]. do 2 f_equal. apply N.bits_inj. intros p.
      apply eq_true_iff_eq. rewrite Hbits', <- Hrange. symmetry. apply Hk.
  - split; [|eauto]. rewrite E. split; [discriminate|].
    intros [Hall _]. destruct (Hall sq H1) as [d' [Hd' Hs]]. congruence.
Qed.

Section SolvedCheck.

Variable s : Sudoku.
Hypothesis topo : topologyInRange s = true.

Lemma isSolved_run (values : Values) (ul : list Unit) :
  length values = 81%nat ->
  (forall u, In u ul -> In u (unitlist s)) ->
  exists b,
    forAll (fun values unit =>
      match unitDigits values unit emptyDigitsSet with
      | None => Panic
      | Some None => Done false values
      | Some (Some dset) =>
          if negb (dset =? fullDigitsSet)%N then Done false values
          else Done true values
      end) ul values = Done b values /\
    (b = true <->
     forall u, In u ul ->
       unitDigits values u emptyDigitsSet = Some (Some fullDigitsSet)).
Proof.
  intros Hlen. induction ul as [|u rest IH]; intros Hul; simpl.
  - exists true. split; [reflexivity|]. split; [contradiction|reflexivity].
  - assert (Hin : forall sq, In sq u -> exists ds, get values sq = Some ds).
    { intros sq Hsq. apply get_in_range. rewrite Hlen.
      apply (topo_unitlist s topo u sq); auto. apply Hul. now left. }
    destruct (proj2 (unitDigits_full values u Hin)) as [r Hr]. rewrite Hr.
    destruct r as [dset|].
    + destruct (N.eqb_spec dset fullDigitsSet) as [->|Hne]; simpl.
      * destruct (IH (fun u' H => Hul u' (or_intror H))) as [b [E Hb]].
        exists b. split; [assumption|]. rewrite Hb. split.
        -- intros H u' [<-|Hu']; auto.
        -- intros H u' Hu'. apply H. now right.
      * exists false. split; [reflexivity|]. split; [discriminate|].
        intros H. specialize (H u (or_introl eq_refl)). congruence.
    + exists false. split; [reflexivity|]. split; [discriminate|].
      intros H. specialize (H u (or_introl eq_refl)). congruence.
Qed.

Lemma isSolved_spec (values : Values) :
  length values = 81%nat ->
  exists b, isSolved s values = Done b values /\
            (b = true <-> solvedSpec s values).
Proof.
  intros Hlen. destruct (isSolved_run values (unitlist s) Hlen (fun u H => H))
    as [b [E Hb]].
  exists b. split; [exact E|]. rewrite Hb. unfold solvedSpec.
  assert (Hin : forall u, In u (unitlist s) ->
            forall sq, In sq u -> exists ds, get values sq = Some ds).
  { intros u Hu sq Hsq. apply get_in_range. rewrite Hlen.
    apply (topo_unitlist s topo u sq); auto. }
  split.
  - intros H u Hu. apply (proj1 (unitDigits_full values u (Hin u Hu))).
    now apply H.
  - intros H u Hu. apply (proj1 (unitDigits_full values u (Hin u Hu))).
    now apply H.
Qed.

(** [isSolved] leaves the board as it found it. *)
Lemma isSolved_pure (values : Values) (b : bool) (values' : Values) :
  isSolved s values = Done b values' -> values' = values.
Proof.
  unfold isSolved. intros Hrun.
  refine (forAll_rule (fun v v' => v' = v) (fun v => eq_refl)
            (fun v1 v2 v3 H12 H23 => eq_trans H23 H12) (fun _ => True)
            _ (unitlist s) I _ values b values' Hrun I).
  intros v u b0 v' _ H _.
  destruct (unitDigits v u emptyDigitsSet) as [[dset|]|]; try discriminate.
  - destruct (negb (dset =? fullDigitsSet)%N); now inversion H.
  - now inversion H.
Qed.

End SolvedCheck.

(** C7. For a board of 81 squares, [isSolved] returns true exactly when
    in every one of the units each square has cardinality 1 and the
    single members of the squares of the unit are exactly the digits
    1-9; it returns false for the empty board and for a board with a
    square of two or more candidates; it returns a result and leaves the
    board unchanged. *)
Theorem isSolved_correct :
  isSolved New emptyBoard = Done false emptyBoard /\
  (forall values b values',
     isSolved New values = Done b values' -> values' = values) /\
  (forall values, length values = 81%nat ->
     (exists b, isSolved New values = Done b values) /\
     (isSolved New values = Done true values <-> solvedSpec New values) /\
     (forall sq ds, get values sq = Some ds -> 2 <= size ds ->
        isSolved New values = Done false values)).
Proof.
  split; [vm_compute; reflexivity|]. split.
  - intros values b values'. apply isSolved_pure.
  - intros values Hlen.
    destruct (isSolved_spec New New_topologyInRange values Hlen)
      as [b [E Hb]].
    split; [eauto|]. split.
    + rewrite E. split.
      * intros H. apply Hb. congruence.
      * intros H. apply Hb in H. now subst.
    + intros sq ds Hget Hsize. rewrite E. destruct b; [|reflexivity].
      exfalso. pose proof (proj1 Hb eq_refl) as Hspec.
      assert (Hsq : 0 <= sq < 81)
        by (apply get_Some_range in Hget; lia).
      destruct (squareTopologyOk_inv New sq (New_square_ok sq Hsq))
        as [us [ps [_ [_ [Hlen3 [_ [_ [_ [Hus _]]]]]]]]].
      destruct us as [|u us']; [discriminate|].
      destruct (Hus u (or_introl eq_refl)) as [Hin Hul].
      destruct (proj1 (Hspec u Hul) sq Hin) as [d' [Hd' Hs]].
      assert (d' = ds) by congruence. subst. lia.
Qed.

Lemma isSolved_correct_witness :
  (exists b, isSolved New emptyBoard = Done b emptyBoard) /\
  (isSolved New emptyBoard = Done true emptyBoard <->
   solvedSpec New emptyBoard) /\
  (forall sq ds, get emptyBoard sq = Some ds -> 2 <= size ds ->
     isSolved New emptyBoard = Done false emptyBoard).
Proof.
  apply (proj2 (proj2 isSolved_correct) emptyBoard). reflexivity.
Defined.

(* ================================================================== *)
(** * The parser *)
(* ================================================================== *)

Lemma keptRune_digit (r : Z) :
  isDigitRune r = true -> keptRune r = true /\ tokenOf r = digitOfRune r.
Proof.
  unfold isDigitRune, keptRune, tokenOf, digitOfRune.
  intros [H1 H2]%andb_true_iff. apply Z.geb_le in H1. apply Z.leb_le in H2.
  destruct (Z.leb_spec 48 r), (Z.leb_spec r 57), (Z.eqb_spec r 46);
    try lia. split; [reflexivity|].
  rewrite (Z.mod_small r) by lia. rewrite Z.mod_small by lia. reflexivity.
Qed.

Lemma keptRune_dot (r : Z) :
  isDigitRune r = false -> isDotRune r = true ->
  keptRune r = true /\ tokenOf r = 0%N.
Proof.
  unfold isDotRune, keptRune, tokenOf. intros _ H. rewrite H.
  split; [apply orb_true_r|reflexivity].
Qed.

Lemma keptRune_other (r : Z) :
  isDigitRune r = false -> isDotRune r = false -> keptRune r = false.
Proof.
  unfold isDigitRune, isDotRune, keptRune. intros H1 H2. rewrite H2.
  rewrite orb_false_r. apply andb_false_iff in H1.
  apply andb_false_iff. destruct H1 as [H1|H1].
  - left. destruct (Z.geb_spec r 48); [discriminate|]. apply Z.leb_gt. lia.
  - now right.
Qed.

Lemma scanRunes_filter (runes : list Z) (dgs : list N) :
  scanRunes runes dgs = dgs ++ map tokenOf (filter keptRune runes).
Proof.
  revert dgs. induction runes as [|r rest IH]; intros dgs; simpl.
  - now rewrite app_nil_r.
  - destruct (isDigitRune r) eqn:Hd.
    + destruct (keptRune_digit r Hd) as [Hk Ht]. rewrite Hk. simpl.
      rewrite Ht, IH, <- app_assoc. reflexivity.
    + destruct (isDotRune r) eqn:Hdot.
      * destruct (keptRune_dot r Hd Hdot) as [Hk Ht]. rewrite Hk. simpl.
        rewrite Ht, IH, <- app_assoc. reflexivity.
      * rewrite (keptRune_other r Hd Hdot). apply IH.
Qed.

Section ParserFacts.

Variable s : Sudoku.
Hypothesis topo : topologyInRange s = true.

Lemma assign_total (v : Values) (sq : Index) (d : N) :
  length v = 81%nat -> 0 <= sq < 81 ->
  exists b v', assign s v sq d = Done b v' /\ length v' = 81%nat.
Proof.
  intros Hlen Hsq.
  assert (Hs : sized (S (candidates v)) v) by (split; [auto|lia]).
  destruct (assignWith_total s _ (eliminateFuel_total s topo _)
              v sq d Hs Hsq) as [b [v' [E [Hl _]]]].
  eauto.
Qed.

Lemma Assigned_assignAll (dgs : list N) (sq : Index) (v v' : Values) :
  Assigned s dgs sq v v' -> assignAll s dgs sq v = Done None v'.
Proof.
  induction 1 as [sq v|rest sq v v' _ IH|d rest sq v v1 v' Hd Ha _ IH];
    simpl.
  - reflexivity.
  - exact IH.
  - apply N.eqb_neq in Hd. rewrite Hd, Ha. exact IH.
Qed.

Lemma assignAll_Assigned (dgs : list N) (sq : Index) (v v' : Values) :
  assignAll s dgs sq v = Done None v' -> Assigned s dgs sq v v'.
Proof.
  revert sq v. induction dgs as [|d rest IH]; intros sq v H; simpl in H.
  - inversion H; subst. constructor.
  - destruct (N.eqb_spec d 0) as [->|Hd]; simpl in H.
    + constructor. now apply IH.
    + destruct (assign s v sq d) as [[|] v1| |] eqn:Ha; try discriminate.
      eapply Assigned_digit; eauto.
Qed.

Lemma failing_assignAll (pre : list N) (d : N) (post : list N)
    (sq : Index) (v w w' : Values) :
  Assigned s pre sq v w -> d <> 0%N ->
  assign s w (sq + Z.of_nat (length pre)) d = Done false w' ->
  assignAll s (pre ++ d :: post) sq v =
    Done (Some (ContradictionError d (sq + Z.of_nat (length pre)))) [].
Proof.
  intros H Hd. revert w'.
  induction H as [sq v|rest sq v v' _ IH|e rest sq v v1 v' He Ha _ IH];
    intros w' Hfail; simpl.
  - simpl in Hfail. rewrite Z.add_0_r in *. apply N.eqb_neq in Hd.
    rewrite Hd, Hfail. reflexivity.
  - rewrite (IH w'); [do 3 f_equal; simpl length; lia|].
    rewrite <- Hfail. f_equal. simpl length. lia.
  - apply N.eqb_neq in He. rewrite He, Ha. simpl.
    rewrite (IH w'); [do 3 f_equal; simpl length; lia|].
    rewrite <- Hfail. f_equal. simpl length. lia.
Qed.

Lemma assignAll_failing (dgs : list N) (sq : Index) (v : Values)
    (e : parseError) (vals : Values) :
  assignAll s dgs sq v = Done (Some e) vals ->
  vals = [] /\
  exists pre d post w w',
    dgs = pre ++ d :: post /\ d <> 0%N /\ Assigned s pre sq v w /\
    assign s w (sq + Z.of_nat (length pre)) d = Done false w' /\
    e = ContradictionError d (sq + Z.of_nat (length pre)).
Proof.
  revert sq v. induction dgs as [|d rest IH]; intros sq v H; simpl in H;
    [discriminate|].
  destruct (N.eqb_spec d 0) as [->|Hd]; simpl in H.
  - destruct (IH _ _ H) as [Hv [pre [d [post [w [w' [E [Hd [Ha [Hf He]]]]]]]]]].
    split; [assumption|]. exists (0%N :: pre), d, post, w, w'.
    split; [simpl; congruence|]. split; [assumption|].
    split; [now constructor|].
    replace (sq + Z.of_nat (length (0%N :: pre)))
      with (sq + 1 + Z.of_nat (length pre)) by (simpl length; lia). auto.
  - destruct (assign s v sq d) as [[|] v1| |] eqn:Ha; try discriminate.
    + destruct (IH _ _ H)
        as [Hv [pre [d' [post [w [w' [E [Hd' [Hpre [Hf He]]]]]]]]]].
      split; [assumption|]. exists (d :: pre), d', post, w, w'.
      split; [simpl; congruence|]. split; [assumption|].
      split; [eapply Assigned_digit; eauto|].
      replace (sq + Z.of_nat (length (d :: pre)))
        with (sq + 1 + Z.of_nat (length pre)) by (simpl length; lia). auto.
    + inversion H; subst. split; [reflexivity|].
      exists [], d, rest, v, v1. simpl. rewrite Z.add_0_r.
      repeat split; auto. constructor.
Qed.

Lemma assignAll_total (dgs : list N) (sq : Index) (v : Values) :
  length v = 81%nat -> 0 <= sq -> sq + Z.of_nat (length dgs) <= 81 ->
  exists r vals, assignAll s dgs sq v = Done r vals.
Proof.
  revert sq v. induction dgs as [|d rest IH]; intros sq v Hlen H0 H81;
    simpl; [eauto|].
  simpl length in H81.
  destruct (negb (d =? 0)%N).
  - destruct (assign_total v sq d Hlen) as [b [v1 [E Hl1]]]; [lia|].
    rewrite E. destruct b; [|eauto]. apply IH; auto; lia.
  - apply IH; auto; lia.
Qed.

End ParserFacts.

(** C8. The parser keeps exactly the runes that are ASCII digits or
    ['.'] (in order, ['0'] and ['.'] both giving the token 0) and
    discards every other rune.  It always returns; it returns an error,
    and then no board, exactly when the count of kept runes differs
    from 81 or when, the earlier non-zero tokens having been assigned
    with success, [assign] of some non-zero token to its square reports
    failure.  The error of the first case is the format error with the
    count, the error of the second names the digit and the square; a
    board is returned exactly when there are 81 tokens and every
    assignment succeeded. *)
Theorem parseBoard_errors (runes : list Z) :
  scanRunes runes [] = map tokenOf (filter keptRune runes) /\
  (exists r vals, parseBoard New runes = Done r vals) /\
  (forall e vals, parseBoard New runes = Done (Some e) vals -> vals = []) /\
  ((exists e vals, parseBoard New runes = Done (Some e) vals) <->
   length (filter keptRune runes) <> 81%nat \/
   someAssignFails New (map tokenOf (filter keptRune runes))) /\
  (length (filter keptRune runes) <> 81%nat ->
   parseBoard New runes =
     Done (Some (FormatError (Z.of_nat (length (filter keptRune runes)))))
          []) /\
  (forall d sq vals,
     parseBoard New runes = Done (Some (ContradictionError d sq)) vals ->
     exists pre post w w',
       map tokenOf (filter keptRune runes) = pre ++ d :: post /\
       sq = Z.of_nat (length pre) /\ d <> 0%N /\
       Assigned New pre 0 emptyBoard w /\
       assign New w sq d = Done false w') /\
  (forall values,
     parseBoard New runes = Done None values <->
     length (filter keptRune runes) = 81%nat /\
     Assigned New (map tokenOf (filter keptRune runes)) 0 emptyBoard values).
Proof.
  pose proof (scanRunes_filter runes []) as Hscan. simpl in Hscan.
  split; [exact Hscan|]. unfold parseBoard. rewrite Hscan.
  set (dgs := map tokenOf (filter keptRune runes)).
  assert (Hlen : length dgs = length (filter keptRune runes))
    by apply length_map.
  rewrite <- Hlen.
  destruct (Z.eqb_spec (Z.of_nat (length dgs)) 81) as [H81|H81]; simpl.
  - assert (Htot : exists r vals, assignAll New dgs 0 emptyBoard = Done r vals).
    { apply (assignAll_total New New_topologyInRange); [reflexivity|lia|lia]. }
    split; [exact Htot|]. split; [|split; [|split; [|split]]].
    + intros e vals H. now destruct (assignAll_failing New _ _ _ _ _ H).
    + split.
      * intros [e [vals H]]. right.
        destruct (assignAll_failing New _ _ _ _ _ H)
          as [_ [pre [d [post [w [w' [E [Hd [Ha [Hf _]]]]]]]]]].
        exists pre, d, post, w, w'. auto.
      * intros [Hne|[pre [d [post [w [w' [E [Hd [Ha Hf]]]]]]]]]; [lia|].
        rewrite E. eexists. eexists.
        apply (failing_assignAll New pre d post 0 emptyBoard w w'); auto.
    + intros Hne. lia.
    + intros d sq vals H.
      destruct (assignAll_failing New _ _ _ _ _ H)
        as [_ [pre [d' [post [w [w' [E [Hd [Ha [Hf He]]]]]]]]]].
      inversion He; subst d' sq. exists pre, post, w, w'. auto.
    + intros values. split.
      * intros H. split; [lia|]. now apply assignAll_Assigned.
      * intros [_ H]. now apply Assigned_assignAll.
  - split; [eauto|]. split; [|split; [|split; [|split]]].
    + intros e vals H. now inversion H.
    + split; [intros _; left; lia|eauto].
    + intros _. reflexivity.
    + intros d sq vals H. discriminate.
    + intros values. split; [discriminate|]. intros [H _]. lia.
Qed.

Lemma parseBoard_errors_witness :
  exists e vals, parseBoard New (runesOf "12345") = Done (Some e) vals.
Proof.
  apply (proj2 (proj1 (proj2 (proj2 (proj2
           (parseBoard_errors (runesOf "12345"))))))).
  left. vm_compute. discriminate.
Defined.

(* ================================================================== *)
(** * Search: the choice of the square *)
(* ================================================================== *)

Lemma get_nth_error {A : Type} (l : list A) (i : nat) :
  get l (Z.of_nat i) = nth_error l i.
Proof.
  unfold get. destruct (Z.ltb_spec (Z.of_nat i) 0); [lia|].
  now rewrite Nat2Z.id.
Qed.

(** The scan from index [sq] with loop variables [cur], [lim]: either it
    keeps [cur], no square ahead having a cardinality above 1 and below
    [lim]; or it picks a square ahead, of cardinality above 1 and below
    [lim], smallest among the squares ahead of cardinality above 1, and
    strictly smaller than those before it. *)
Lemma selectFrom_spec (rest : list Digits) :
  forall sq cur lim,
  (selectFrom rest sq cur lim = cur /\
   forall i d, nth_error rest i = Some d -> ~ (1 < size d < lim)) \/
  (exists i d, selectFrom rest sq cur lim = sq + Z.of_nat i /\
     nth_error rest i = Some d /\ 1 < size d < lim /\
     (forall j d', nth_error rest j = Some d' -> 1 < size d' ->
        lim <= size d' \/ size d <= size d') /\
     (forall j d', nth_error rest j = Some d' -> (j < i)%nat ->
        1 < size d' -> lim <= size d' \/ size d < size d')).
Proof.
  induction rest as [|d0 rest IH]; intros sq cur lim; simpl.
  - left. split; [reflexivity|]. intros [|i] d H; discriminate.
  - destruct (Z.gtb_spec (size d0) 1) as [H1|H1];
      [destruct (Z.ltb_spec (size d0) lim) as [H2|H2]|]; simpl.
    + right. destruct (IH (sq + 1) sq (size d0))
        as [[E Hnone]|[i [d [E [Hn [Hr [Hmin Hfirst]]]]]]].
      * exists O, d0. rewrite E. split; [lia|]. split; [reflexivity|].
        split; [lia|]. split.
        -- intros [|j] d' Hj Hd'; simpl in Hj.
           ++ inversion Hj; subst. lia.
           ++ specialize (Hnone j d' Hj). lia.
        -- intros j d' _ Hlt. lia.
      * exists (S i), d. rewrite E. split; [lia|]. split; [exact Hn|].
        split; [lia|]. split.
        -- intros [|j] d' Hj Hd'; simpl in Hj.
           ++ inversion Hj; subst. lia.
           ++ destruct (Hmin j d' Hj Hd'); lia.
        -- intros [|j] d' Hj Hlt Hd'; simpl in Hj.
           ++ inversion Hj; subst. lia.
           ++ destruct (Hfirst j d' Hj ltac:(lia) Hd'); lia.
    + destruct (IH (sq + 1) cur lim)
        as [[E Hnone]|[i [d [E [Hn [Hr [Hmin Hfirst]]]]]]].
      * left. split; [exact E|]. intros [|j] d' Hj; simpl in Hj.
        -- inversion Hj; subst. lia.
        -- now apply (Hnone j).
      * right. exists (S i), d. rewrite E. split; [lia|].
        split; [exact Hn|]. split; [lia|]. split.
        -- intros [|j] d' Hj Hd'; simpl in Hj.
           ++ inversion Hj; subst. lia.
           ++ now apply (Hmin j).
        -- intros [|j] d' Hj Hlt Hd'; simpl in Hj.
           ++ inversion Hj; subst. lia.
           ++ apply (Hfirst j d' Hj); [lia|assumption].
    + destruct (IH (sq + 1) cur lim)
        as [[E Hnone]|[i [d [E [Hn [Hr [Hmin Hfirst]]]]]]].
      * left. split; [exact E|]. intros [|j] d' Hj; simpl in Hj.
        -- inversion Hj; subst. lia.
        -- now apply (Hnone j).
      * right. exists (S i), d. rewrite E. split; [lia|].
        split; [exact Hn|]. split; [lia|]. split.
        -- intros [|j] d' Hj Hd'; simpl in Hj.
           ++ inversion Hj; subst. lia.
           ++ now apply (Hmin j).
        -- intros [|j] d' Hj Hlt Hd'; simpl in Hj.
           ++ inversion Hj; subst. lia.
           ++ apply (Hfirst j d' Hj); [lia|assumption].
Qed.

Lemma get_nat {A : Type} (l : list A) (q : Z) (x : A) :
  get l q = Some x -> exists i, q = Z.of_nat i /\ nth_error l i = Some x.
Proof.
  intros H. pose proof (get_Some_range _ _ _ H) as Hr.
  exists (Z.to_nat q). split; [lia|]. unfold get in H.
  destruct (Z.ltb_spec q 0); [lia|exact H].
Qed.

(** What [selectSquare] returns. *)
Lemma selectSquare_spec (values : Values) :
  (selectSquare values = -1 /\
   forall sq ds, get values sq = Some ds -> ~ (1 < size ds < 9)) \/
  (exists ds, get values (selectSquare values) = Some ds /\
     1 < size ds < 9 /\
     (forall sq' ds', get values sq' = Some ds' -> 1 < size ds' ->
        size ds <= size ds') /\
     (forall sq' ds', get values sq' = Some ds' -> size ds' = size ds ->
        selectSquare values <= sq')).
Proof.
  unfold selectSquare.
  destruct (selectFrom_spec values 0 (-1) 9)
    as [[E Hnone]|[i [d [E [Hn [Hr [Hmin Hfirst]]]]]]].
  - left. split; [exact E|]. intros sq ds Hg.
    destruct (get_nat _ _ _ Hg) as [j [-> Hj]]. now apply (Hnone j).
  - right. exists d. rewrite E. simpl. rewrite get_nth_error.
    split; [exact Hn|]. split; [exact Hr|]. split.
    + intros sq' ds' Hg Hd'. destruct (get_nat _ _ _ Hg) as [j [-> Hj]].
      destruct (Hmin j ds' Hj Hd'); lia.
    + intros sq' ds' Hg Hsz. destruct (get_nat _ _ _ Hg) as [j [-> Hj]].
      destruct (Nat.lt_ge_cases j i) as [Hlt|Hge]; [|lia].
      destruct (Hfirst j ds' Hj Hlt); lia.
Qed.

Lemma selectSquare_nonneg (values : Values) :
  selectSquare values <> -1 -> 0 <= selectSquare values.
Proof.
  intros Hne. destruct (selectSquare_spec values) as [[E _]|[ds [Hg _]]];
    [contradiction|].
  apply get_Some_range in Hg. lia.
Qed.

Section SearchFacts.

Variable s : Sudoku.

Lemma tryDigits_true (recur : Values -> outcome bool) (values : Values)
    (sq : Index) (ds : list N) (vresult : Values) :
  tryDigits s recur values sq ds = Done true vresult ->
  exists d vcopy',
    assign s values sq d = Done true vcopy' /\
    recur vcopy' = Done true vresult.
Proof.
  induction ds as [|d rest IH]; simpl; [discriminate|].
  destruct (get values sq) as [cand|]; [|discriminate].
  destruct (isMember cand d); [|exact IH].
  destruct (assign s values sq d) as [[|] vcopy'| |] eqn:Ha;
    try discriminate; [|exact IH].
  destruct (recur vcopy') as [[|] vr| |] eqn:Hr; try discriminate;
    [|exact IH].
  intros H. inversion H; subst. eauto.
Qed.

Lemma searchFuel_S (fuel : nat) (values : Values) :
  searchFuel s (S fuel) values =
  if selectSquare values =? -1 then Done true values
  else tryDigits s (searchFuel s fuel) values (selectSquare values) digits19.
Proof. reflexivity. Qed.

(** A board returned by a successful search narrows the board given. *)
Lemma searchFuel_narrows (fuel : nat) :
  forall values vresult,
  searchFuel s fuel values = Done true vresult -> narrows values vresult.
Proof.
  induction fuel as [|fuel IH]; intros values vresult H; [discriminate|].
  rewrite searchFuel_S in H. destruct (selectSquare values =? -1).
  - inversion H; subst. apply narrows_refl.
  - apply tryDigits_true in H as [d [vcopy' [Ha Hr]]].
    apply narrows_trans with vcopy'; [|now apply IH].
    eapply assignFuel_narrows; exact Ha.
Qed.

(** A search that returns its own input with success did so at once. *)
Lemma searchFuel_unchanged (fuel : nat) (values : Values) :
  wfBoard values ->
  searchFuel s fuel values = Done true values -> selectSquare values = -1.
Proof.
  intros Hwf H. destruct fuel as [|fuel]; [discriminate|].
  rewrite searchFuel_S in H.
  destruct (Z.eqb_spec (selectSquare values) (-1)) as [E|Hne];
    [exact E|exfalso].
  apply tryDigits_true in H as [d [vcopy' [Ha Hr]]].
  destruct (selectSquare_spec values) as [[E _]|[ds [Hg [Hsz _]]]];
    [contradiction|].
  destruct (assignFuel_forces s _ _ _ _ _ ds Hwf Hg ltac:(lia) Ha)
    as [ds' [Hg' [Hs' _]]].
  apply searchFuel_narrows in Hr.
  destruct (narrows_get_after _ _ _ _ Hr Hg) as [d1 [Hg1 Hsub]].
  assert (d1 = ds') by congruence. subst d1.
  apply subDigits_size in Hsub. lia.
Qed.

Lemma searchFuel_terminal (fuel : nat) (values : Values) :
  selectSquare values = -1 ->
  searchFuel s (S fuel) values = Done true values.
Proof. intros E. rewrite searchFuel_S, E. reflexivity. Qed.

End SearchFacts.

(** C2, counterexample.  On the board whose square 0 is empty and whose
    other squares hold digit 1 alone, no square has a cardinality above
    1 and the search returns the board with success, yet square 0 does
    not have cardinality 1. *)
Lemma search_terminal_fails : ~ searchTerminalClaim New emptySquareBoard.
Proof.
  intros [Hiff Hall].
  assert (Hsmall : forall sq ds,
            get emptySquareBoard sq = Some ds -> ~ 1 < size ds).
  { now apply Hiff. }
  specialize (Hall Hsmall 0 emptyDigitsSet eq_refl). discriminate.
Qed.

(** C2 (amended). On a board of digits 1-9 in which no square has all
    nine candidates: the search reports success and returns its input
    board unchanged exactly when no square has a cardinality above 1,
    and in that case, provided no square is empty, every square has
    cardinality exactly 1.  On any board, the square the search selects
    for trial assignment has a cardinality above 1, the smallest such
    cardinality on the board, and the first index among the squares of
    that cardinality. *)
Theorem search_terminal_and_selection (values : Values) :
  (wfBoard values ->
   (forall sq ds, get values sq = Some ds -> size ds <> 9) ->
   (search New values = Done true values <->
    forall sq ds, get values sq = Some ds -> ~ 1 < size ds) /\
   ((forall sq ds, get values sq = Some ds -> size ds <> 0) ->
    (forall sq ds, get values sq = Some ds -> ~ 1 < size ds) ->
    forall sq ds, get values sq = Some ds -> size ds = 1)) /\
  (selectSquare values <> -1 ->
   exists ds, get values (selectSquare values) = Some ds /\
     1 < size ds /\
     (forall sq' ds', get values sq' = Some ds' -> 1 < size ds' ->
        size ds <= size ds') /\
     (forall sq' ds', get values sq' = Some ds' -> size ds' = size ds ->
        selectSquare values <= sq')).
Proof.
  split.
  - intros Hwf Hnot9. split.
    + split.
      * intros H. apply searchFuel_unchanged in H; [|assumption].
        destruct (selectSquare_spec values) as [[_ Hnone]|[ds [Hg [Hsz _]]]].
        -- intros sq ds Hg Hgt. pose proof (Hnone sq ds Hg).
           pose proof (wfDigits_size_le ds (wfBoard_get _ _ _ Hwf Hg)).
           specialize (Hnot9 sq ds Hg). lia.
        -- apply get_Some_range in Hg. lia.
      * intros Hsmall. apply searchFuel_terminal.
        destruct (selectSquare_spec values) as [[E _]|[ds [Hg [Hsz _]]]];
          [exact E|].
        specialize (Hsmall _ _ Hg). lia.
    + intros Hne Hsmall sq ds Hg. specialize (Hne sq ds Hg).
      specialize (Hsmall sq ds Hg). pose proof (size_nonneg ds). lia.
  - intros Hsel.
    destruct (selectSquare_spec values) as [[E _]|[ds [Hg [Hsz [Hmin Hfirst]]]]];
      [contradiction|].
    exists ds. split; [exact Hg|]. split; [lia|]. auto.
Qed.

Lemma search_terminal_and_selection_witness :
  ((search New pickBoard = Done true pickBoard <->
    forall sq ds, get pickBoard sq = Some ds -> ~ 1 < size ds) /\
   ((forall sq ds, get pickBoard sq = Some ds -> size ds <> 0) ->
    (forall sq ds, get pickBoard sq = Some ds -> ~ 1 < size ds) ->
    forall sq ds, get pickBoard sq = Some ds -> size ds = 1)) /\
  exists ds, get pickBoard 40 = Some ds /\ 1 < size ds /\
    (forall sq' ds', get pickBoard sq' = Some ds' -> 1 < size ds' ->
       size ds <= size ds') /\
    (forall sq' ds', get pickBoard sq' = Some ds' -> size ds' = size ds ->
       40 <= sq').
Proof.
  destruct (search_terminal_and_selection pickBoard) as [H1 H2]. split.
  - apply H1.
    + apply wfBoardb_wfBoard. vm_compute. reflexivity.
    + assert (Hb : forallb (fun d => negb (size d =? 9)) pickBoard = true)
        by (vm_compute; reflexivity).
      rewrite forallb_forall in Hb. intros sq ds Hg.
      specialize (Hb ds (get_In _ _ _ Hg)).
      now apply negb_true_iff, Z.eqb_neq in Hb.
  - apply H2. vm_compute. discriminate.
Defined.

(** C3 (the code at the empty board). [search] on the empty board stops
    at once: no square has between 2 and 8 candidates, so no square is
    selected, and the empty board itself is returned with success; the
    solved-check rejects the board returned.  The same happens on every
    board without a square of 2 to 8 candidates: squares with all nine
    candidates are never selected. *)
Theorem search_emptyBoard_unsolved :
  selectSquare emptyBoard = -1 /\
  search New emptyBoard = Done true emptyBoard /\
  isSolved New emptyBoard = Done false emptyBoard /\
  (forall values,
     (forall sq ds, get values sq = Some ds -> ~ (1 < size ds < 9)) ->
     search New values = Done true values).
Proof.
  split; [vm_compute; reflexivity|].
  split; [vm_compute; reflexivity|].
  split; [vm_compute; reflexivity|].
  intros values Hnone. apply searchFuel_terminal.
  destruct (selectSquare_spec values) as [[E _]|[ds [Hg [Hsz _]]]];
    [exact E|].
  destruct (Hnone _ _ Hg Hsz).
Qed.

(* ================================================================== *)
(** * The search returns on well-formed boards *)
(* ================================================================== *)

Lemma candidates_lt (v v' : Values) (q : Index) (d d' : Digits) :
  narrows v v' -> get v q = Some d -> get v' q = Some d' ->
  size d' < size d -> (candidates v' < candidates v)%nat.
Proof.
  unfold narrows, get. destruct (q <? 0); [discriminate|].
  generalize (Z.to_nat q) as n. intros n H. revert n.
  induction H as [|a b l l' Hab Hrest IH]; intros [|n] Hg Hg' Hlt;
    simpl in *; try discriminate.
  - inversion Hg; inversion Hg'; subst.
    assert (Hc : (candidates l <= candidates l')%nat)
      by (now apply narrows_candidates).
    unfold size in Hlt. lia.
  - specialize (IH n Hg Hg' Hlt). apply subDigits_onesCount16 in Hab. lia.
Qed.

Section SearchTotal.

Variable s : Sudoku.
Hypothesis topo : topologyInRange s = true.

Lemma tryDigits_total (recur : Values -> outcome bool) (values : Values)
    (sq : Index) (cand : Digits) (ds : list N) :
  length values = 81%nat -> get values sq = Some cand ->
  (forall d vcopy', assign s values sq d = Done true vcopy' ->
     exists b v', recur vcopy' = Done b v') ->
  exists b v', tryDigits s recur values sq ds = Done b v'.
Proof.
  intros Hlen Hget Hrec. induction ds as [|d rest IH]; simpl; [eauto|].
  rewrite Hget. destruct (isMember cand d); [|exact IH].
  destruct (assign_total s topo values sq d Hlen) as [b [v1 [E _]]].
  { apply get_Some_range in Hget. lia. }
  rewrite E. destruct b; [|exact IH].
  destruct (Hrec d v1 E) as [b [v' E']]. rewrite E'.
  destruct b; [eauto|exact IH].
Qed.

Lemma searchFuel_total (fuel : nat) :
  forall values, wfBoard values -> length values = 81%nat ->
  (candidates values < fuel)%nat ->
  exists b v', searchFuel s fuel values = Done b v'.
Proof.
  induction fuel as [|fuel IH]; intros values Hwf Hlen Hc; [lia|].
  rewrite searchFuel_S.
  destruct (Z.eqb_spec (selectSquare values) (-1)) as [E|Hne]; [eauto|].
  destruct (selectSquare_spec values) as [[E _]|[ds [Hg [Hsz _]]]];
    [contradiction|].
  apply (tryDigits_total _ values _ ds); auto.
  intros d vcopy' Ha.
  pose proof (assignFuel_narrows s _ _ _ _ _ _ Ha) as Hn.
  destruct (assignFuel_forces s _ _ _ _ _ ds Hwf Hg ltac:(lia) Ha)
    as [ds' [Hg' [Hs' _]]].
  apply IH.
  - now apply (narrows_wfBoard values).
  - now rewrite (narrows_length _ _ Hn).
  - pose proof (candidates_lt values vcopy' _ ds ds' Hn Hg Hg' ltac:(lia)).
    lia.
Qed.

(** On a board of 81 squares holding digits 1-9, [search] returns. *)
Lemma search_total (values : Values) :
  wfBoard values -> length values = 81%nat ->
  exists b v', search s values = Done b v'.
Proof. intros Hwf Hlen. apply searchFuel_total; auto. Qed.

End SearchTotal.

(* ================================================================== *)
(** * Scenarios of the test suite, run on the embedding *)
(* ================================================================== *)

(** [TestInit]: the units and the peers of square 20. *)
Example units_peers_of_20 :
  get (units New) 20 =
    Some [[18; 19; 20; 21; 22; 23; 24; 25; 26];
          [2; 11; 20; 29; 38; 47; 56; 65; 74];
          [0; 1; 2; 9; 10; 11; 18; 19; 20]] /\
  forall j, isPeer New 20 j <->
    In j [0; 1; 2; 9; 10; 11; 18; 19; 21; 22; 23; 24; 25; 26; 29; 38; 47;
          56; 65; 74].
Proof.
  split; [vm_compute; reflexivity|]. intros j. unfold isPeer.
  change (get (peers New) 20) with
    (Some [18; 19; 21; 22; 23; 24; 25; 26; 2; 11; 29; 38; 47; 56; 65; 74;
           0; 1; 9; 10]).
  split.
  - intros [ps [E H]]. inversion E; subst ps. simpl in *. intuition auto.
  - intros H. eexists. split; [reflexivity|]. simpl in *. intuition auto.
Qed.

(** [TestAssignElimination]: assigning 5 to square 20 of the empty board
    leaves 5 alone in square 20, removes it from the peers of 20 and
    from no other square. *)
Example assign_20_5 :
  match assign New emptyBoard 20 5 with
  | Done true values' =>
      forallb (fun sq =>
        match get values' sq with
        | Some ds =>
            if sq =? 20 then (size ds =? 1) && isMember ds 5
            else Bool.eqb (isMember ds 5) (negb (isPeerb New 20 sq))
        | None => false
        end) (upto 81)
  | _ => false
  end = true.
Proof. vm_compute. reflexivity. Qed.

(** [TestParseBoard] and the easy-board scenario: the easy board is
    solved by the propagation of the parser alone, and the search has
    nothing to select on it. *)
Example parse_easyboard1 :
  match parseBoard New (runesOf easyboard1) with
  | Done None values =>
      match isSolved New values with
      | Done true _ => selectSquare values =? -1
      | _ => false
      end
  | _ => false
  end = true.
Proof. vm_compute. reflexivity. Qed.

(** [TestParseBoard], [TestSolveBoard] and the hard-board scenario:
    after the parse 20 squares are settled and the board is not solved;
    the search solves it. *)
Example parse_solve_hardboard1 :
  match parseBoard New (runesOf hardboard1) with
  | Done None values =>
      (length (filter (fun d => (size d =? 1)%Z) values) =? 20)%nat &&
      match isSolved New values, search New values with
      | Done false _, Done true vresult =>
          match isSolved New vresult with
          | Done true _ => true
          | _ => false
          end
      | _, _ => false
      end
  | _ => false
  end = true.
Proof. vm_compute. reflexivity. Qed.

(** A text without 81 tokens is a format error; two equal digits in a
    row are a contradiction. *)
Example parse_errors :
  parseBoard New (runesOf "12345") = Done (Some (FormatError 5)) [] /\
  parseBoard New (runesOf contradictoryBoard) =
    Done (Some (ContradictionError 5 1)) [].
Proof. split; vm_compute; reflexivity. Qed.

(* ================================================================== *)
(** * Further properties: the geometry of the topology *)
(* ================================================================== *)

Lemma unitIs_inv (u : Unit) (rel : Index -> bool) :
  unitIs u rel = true ->
  length u = 9%nat /\ NoDup u /\
  forall j, In j u <-> 0 <= j < 81 /\ rel j = true.
Proof.
  unfold unitIs. intros H.
  apply andb_true_iff in H as [H Hrel].
  apply andb_true_iff in H as [H Hrange].
  apply andb_true_iff in H as [Hlen Hnd].
  apply Nat.eqb_eq in Hlen. rewrite forallb_forall in Hrel, Hrange.
  split; [assumption|]. split; [now apply nodupZ_NoDup|].
  intros j. split.
  - intros Hj. assert (Hr : 0 <= j < 81) by (apply inRange_spec; auto).
    split; [assumption|].
    specialize (Hrel j (proj2 (In_upto 81 j) Hr)).
    apply Bool.eqb_prop in Hrel. rewrite <- Hrel. now apply memZ_In.
  - intros [Hr Hj]. specialize (Hrel j (proj2 (In_upto 81 j) Hr)).
    apply Bool.eqb_prop in Hrel. apply memZ_In. congruence.
Qed.

(** X1. The units [New] lists for a square of 0-80 are three, in the
    order row, column, block: each has 9 distinct squares, and they are
    the squares of the board with the same [i / 9], with the same
    [i mod 9], and with the same [i / 27] and [(i mod 9) / 3]. *)
Theorem New_units_of_square (i : Index) :
  0 <= i < 81 ->
  exists row col block,
    get (units New) i = Some [row; col; block] /\
    (length row = 9%nat /\ NoDup row /\
     forall j, In j row <-> 0 <= j < 81 /\ j / 9 = i / 9) /\
    (length col = 9%nat /\ NoDup col /\
     forall j, In j col <-> 0 <= j < 81 /\ j mod 9 = i mod 9) /\
    (length block = 9%nat /\ NoDup block /\
     forall j, In j block <->
       0 <= j < 81 /\ j / 27 = i / 27 /\ (j mod 9) / 3 = (i mod 9) / 3).
Proof.
  intros Hi.
  assert (Hall : forallb (squareUnitsOk New) (upto 81) = true)
    by (vm_compute; reflexivity).
  rewrite forallb_forall in Hall.
  specialize (Hall i (proj2 (In_upto 81 i) Hi)). unfold squareUnitsOk in Hall.
  destruct (get (units New) i) as [[|row [|col [|block [|x l]]]]|];
    try discriminate.
  apply andb_true_iff in Hall as [Hall Hblock].
  apply andb_true_iff in Hall as [Hrow Hcol].
  apply unitIs_inv in Hrow as [R1 [R2 R3]].
  apply unitIs_inv in Hcol as [C1 [C2 C3]].
  apply unitIs_inv in Hblock as [B1 [B2 B3]].
  exists row, col, block. split; [reflexivity|]. split; [|split].
  - split; [assumption|]. split; [assumption|]. intros j. rewrite R3.
    unfold sameRow. now rewrite Z.eqb_eq.
  - split; [assumption|]. split; [assumption|]. intros j. rewrite C3.
    unfold sameCol. now rewrite Z.eqb_eq.
  - split; [assumption|]. split; [assumption|]. intros j. rewrite B3.
    unfold sameBlock. rewrite andb_true_iff, !Z.eqb_eq. tauto.
Qed.

Lemma New_units_of_square_witness :
  exists row col block,
    get (units New) 40 = Some [row; col; block] /\
    (length row = 9%nat /\ NoDup row /\
     forall j, In j row <-> 0 <= j < 81 /\ j / 9 = 40 / 9) /\
    (length col = 9%nat /\ NoDup col /\
     forall j, In j col <-> 0 <= j < 81 /\ j mod 9 = 40 mod 9) /\
    (length block = 9%nat /\ NoDup block /\
     forall j, In j block <->
       0 <= j < 81 /\ j / 27 = 40 / 27 /\ (j mod 9) / 3 = (40 mod 9) / 3).
Proof. apply (New_units_of_square 40). lia. Defined.

Lemma New_peersOk : peersOk New = true.
Proof. vm_compute. reflexivity. Qed.

Lemma New_unitlistOk : unitlistOk New = true.
Proof. vm_compute. reflexivity. Qed.

Lemma New_connectedOk : connectedOk New = true.
Proof. vm_compute. reflexivity. Qed.

Lemma peersOk_inv (s : Sudoku) (i j : Index) :
  peersOk s = true -> 0 <= i < 81 -> 0 <= j < 81 ->
  (isPeer s i j <->
   j <> i /\ (j / 9 = i / 9 \/ j mod 9 = i mod 9 \/
              (j / 27 = i / 27 /\ (j mod 9) / 3 = (i mod 9) / 3))).
Proof.
  unfold peersOk. intros H Hi Hj.
  rewrite forallb_forall in H. specialize (H i (proj2 (In_upto 81 i) Hi)).
  rewrite forallb_forall in H. specialize (H j (proj2 (In_upto 81 j) Hj)).
  apply Bool.eqb_prop in H. rewrite <- isPeerb_isPeer, H.
  unfold sameRow, sameCol, sameBlock.
  rewrite andb_true_iff, negb_true_iff, Z.eqb_neq, !orb_true_iff,
    andb_true_iff, !Z.eqb_eq. tauto.
Qed.

Lemma New_peers_coordinates (i j : Index) :
  0 <= i < 81 -> 0 <= j < 81 ->
  (isPeer New i j <->
   j <> i /\ (j / 9 = i / 9 \/ j mod 9 = i mod 9 \/
              (j / 27 = i / 27 /\ (j mod 9) / 3 = (i mod 9) / 3))).
Proof. apply peersOk_inv, New_peersOk. Qed.

(** X2. Two squares of 0-80 are peers in the topology of [New] exactly
    when they differ and share a row, a column or a 3x3 block; no square
    outside 0-80 is or has a peer. *)
Theorem New_peers_geometry (i j : Index) :
  isPeer New i j <->
  0 <= i < 81 /\ 0 <= j < 81 /\ j <> i /\
  (j / 9 = i / 9 \/ j mod 9 = i mod 9 \/
   (j / 27 = i / 27 /\ (j mod 9) / 3 = (i mod 9) / 3)).
Proof.
  split.
  - intros H. pose proof (isPeer_range i j H) as Hi.
    pose proof (isPeer_range j i (New_peer_sym i j H)) as Hj.
    split; [assumption|]. split; [assumption|].
    now apply New_peers_coordinates.
  - intros [Hi [Hj H]]. now apply New_peers_coordinates.
Qed.

Lemma unitEqb_eq (u u' : Unit) : unitEqb u u' = true -> u = u'.
Proof. unfold unitEqb. destruct (list_eq_dec Z.eq_dec u u'); congruence. Qed.

Lemma unitlistOk_inv (s : Sudoku) (u : Unit) :
  unitlistOk s = true -> In u (unitlist s) ->
  length u = 9%nat /\ NoDup u /\
  (forall i, In i u ->
     exists us, get (units s) i = Some us /\ In u us).
Proof.
  unfold unitlistOk. intros H Hu.
  rewrite forallb_forall in H. specialize (H u Hu).
  apply andb_true_iff in H as [H Hlisted].
  apply andb_true_iff in H as [Hlen Hnd]. apply Nat.eqb_eq in Hlen.
  rewrite forallb_forall in Hlisted. split; [assumption|].
  split; [now apply nodupZ_NoDup|].
  intros i Hi. specialize (Hlisted i Hi).
  destruct (get (units s) i) as [us|]; [|discriminate].
  exists us. split; [reflexivity|].
  apply existsb_exists in Hlisted as [u' [Hu' E]].
  apply unitEqb_eq in E. now subst.
Qed.

Lemma New_unit_facts (u : Unit) :
  In u (unitlist New) ->
  length u = 9%nat /\ NoDup u /\
  (forall i, In i u -> 0 <= i < 81) /\
  (forall i, In i u ->
     exists us, get (units New) i = Some us /\ In u us).
Proof.
  intros Hu. destruct (unitlistOk_inv New u New_unitlistOk Hu)
    as [H1 [H2 H3]].
  split; [assumption|]. split; [assumption|]. split; [|assumption].
  intros i Hi. exact (topo_unitlist New New_topologyInRange u i Hu Hi).
Qed.

(** Two different squares of a unit are peers. *)
Lemma New_same_unit_peers (u : Unit) (i j : Index) :
  In u (unitlist New) -> In i u -> In j u -> j <> i -> isPeer New i j.
Proof.
  intros Hu Hi Hj Hne.
  destruct (New_unit_facts u Hu) as [_ [_ [Hrange Hlisted]]].
  destruct (Hlisted i Hi) as [us [Hus Hin]].
  apply (proj2 (New_units_peers i us (Hrange i Hi) Hus) j (Hrange j Hj)).
  split; [assumption|]. eauto.
Qed.

Lemma connectedOk_inv (s : Sudoku) (i j : Index) :
  connectedOk s = true -> 0 <= i < 81 -> 0 <= j < 81 ->
  j = i \/ isPeer s i j \/ exists k, isPeer s i k /\ isPeer s k j.
Proof.
  unfold connectedOk. intros H Hi Hj.
  rewrite forallb_forall in H. specialize (H i (proj2 (In_upto 81 i) Hi)).
  destruct (get (peers s) i) as [ps|] eqn:Hps; [|discriminate].
  rewrite forallb_forall in H. specialize (H j (proj2 (In_upto 81 j) Hj)).
  apply orb_true_iff in H as [H|H].
  - apply orb_true_iff in H as [H|H].
    + left. now apply Z.eqb_eq.
    + right. left. exists ps. split; [assumption|]. now apply memZ_In.
  - right. right. apply existsb_exists in H as [k [Hk Hkj]]. exists k.
    split; [exists ps; auto|]. now apply isPeerb_isPeer.
Qed.

(** Any two squares are equal, peers, or have a common peer. *)
Lemma New_connected (i j : Index) :
  0 <= i < 81 -> 0 <= j < 81 ->
  j = i \/ isPeer New i j \/ exists k, isPeer New i k /\ isPeer New k j.
Proof. apply connectedOk_inv, New_connectedOk. Qed.

(* ================================================================== *)
(** * Further properties: more on candidate sets *)
(* ================================================================== *)

Lemma wfDigits_size9 (d : Digits) :
  wfDigits d -> size d = 9 -> d = fullDigitsSet.
Proof.
  intros Hwf Hsz.
  assert (Hincl : incl (members d) (members fullDigitsSet)).
  { intros p Hp. apply isMember_members in Hp. apply isMember_members.
    rewrite isMember_testbit in *. apply andb_true_iff in Hp as [H1 H2].
    rewrite H2, andb_true_r.
    exact (proj1 (subDigits_spec d fullDigitsSet) Hwf p H1). }
  assert (Hback : incl (members fullDigitsSet) (members d)).
  { apply NoDup_length_incl; [apply NoDup_members| |assumption].
    unfold size in Hsz. rewrite onesCount16_members in Hsz.
    change (length (members fullDigitsSet)) with 9%nat. lia. }
  apply N.bits_inj. intros p.
  destruct (N.testbit fullDigitsSet p) eqn:Hf.
  - assert (Hp : (p < 16)%N).
    { rewrite testbit_fullDigitsSet in Hf.
      apply andb_true_iff in Hf as [_ Hf]. apply N.leb_le in Hf. lia. }
    assert (Hin : In p (members fullDigitsSet)).
    { apply isMember_members. rewrite isMember_testbit, Hf.
      now apply N.ltb_lt. }
    apply Hback, isMember_members in Hin. rewrite isMember_testbit in Hin.
    now apply andb_true_iff in Hin as [Hin _].
  - destruct (N.testbit d p) eqn:Hd; [|reflexivity].
    rewrite (proj1 (subDigits_spec d fullDigitsSet) Hwf p Hd) in Hf.
    discriminate.
Qed.

Lemma subDigits_into_remove (a b : Digits) (d : N) :
  subDigits a b -> isMember a d = false -> subDigits a (remove b d).
Proof.
  rewrite !subDigits_spec. intros Hsub Hd p Hp.
  rewrite testbit_remove, (Hsub p Hp). simpl.
  destruct (N.eqb_spec p d) as [->|]; [|reflexivity].
  rewrite isMember_testbit, Hp in Hd. simpl in Hd. rewrite Hd. reflexivity.
Qed.

Lemma nonempty_member (a : Digits) :
  size a <> 0 -> exists m, isMember a m = true.
Proof.
  intros H. destruct (members a) as [|m l] eqn:E.
  - exfalso. apply H. unfold size. now rewrite onesCount16_members, E.
  - exists m. apply isMember_members. rewrite E. now left.
Qed.

Lemma single_sub_nonempty (a b : Digits) (d : N) :
  subDigits a b -> singleMemberDigit b = Some d -> size a <> 0 ->
  singleMemberDigit a = Some d.
Proof.
  intros Hsub Hb Ha. destruct (nonempty_member a Ha) as [m Hm].
  destruct (singleMemberDigit_Some _ _ Hb) as [_ [_ Hu]].
  pose proof (Hu m (subDigits_isMember _ _ _ Hsub Hm)). subst m.
  now apply (single_sub a b d).
Qed.

Lemma single_size (a : Digits) (d : N) :
  singleMemberDigit a = Some d -> size a = 1.
Proof. intros H. now destruct (singleMemberDigit_Some _ _ H). Qed.

Lemma singleMemberDigit_None (a : Digits) :
  size a <> 1 -> singleMemberDigit a = None.
Proof.
  intros H. unfold singleMemberDigit.
  destruct (Z.eqb_spec (size a) 1); [contradiction|reflexivity].
Qed.

(* ================================================================== *)
(** * Further properties: [assign] and [eliminate] on consistent boards *)
(* ================================================================== *)



Lemma unitsComplete_emptyBoard : unitsComplete New emptyBoard.
Proof.
  intros u e Hu He.
  destruct (New_unit_facts u Hu) as [Hlen [_ [Hrange _]]].
  destruct u as [|p u']; [discriminate|].
  exists p, fullDigitsSet. split; [now left|]. split.
  - apply get_repeat. apply (Hrange p). now left.
  - rewrite isMember_testbit, testbit_fullDigitsSet.
    destruct He as [H1 H2]. apply N.leb_le in H1, H2. rewrite H1, H2.
    simpl. apply N.ltb_lt. apply N.leb_le in H2. lia.
Qed.

Lemma consistent_emptyBoard : consistent New emptyBoard.
Proof.
  split; [reflexivity|]. split.
  - apply propagated_emptyBoard.
  - apply unitsComplete_emptyBoard.
Qed.

Lemma unitsComplete_step (v v' : Values) :
  length v = 81%nat -> wfBoard v -> served New v v' ->
  unitsComplete New v -> unitsComplete New v'.
Proof.
  intros Hlen Hwf [Hn Hserved] Hcomplete u e Hu He.
  destruct (New_unit_facts u Hu) as [_ [_ [Hrange Hlisted]]].
  destruct (dplacesOf_total v u e) as [pl Hpl].
  { intros q Hq. rewrite Hlen. apply (Hrange q Hq). }
  assert (Hne : pl <> []).
  { destruct (Hcomplete u e Hu He) as [p [dp [Hp [Hg Hm]]]].
    assert (Hin : In p pl) by (apply (dplacesOf_Some _ _ _ _ Hpl); eauto).
    intros ->. contradiction. }
  assert (Hplaces : exists pl', dplacesOf v' u e = Some pl' /\ pl' <> []).
  { destruct (dplacesOf_narrows v v' u e pl Hn Hpl)
      as [pl' [E [->|[q [Hq Ht]]]]]; [eauto|].
    destruct (Hlisted q Hq) as [us [Hus Hin]].
    destruct (Hserved Hwf q e us u Ht Hus Hin) as [pl'' [E' [Hne' _]]].
    eauto. }
  destruct Hplaces as [[|p pl'] [E Hne']]; [contradiction|].
  assert (Hin : In p (p :: pl')) by now left.
  apply (dplacesOf_Some _ _ _ _ E) in Hin as [Hp [dp [Hg Hm]]]. eauto.
Qed.

Lemma consistent_served (values values' : Values) :
  consistent New values -> served New values values' ->
  propagated New values' -> consistent New values'.
Proof.
  intros [Hlen [Hprop Hcomplete]] Hserved Hprop'.
  assert (Hwf : wfBoard values) by (now destruct Hprop).
  split; [|split; [assumption|]].
  - destruct Hserved as [Hn _]. now rewrite (narrows_length _ _ Hn).
  - now apply (unitsComplete_step values).
Qed.

Lemma consistent_assign (values : Values) (sq : Index) (d : N)
    (values' : Values) :
  consistent New values -> assign New values sq d = Done true values' ->
  consistent New values'.
Proof.
  intros Hc Hrun. apply (consistent_served values); auto.
  - exact (assignWith_rule (served New) succeeded (served_refl New)
             (served_trans New New_unitsClosed) eq_refl _
             (served_elimRule New New_unitsClosed _)
             values sq d true values' Hrun eq_refl).
  - destruct Hc as [_ [Hp _]]. eapply propagated_assign; eauto.
Qed.

Lemma consistent_eliminate (values : Values) (sq : Index) (d : N)
    (values' : Values) :
  consistent New values -> eliminate New values sq d = Done true values' ->
  consistent New values'.
Proof.
  intros Hc Hrun. apply (consistent_served values); auto.
  - exact (eliminateFuel_served New New_unitsClosed _ _ _ _ _ Hrun).
  - destruct Hc as [_ [Hp _]]. eapply propagated_eliminate; eauto.
Qed.

(** X4. The empty board is consistent, and a successful [assign] or
    [eliminate] on a consistent board leaves a consistent board: 81
    squares of digits 1-9, none empty, the digit of every settled square
    absent from all its peers, and in every unit a place for every
    digit. *)
Theorem propagation_keeps_consistent :
  consistent New emptyBoard /\
  forall values square digit values',
    consistent New values ->
    assign New values square digit = Done true values' \/
    eliminate New values square digit = Done true values' ->
    consistent New values'.
Proof.
  split; [exact consistent_emptyBoard|].
  intros values square digit values' Hc [Hrun|Hrun].
  - now apply (consistent_assign values square digit).
  - now apply (consistent_eliminate values square digit).
Qed.

Lemma propagation_keeps_consistent_witness :
  exists values',
    assign New emptyBoard 20 5 = Done true values' /\
    consistent New values'.
Proof.
  eexists. split; [vm_compute; reflexivity|].
  apply (proj2 propagation_keeps_consistent emptyBoard 20 5%N).
  - exact (proj1 propagation_keeps_consistent).
  - left. vm_compute. reflexivity.
Defined.

(* ================================================================== *)
(** * Further properties: the parser *)
(* ================================================================== *)

Lemma dotAsZero_token (r : Z) :
  keptRune (dotAsZero r) = keptRune r /\
  tokenOf (dotAsZero r) = tokenOf r.
Proof.
  unfold dotAsZero. destruct (Z.eqb_spec r 46) as [->|Hne]; auto.
Qed.

(** X5. The outcome of [parseBoard] depends only on the tokens of the
    text: runes other than digits and ['.'] can be inserted or removed
    anywhere, and ['.'] can be written ['0'], without changing it. *)
Theorem parseBoard_formatting (runes runes' : list Z) :
  (map tokenOf (filter keptRune runes) =
   map tokenOf (filter keptRune runes') ->
   parseBoard New runes = parseBoard New runes') /\
  parseBoard New (filter keptRune runes) = parseBoard New runes /\
  parseBoard New (map dotAsZero runes) = parseBoard New runes.
Proof.
  assert (Hsame : forall r1 r2,
    map tokenOf (filter keptRune r1) = map tokenOf (filter keptRune r2) ->
    parseBoard New r1 = parseBoard New r2).
  { intros r1 r2 H. unfold parseBoard.
    pose proof (scanRunes_filter r1 []) as H1.
    pose proof (scanRunes_filter r2 []) as H2. simpl in H1, H2.
    now rewrite H1, H2, H. }
  split; [apply Hsame|]. split.
  - apply Hsame. f_equal. induction runes as [|r rest IH]; [reflexivity|].
    simpl. destruct (keptRune r) eqn:E; simpl; [rewrite E|]; congruence.
  - apply Hsame. induction runes as [|r rest IH]; [reflexivity|].
    simpl. destruct (dotAsZero_token r) as [Hk Ht]. rewrite Hk.
    destruct (keptRune r); simpl; now rewrite ?Ht, IH.
Qed.

Lemma parseBoard_formatting_witness :
  parseBoard New (runesOf "4 . 0 | x") = parseBoard New (runesOf "400").
Proof.
  apply (proj1 (parseBoard_formatting (runesOf "4 . 0 | x")
                  (runesOf "400"))).
  reflexivity.
Defined.

Lemma Assigned_consistent (dgs : list N) (sq : Index) (v v' : Values) :
  Assigned New dgs sq v v' -> consistent New v -> consistent New v'.
Proof.
  induction 1 as [sq v|rest sq v v' _ IH|d rest sq v v1 v' Hd Ha _ IH];
    intros Hc; auto.
  apply IH. now apply (consistent_assign v sq d).
Qed.

Lemma Assigned_narrows (s : Sudoku) (dgs : list N) (sq : Index)
    (v v' : Values) :
  Assigned s dgs sq v v' -> narrows v v' /\ staysNonEmpty v v'.
Proof.
  induction 1 as [sq v|rest sq v v' _ IH|d rest sq v v1 v' Hd Ha _ IH].
  - split; [apply narrows_refl|apply staysNonEmpty_refl].
  - exact IH.
  - destruct IH as [Hn Hne]. split.
    + apply narrows_trans with v1; [|assumption].
      eapply assignFuel_narrows; exact Ha.
    + apply staysNonEmpty_trans with v1; [|assumption].
      eapply assignFuel_staysNonEmpty; exact Ha.
Qed.

Lemma Assigned_hints (dgs : list N) (sq : Index) (v v' : Values) :
  Assigned New dgs sq v v' -> consistent New v ->
  forall i d, nth_error dgs i = Some d -> d <> 0%N ->
  exists ds, get v' (sq + Z.of_nat i) = Some ds /\
             singleMemberDigit ds = Some d.
Proof.
  induction 1 as [sq v|rest sq v v' _ IH|d rest sq v v1 v' Hd Ha Hrest IH];
    intros Hc i e Hi He.
  - destruct i; discriminate.
  - destruct i as [|i]; simpl in Hi; [congruence|].
    replace (sq + Z.of_nat (S i)) with (sq + 1 + Z.of_nat i) by lia.
    now apply IH.
  - pose proof (consistent_assign v sq d v1 Hc Ha) as Hc1.
    destruct i as [|i]; simpl in Hi.
    + inversion Hi; subst e. rewrite Z.add_0_r.
      destruct Hc as [_ [[Hwf [Hsz _]] _]].
      destruct (get v sq) as [ds|] eqn:Hget.
      2:{ exfalso. unfold assign, assignFuel, assignWith, digits19 in Ha.
          cbn [forAll] in Ha. rewrite Hget in Ha. discriminate. }
      destruct (assignFuel_forces New _ _ _ _ _ _ Hwf Hget (Hsz sq ds Hget)
                  Ha) as [ds1 [Hg1 [Hs1 Hk1]]].
      destruct (Assigned_narrows _ _ _ _ _ Hrest) as [Hn Hne].
      destruct (Hne sq ds1 Hg1 ltac:(lia)) as [ds' [Hg' Hs']].
      exists ds'. split; [assumption|].
      destruct (narrows_get_after _ _ _ _ Hn Hg') as [d0 [Hg0 Hsub]].
      assert (d0 = ds1) by congruence. subst d0.
      now apply (single_sub_nonempty ds' ds1 d).
    + replace (sq + Z.of_nat (S i)) with (sq + 1 + Z.of_nat i) by lia.
      now apply IH.
Qed.

Lemma parseBoard_facts (runes : list Z) (values : Values) :
  parseBoard New runes = Done None values ->
  consistent New values /\
  honoursHints (map tokenOf (filter keptRune runes)) values.
Proof.
  unfold parseBoard. pose proof (scanRunes_filter runes []) as Hscan.
  simpl in Hscan. rewrite Hscan.
  destruct (negb (Z.of_nat (length (map tokenOf (filter keptRune runes)))
                  =? 81)); [discriminate|].
  intros H. apply assignAll_Assigned in H. split.
  - exact (Assigned_consistent _ _ _ _ H consistent_emptyBoard).
  - intros i d Hi Hd.
    exact (Assigned_hints _ _ _ _ H consistent_emptyBoard i d Hi Hd).
Qed.

(** X6. A board returned by [parseBoard] is consistent (81 squares of
    digits 1-9, none empty, settled digits absent from their peers, a
    place in every unit for every digit) and has every non-zero token
    of the text settled at its square. *)
Theorem parseBoard_result (runes : list Z) (values : Values) :
  parseBoard New runes = Done None values ->
  consistent New values /\
  honoursHints (map tokenOf (filter keptRune runes)) values.
Proof. apply parseBoard_facts. Qed.

Lemma parseBoard_result_witness :
  exists values,
    parseBoard New (runesOf hardboard1) = Done None values /\
    consistent New values /\
    honoursHints (map tokenOf (filter keptRune (runesOf hardboard1))) values.
Proof.
  eexists. split; [vm_compute; reflexivity|].
  apply (parseBoard_result (runesOf hardboard1)). vm_compute. reflexivity.
Defined.

(* ================================================================== *)
(** * Further properties: solved boards *)
(* ================================================================== *)

Lemma NoDup_map_distinct {A B : Type} (f : A -> B) (l : list A) :
  NoDup l -> (forall x y, In x l -> In y l -> x <> y -> f x <> f y) ->
  NoDup (map f l).
Proof.
  induction 1 as [|a l Ha Hnd IH]; intros Hf; simpl; constructor.
  - intros Hin. apply in_map_iff in Hin as [y [E Hy]].
    apply (Hf y a); auto; [now right|now left|]. intros ->. contradiction.
  - apply IH. intros x y Hx Hy. apply Hf; now right.
Qed.

Lemma NoDup_map_apart {A B : Type} (f : A -> B) (l : list A) (x y : A) :
  NoDup (map f l) -> In x l -> In y l -> x <> y -> f x <> f y.
Proof.
  induction l as [|a l IH]; simpl; intros Hnd Hx Hy Hne; [contradiction|].
  inversion Hnd as [|? ? Hnotin Hnd']; subst.
  destruct Hx as [->|Hx], Hy as [->|Hy].
  - contradiction.
  - intros E. apply Hnotin. rewrite E. now apply in_map.
  - intros E. apply Hnotin. rewrite <- E. now apply in_map.
  - now apply IH.
Qed.

Lemma NoDup_digits19 : NoDup digits19.
Proof.
  unfold digits19. repeat constructor; simpl; intuition discriminate.
Qed.

Lemma digitOf_single (v : Values) (q : Index) (ds : Digits) (k : N) :
  get v q = Some ds -> singleMemberDigit ds = Some k -> digitOf v q = k.
Proof. intros Hg Hk. unfold digitOf. now rewrite Hg, Hk. Qed.

(** In a unit of 9 distinct squares, all settled on digits of 1-9, the
    squares hold different digits exactly when every digit has a
    square. *)
Lemma unit_digits (v : Values) (u : Unit) :
  length u = 9%nat -> NoDup u ->
  (forall q, In q u -> (1 <= digitOf v q <= 9)%N) ->
  ((forall i j, In i u -> In j u -> i <> j -> digitOf v i <> digitOf v j) <->
   (forall k, (1 <= k <= 9)%N -> exists q, In q u /\ digitOf v q = k)).
Proof.
  intros Hlen Hnd Hrange.
  assert (Hincl : incl (map (digitOf v) u) digits19).
  { intros k Hk. apply in_map_iff in Hk as [q [<- Hq]].
    apply In_digits19. auto. }
  split.
  - intros Hapart k Hk.
    assert (Hnd' : NoDup (map (digitOf v) u))
      by (apply NoDup_map_distinct; auto).
    assert (Hback : incl digits19 (map (digitOf v) u)).
    { apply NoDup_length_incl; auto. rewrite length_map, Hlen.
      simpl. lia. }
    apply In_digits19, Hback, in_map_iff in Hk as [q [E Hq]]. eauto.
  - intros Hcover i j Hi Hj Hne.
    apply (NoDup_map_apart (digitOf v) u); auto.
    apply (NoDup_incl_NoDup NoDup_digits19).
    + rewrite length_map, Hlen. simpl. lia.
    + intros k Hk. apply In_digits19, Hcover in Hk as [q [Hq E]].
      apply in_map_iff. eauto.
Qed.

Lemma square_in_unit (q : Index) :
  0 <= q < 81 -> exists u, In u (unitlist New) /\ In q u.
Proof.
  intros Hq. destruct (squareTopologyOk_inv New q (New_square_ok q Hq))
    as [us [ps [_ [_ [Hlen3 [_ [_ [_ [Hus _]]]]]]]]].
  destruct us as [|u us']; [discriminate|].
  destruct (Hus u (or_introl eq_refl)). eauto.
Qed.

Lemma solvedSpec_noPeerClash (v : Values) :
  solvedSpec New v <-> noPeerClash New v.
Proof.
  split.
  - intros Hspec.
    assert (Hsettled : forall q, 0 <= q < 81 ->
      exists ds k, get v q = Some ds /\ singleMemberDigit ds = Some k /\
                   (1 <= k <= 9)%N).
    { intros q Hq. destruct (square_in_unit q Hq) as [u [Hu Hin]].
      destruct (Hspec u Hu) as [Hone Hk].
      destruct (Hone q Hin) as [ds [Hg Hs]].
      destruct (size_one_single ds Hs) as [k [Hsk _]].
      exists ds, k. split; [assumption|]. split; [assumption|].
      apply Hk. eauto. }
    split; [exact Hsettled|].
    intros i j Hp. pose proof (isPeer_range i j Hp) as Hi.
    pose proof (isPeer_range j i (New_peer_sym i j Hp)) as Hj.
    destruct (squareTopologyOk_inv New i (New_square_ok i Hi))
      as [us [ps [Hus [_ [_ [_ [_ [_ [Hunits [_ Hchar]]]]]]]]]].
    apply (Hchar j Hj) in Hp as [Hne [u [Hu Hju]]].
    destruct (Hunits u Hu) as [Hiu Hul].
    destruct (New_unit_facts u Hul) as [Hlen [Hnd [Hrange _]]].
    apply (proj2 (unit_digits v u Hlen Hnd
      (fun q Hq => ltac:(destruct (Hsettled q (Hrange q Hq))
                           as [ds [k [Hg [Hk Hr]]]];
                         now rewrite (digitOf_single v q ds k Hg Hk))))); auto.
    intros k Hk. destruct (proj1 (proj2 (Hspec u Hul) k) Hk)
      as [q [ds [Hq [Hg Hs]]]].
    exists q. split; [assumption|]. now apply (digitOf_single v q ds k).
  - intros [Hsettled Hapart] u Hu.
    destruct (New_unit_facts u Hu) as [Hlen [Hnd [Hrange _]]].
    assert (Hdig : forall q, In q u -> (1 <= digitOf v q <= 9)%N).
    { intros q Hq. destruct (Hsettled q (Hrange q Hq))
        as [ds [k [Hg [Hk Hr]]]].
      now rewrite (digitOf_single v q ds k Hg Hk). }
    split.
    + intros q Hq. destruct (Hsettled q (Hrange q Hq))
        as [ds [k [Hg [Hk Hr]]]].
      exists ds. split; [assumption|]. now apply (single_size ds k).
    + intros k. split.
      * intros Hk.
        destruct (proj1 (unit_digits v u Hlen Hnd Hdig)
                    (fun i j Hi Hj Hne =>
                       Hapart i j (New_same_unit_peers u i j Hu Hi Hj
                                     (not_eq_sym Hne))) k Hk)
          as [q [Hq E]].
        destruct (Hsettled q (Hrange q Hq)) as [ds [k' [Hg [Hk' Hr]]]].
        exists q, ds. split; [assumption|]. split; [assumption|].
        rewrite (digitOf_single v q ds k' Hg Hk') in E. congruence.
      * intros [q [ds [Hq [Hg Hk]]]].
        specialize (Hdig q Hq).
        now rewrite (digitOf_single v q ds k Hg Hk) in Hdig.
Qed.

(** X7. On a board of 81 squares, [isSolved] returns true exactly when
    every square is settled on a digit of 1-9 and no two peers hold the
    same digit. *)
Theorem isSolved_no_peer_clash (values : Values) :
  length values = 81%nat ->
  (isSolved New values = Done true values <-> noPeerClash New values).
Proof.
  intros Hlen. rewrite <- solvedSpec_noPeerClash.
  destruct (isSolved_spec New New_topologyInRange values Hlen) as [b [E Hb]].
  rewrite E. split.
  - intros H. apply Hb. congruence.
  - intros H. apply Hb in H. now subst.
Qed.

Lemma isSolved_no_peer_clash_witness :
  exists values,
    parseBoard New (runesOf easyboard1) = Done None values /\
    noPeerClash New values.
Proof.
  eexists. split; [vm_compute; reflexivity|].
  match goal with |- noPeerClash New ?v =>
    apply (proj1 (isSolved_no_peer_clash v eq_refl)) end.
  vm_compute. reflexivity.
Defined.

(* ================================================================== *)
(** * Further properties: what the search returns *)
(* ================================================================== *)

Lemma tryDigits_false (s : Sudoku) (recur : Values -> outcome bool)
    (values : Values) (sq : Index) (ds : list N) (v' : Values) :
  tryDigits s recur values sq ds = Done false v' -> v' = values.
Proof.
  induction ds as [|d rest IH]; simpl.
  - intros H. now inversion H.
  - destruct (get values sq) as [cand|]; [|discriminate].
    destruct (isMember cand d); [|exact IH].
    destruct (assign s values sq d) as [[|] vcopy'| |];
      try discriminate; [|exact IH].
    destruct (recur vcopy') as [[|] vr| |]; try discriminate. exact IH.
Qed.

Lemma search_facts (values : Values) (b : bool) (values' : Values) :
  search New values = Done b values' ->
  narrows values values' /\ (b = false -> values' = values).
Proof.
  unfold search. generalize (S (candidates values)) as fuel.
  intros [|fuel] H; [discriminate|]. rewrite searchFuel_S in H.
  destruct (selectSquare values =? -1).
  - inversion H; subst. split; [apply narrows_refl|reflexivity].
  - destruct b.
    + split; [|discriminate].
      apply (searchFuel_narrows New (S fuel)). rewrite searchFuel_S.
      destruct (Z.eqb_spec (selectSquare values) (-1)) as [E|_];
        [|exact H].
      exfalso. apply tryDigits_true in H as [d [vc [Ha _]]].
      unfold assign, assignFuel, assignWith, digits19 in Ha.
      cbn [forAll] in Ha. rewrite E in Ha. discriminate.
    + apply tryDigits_false in H. subst.
      split; [apply narrows_refl|reflexivity].
Qed.

(** X8. [search] never adds a candidate and never hands back a changed
    board with a failure: whatever it returns, the board returned has
    the squares of the board given, each with a subset of its
    candidates, and on failure it is the board given. *)
Theorem search_output (values : Values) (b : bool) (values' : Values) :
  search New values = Done b values' ->
  narrows values values' /\ (b = false -> values' = values).
Proof. apply search_facts. Qed.

Lemma search_output_witness :
  exists values',
    search New stuckBoard = Done false values' /\
    narrows stuckBoard values' /\ (false = false -> values' = stuckBoard).
Proof.
  eexists. split; [vm_compute; reflexivity|].
  apply (search_output stuckBoard false). vm_compute. reflexivity.
Defined.

(** X9. On a board of 81 squares holding digits 1-9, [search] returns:
    the recursion ends, each trial assignment taking candidates off the
    board, and no call panics. *)
Theorem search_returns (values : Values) :
  wfBoard values -> length values = 81%nat ->
  exists b values', search New values = Done b values'.
Proof. apply (search_total New New_topologyInRange). Qed.

Lemma search_returns_witness :
  exists b values', search New pickBoard = Done b values'.
Proof.
  apply (search_returns pickBoard).
  - apply wfBoardb_wfBoard. vm_compute. reflexivity.
  - reflexivity.
Defined.

Lemma searchFuel_consistent (fuel : nat) :
  forall v v', consistent New v ->
  searchFuel New fuel v = Done true v' ->
  consistent New v' /\ selectSquare v' = -1.
Proof.
  induction fuel as [|fuel IH]; intros v v' Hc H; [discriminate|].
  rewrite searchFuel_S in H.
  destruct (Z.eqb_spec (selectSquare v) (-1)) as [E|Hne].
  - inversion H; subst. auto.
  - apply tryDigits_true in H as [d [vc [Ha Hr]]].
    apply (IH vc v'); [|assumption].
    now apply (consistent_assign v (selectSquare v) d).
Qed.

Lemma consistent_sizes (v : Values) (q : Index) (ds : Digits) :
  consistent New v -> selectSquare v = -1 -> get v q = Some ds ->
  size ds = 1 \/ ds = fullDigitsSet.
Proof.
  intros [_ [[Hwf [Hsz _]] _]] Hsel Hg.
  destruct (selectSquare_spec v) as [[_ Hnone]|[d0 [Hg0 _]]].
  2:{ apply get_Some_range in Hg0. lia. }
  pose proof (Hnone q ds Hg) as H1. pose proof (Hsz q ds Hg) as H2.
  pose proof (wfBoard_get _ _ _ Hwf Hg) as Hw.
  pose proof (wfDigits_size_le ds Hw) as H3.
  pose proof (size_nonneg ds) as H4.
  destruct (Z.eq_dec (size ds) 1) as [|Hne]; [now left|right].
  apply wfDigits_size9; [assumption|lia].
Qed.

Lemma full_peer_full (v : Values) (q p : Index) :
  consistent New v -> selectSquare v = -1 ->
  get v q = Some fullDigitsSet -> isPeer New q p ->
  get v p = Some fullDigitsSet.
Proof.
  intros Hc Hsel Hq Hpeer.
  pose proof (isPeer_range p q (New_peer_sym q p Hpeer)) as Hp.
  destruct Hc as [Hlen [[Hwf [Hsz Hclear]] Hcomp]].
  destruct (get_in_range v p) as [dp Hdp]; [lia|].
  destruct (consistent_sizes v p dp
              (conj Hlen (conj (conj Hwf (conj Hsz Hclear)) Hcomp)) Hsel Hdp)
    as [H1| ->]; [exfalso|assumption].
  destruct (size_one_single dp H1) as [k [Hk [Hm _]]].
  destruct (New_peer_sym q p Hpeer) as [ps [Hps Hin]].
  destruct (Hclear p dp k ps q Hdp Hk Hps Hin) as [dq [Hg Habs]].
  assert (dq = fullDigitsSet) by congruence. subst dq.
  pose proof (wfDigits_isMember dp k (wfBoard_get _ _ _ Hwf Hdp) Hm) as Hr.
  rewrite isMember_testbit, testbit_fullDigitsSet in Habs.
  destruct Hr as [R1 R2]. apply N.leb_le in R1, R2. rewrite R1, R2 in Habs.
  simpl in Habs. apply N.ltb_ge in Habs. apply N.leb_le in R2. lia.
Qed.

Lemma all_full_emptyBoard (v : Values) :
  length v = 81%nat ->
  (forall q, 0 <= q < 81 -> get v q = Some fullDigitsSet) ->
  v = emptyBoard.
Proof.
  intros Hlen Hall. unfold emptyBoard. rewrite <- Hlen.
  apply Forall_eq_repeat. apply Forall_forall. intros d Hd.
  apply In_get in Hd as [i Hi].
  pose proof (get_Some_range _ _ _ Hi) as Hr. rewrite Hlen in Hr.
  rewrite (Hall i Hr) in Hi. congruence.
Qed.

(** A consistent board on which the search selects no square is the
    empty board or a solved board. *)
Lemma consistent_final (v : Values) :
  consistent New v -> selectSquare v = -1 ->
  v = emptyBoard \/ noPeerClash New v.
Proof.
  intros Hc Hsel. pose proof Hc as [Hlen [[Hwf [Hsz Hclear]] _]].
  destruct (forallb (fun d => size d =? 1) v) eqn:Hall.
  - right. rewrite forallb_forall in Hall.
    assert (Hsettled : forall q, 0 <= q < 81 ->
      exists ds k, get v q = Some ds /\ singleMemberDigit ds = Some k /\
                   (1 <= k <= 9)%N).
    { intros q Hq. destruct (get_in_range v q) as [ds Hg]; [lia|].
      pose proof (Hall ds (get_In _ _ _ Hg)) as H1. apply Z.eqb_eq in H1.
      destruct (size_one_single ds H1) as [k [Hk [Hm _]]].
      exists ds, k. split; [assumption|]. split; [assumption|].
      exact (wfDigits_isMember ds k (wfBoard_get _ _ _ Hwf Hg) Hm). }
    split; [exact Hsettled|].
    intros i j Hp. pose proof (isPeer_range i j Hp) as Hi.
    pose proof (isPeer_range j i (New_peer_sym i j Hp)) as Hj.
    destruct (Hsettled i Hi) as [di [ki [Hgi [Hki _]]]].
    destruct (Hsettled j Hj) as [dj [kj [Hgj [Hkj _]]]].
    rewrite (digitOf_single v i di ki Hgi Hki).
    rewrite (digitOf_single v j dj kj Hgj Hkj).
    destruct Hp as [ps [Hps Hin]].
    destruct (Hclear i di ki ps j Hgi Hki Hps Hin) as [dj' [Hgj' Habs]].
    assert (dj' = dj) by congruence. subst dj'.
    destruct (singleMemberDigit_Some _ _ Hkj) as [_ [Hm _]].
    congruence.
  - left.
    assert (Hex : exists q0, get v q0 = Some fullDigitsSet).
    { apply Bool.not_true_iff_false in Hall.
      assert (Hdec : exists d, In d v /\ size d <> 1).
      { clear -Hall. induction v as [|d v IH].
        - exfalso. now apply Hall.
        - simpl in Hall. destruct (Z.eqb_spec (size d) 1) as [E|E].
          + destruct IH as [d' [H1 H2]]; [exact Hall|].
            exists d'. split; [now right|assumption].
          + exists d. split; [now left|assumption]. }
      destruct Hdec as [d [Hd Hne]]. apply In_get in Hd as [q0 Hq0].
      exists q0. destruct (consistent_sizes v q0 d Hc Hsel Hq0) as [H1| ->];
        [contradiction|assumption]. }
    destruct Hex as [q0 Hq0].
    pose proof (get_Some_range _ _ _ Hq0) as Hr0. rewrite Hlen in Hr0.
    apply all_full_emptyBoard; [assumption|]. intros j Hj.
    destruct (New_connected q0 j Hr0 Hj) as [->|[Hp|[k [H1 H2]]]].
    + assumption.
    + now apply (full_peer_full v q0 j).
    + apply (full_peer_full v k j); auto.
      now apply (full_peer_full v q0 k).
Qed.

Lemma narrows_emptyBoard (v : Values) :
  wfBoard v -> narrows v emptyBoard -> v = emptyBoard.
Proof.
  intros Hwf Hn. pose proof (narrows_length _ _ Hn) as Hlen.
  apply all_full_emptyBoard; [now rewrite <- Hlen|].
  intros q Hq.
  destruct (narrows_get_after v emptyBoard q fullDigitsSet Hn
              (get_repeat fullDigitsSet 81 q Hq)) as [d [Hg Hsub]].
  rewrite Hg. f_equal. pose proof (wfBoard_get _ _ _ Hwf Hg) as Hw.
  apply N.bits_inj. intros p.
  destruct (N.testbit fullDigitsSet p) eqn:Hf.
  - exact (proj1 (subDigits_spec _ _) Hsub p Hf).
  - destruct (N.testbit d p) eqn:Hd; [|reflexivity].
    rewrite (proj1 (subDigits_spec _ _) Hw p Hd) in Hf. discriminate.
Qed.

Lemma search_sound_consistent (values vresult : Values) :
  consistent New values -> search New values = Done true vresult ->
  consistent New vresult /\
  ((values = emptyBoard /\ vresult = emptyBoard) \/
   isSolved New vresult = Done true vresult).
Proof.
  intros Hc Hrun.
  destruct (searchFuel_consistent _ _ _ Hc Hrun) as [Hc' Hsel].
  split; [assumption|].
  destruct (consistent_final vresult Hc' Hsel) as [->|Hclash].
  - left. split; [|reflexivity].
    apply narrows_emptyBoard.
    + now destruct Hc as [_ [[Hwf _] _]].
    + exact (searchFuel_narrows New _ _ _ Hrun).
  - right. destruct Hc' as [Hlen _].
    destruct (isSolved_spec New New_topologyInRange vresult Hlen)
      as [b [E Hb]].
    rewrite E. f_equal. apply Hb. now apply solvedSpec_noPeerClash.
Qed.

(** X10. Soundness of the search.  On a consistent board (such as the
    parser returns), a board that [search] returns with success is
    consistent and is accepted by [isSolved], unless the board given was
    the empty board, which is returned as it is. *)
Theorem search_sound (values vresult : Values) :
  consistent New values -> search New values = Done true vresult ->
  consistent New vresult /\
  ((values = emptyBoard /\ vresult = emptyBoard) \/
   isSolved New vresult = Done true vresult).
Proof. apply search_sound_consistent. Qed.

Lemma search_sound_witness :
  exists values vresult,
    parseBoard New (runesOf hardboard1) = Done None values /\
    search New values = Done true vresult /\
    consistent New vresult /\
    ((values = emptyBoard /\ vresult = emptyBoard) \/
     isSolved New vresult = Done true vresult).
Proof.
  eexists. eexists. split; [vm_compute; reflexivity|].
  split; [vm_compute; reflexivity|].
  apply search_sound.
  - refine (Assigned_consistent
              (map tokenOf (filter keptRune (runesOf hardboard1))) 0
              emptyBoard _ _ consistent_emptyBoard).
    apply assignAll_Assigned. vm_compute. reflexivity.
  - vm_compute. reflexivity.
Defined.

(* ================================================================== *)
(** * Further properties: the propagation loses no solution *)
(* ================================================================== *)

Lemma forAll_success {X : Type} (Inv : Values -> Prop)
    (f : Values -> X -> outcome bool) (xs : list X) :
  (forall v x, In x xs -> Inv v -> exists v', f v x = Done true v' /\ Inv v') ->
  forall v, Inv v -> exists v', forAll f xs v = Done true v' /\ Inv v'.
Proof.
  induction xs as [|x rest IH]; intros Hf v Hv; simpl; [eauto|].
  destruct (Hf v x (or_introl eq_refl) Hv) as [v0 [E Hv0]].
  rewrite E. simpl. apply IH; auto. intros w y Hy. apply Hf. now right.
Qed.

Lemma narrows_update_within (sol v : Values) (n : nat) (a ds' : Digits) :
  narrows v sol -> nth_error sol n = Some a -> subDigits a ds' ->
  narrows (update v n ds') sol.
Proof.
  unfold narrows. intros H. revert n.
  induction H as [|x y l l' Hxy Hrest IH]; intros [|n] Hn Hs; simpl in *;
    try discriminate.
  - inversion Hn; subst. now constructor.
  - constructor; [assumption|]. now apply IH.
Qed.

Lemma narrows_set_within (sol v : Values) (sq : Index) (a ds' : Digits) :
  narrows v sol -> get sol sq = Some a -> subDigits a ds' ->
  narrows (set v sq ds') sol.
Proof.
  unfold get, set. destruct (sq <? 0); [discriminate|].
  apply narrows_update_within.
Qed.

Section KeepsSolution.

Variable sol : Values.
Hypothesis Hsol : solution New sol.

Lemma solution_noPeerClash : noPeerClash New sol.
Proof.
  destruct Hsol as [Hlen Hrun]. apply solvedSpec_noPeerClash.
  destruct (isSolved_spec New New_topologyInRange sol Hlen) as [b [E Hb]].
  apply Hb. congruence.
Qed.

Lemma solution_square (q : Index) :
  0 <= q < 81 ->
  exists ds, get sol q = Some ds /\
    singleMemberDigit ds = Some (digitOf sol q) /\
    (1 <= digitOf sol q <= 9)%N.
Proof.
  intros Hq. destruct (proj1 solution_noPeerClash q Hq)
    as [ds [k [Hg [Hk Hr]]]].
  exists ds. rewrite (digitOf_single sol q ds k Hg Hk). auto.
Qed.

Lemma solution_unit (u : Unit) (k : N) :
  In u (unitlist New) -> (1 <= k <= 9)%N ->
  exists q, In q u /\ digitOf sol q = k.
Proof.
  intros Hu Hk. destruct Hsol as [Hlen Hrun].
  destruct (isSolved_spec New New_topologyInRange sol Hlen) as [b [E Hb]].
  assert (Hspec : solvedSpec New sol) by (apply Hb; congruence).
  destruct (proj1 (proj2 (Hspec u Hu) k) Hk) as [q [ds [Hq [Hg Hs]]]].
  exists q. split; [assumption|]. now apply (digitOf_single sol q ds k).
Qed.

(** On a board that contains the solution, the square of the solution's
    digit admits it, and no other digit is the solution's. *)
Lemma within_member (w : Values) (q : Index) :
  narrows w sol -> 0 <= q < 81 ->
  exists dq, get w q = Some dq /\ isMember dq (digitOf sol q) = true.
Proof.
  intros Hn Hq. destruct (solution_square q Hq) as [ds [Hg [Hk _]]].
  destruct (narrows_get_after _ _ _ _ Hn Hg) as [dq [Hgq Hsub]].
  exists dq. split; [assumption|].
  destruct (singleMemberDigit_Some _ _ Hk) as [_ [Hm _]].
  exact (subDigits_isMember _ _ _ Hsub Hm).
Qed.

Lemma keeps_narrows (fuel : nat) (w w' : Values) :
  keeps sol fuel w -> narrows w w' -> narrows w' sol -> keeps sol fuel w'.
Proof.
  intros [Hwf [_ Hc]] Hn Hin. split; [now apply (narrows_wfBoard w)|].
  split; [assumption|]. apply narrows_candidates in Hn. lia.
Qed.

Lemma assignWith_keeps (fuel : nat) :
  (forall v sq d, keeps sol fuel v -> 0 <= sq < 81 -> digitOf sol sq <> d ->
     exists v', eliminateFuel New fuel v sq d = Done true v' /\
                narrows v' sol) ->
  forall v sq, keeps sol fuel v -> 0 <= sq < 81 ->
  exists v', assignFuel New fuel v sq (digitOf sol sq) = Done true v' /\
             keeps sol fuel v'.
Proof.
  intros IH v sq Hv Hsq. unfold assignFuel, assignWith.
  apply (forAll_success (keeps sol fuel)); [|assumption].
  intros w e _ Hw.
  destruct (within_member w sq (proj1 (proj2 Hw)) Hsq) as [dq [Hg _]].
  rewrite Hg.
  destruct (isMember dq e && negb (e =? digitOf sol sq)%N) eqn:Hc;
    [|eauto].
  apply andb_true_iff in Hc as [_ Hne].
  apply negb_true_iff, N.eqb_neq in Hne.
  destruct (IH w sq e Hw Hsq (not_eq_sym Hne)) as [w' [E Hin]].
  exists w'. split; [exact E|].
  apply (keeps_narrows fuel w); auto. eapply eliminateFuel_narrows; exact E.
Qed.

Lemma eliminateFuel_keeps (fuel : nat) :
  forall v sq d, keeps sol fuel v -> 0 <= sq < 81 -> digitOf sol sq <> d ->
  exists v', eliminateFuel New fuel v sq d = Done true v' /\ narrows v' sol.
Proof.
  induction fuel as [|fuel IH]; intros v sq d [Hwf [Hin Hc]] Hsq Hd; [lia|].
  simpl. unfold eliminateBody.
  destruct (within_member v sq Hin Hsq) as [ds [Hget Hk]]. rewrite Hget.
  destruct (isMember ds d) eqn:Hmem; simpl; [|eauto].
  destruct (solution_square sq Hsq) as [dsol [Hgsol [Hksol Hrange]]].
  destruct (narrows_get_after _ _ _ _ Hin Hgsol) as [ds0 [Hg0 Hsub]].
  assert (ds0 = ds) by congruence. subst ds0.
  assert (Hsub1 : subDigits dsol (remove ds d)).
  { apply subDigits_into_remove; [assumption|].
    destruct (isMember dsol d) eqn:E; [|reflexivity].
    destruct (singleMemberDigit_Some _ _ Hksol) as [_ [_ Hu]].
    now rewrite (Hu d E) in Hd. }
  pose proof (narrows_step v sq ds d Hget) as Hn1.
  pose proof (candidates_set_remove v sq ds d Hget Hmem) as Hdec.
  pose proof (get_set_same v sq ds (remove ds d) Hget) as Hget1.
  pose proof (narrows_set_within sol v sq dsol (remove ds d) Hin Hgsol Hsub1)
    as Hin1.
  pose proof (wfDigits_isMember ds d (wfBoard_get _ _ _ Hwf Hget) Hmem)
    as Hdrange.
  set (v1 := set v sq (remove ds d)) in *.
  assert (Hv1 : keeps sol fuel v1).
  { split; [now apply (narrows_wfBoard v)|]. split; [assumption|lia]. }
  assert (Hmem1 : isMember (remove ds d) (digitOf sol sq) = true).
  { destruct (singleMemberDigit_Some _ _ Hksol) as [_ [Hm _]].
    exact (subDigits_isMember _ _ _ Hsub1 Hm). }
  clearbody v1. clear Hget Hdec Hc Hin Hwf Hn1 Hg0 Hsub v.
  destruct (squareTopologyOk_inv New sq (New_square_ok sq Hsq))
    as [us [ps [Hus [Hps [_ [_ [_ [_ [Hunits [Hpeersym _]]]]]]]]]].
  unfold propagate. rewrite Hget1, Hus.
  (* the switch on the cardinality *)
  assert (Hswitch : exists v2,
    match size (remove ds d) with
    | 0 => Done false v1
    | 1 =>
        match singleMemberDigit (remove ds d), get (peers New) sq with
        | Some remaining, Some ps =>
            forAll (fun values peer =>
                      eliminateFuel New fuel values peer remaining) ps v1
        | _, _ => Panic
        end
    | _ => Done true v1
    end = Done true v2 /\ keeps sol fuel v2).
  { pose proof (size_pos_of_member _ _ Hmem1) as Hpos.
    destruct (size (remove ds d)) as [|[p|p|]|p] eqn:Hsize; try lia; eauto.
    destruct (size_one_single _ Hsize) as [k [Hk1 [_ Hu]]].
    rewrite Hk1, Hps. pose proof (Hu _ Hmem1) as Hkeq.
    apply (forAll_success (keeps sol fuel)); [|assumption].
    intros w p Hp Hw.
    assert (Hpr : 0 <= p < 81).
    { apply (isPeer_range p sq). now apply Hpeersym. }
    destruct (IH w p k Hw Hpr) as [w' [E Hin']].
    { rewrite <- Hkeq. apply not_eq_sym.
      apply (proj2 solution_noPeerClash sq p). exists ps. auto. }
    exists w'. split; [exact E|].
    apply (keeps_narrows fuel w); auto.
    eapply eliminateFuel_narrows; exact E. }
  destruct Hswitch as [v2 [E Hv2]]. rewrite E. simpl.
  (* the loop over the units *)
  destruct (forAll_success (keeps sol fuel)
              (unitStep (eliminateFuel New fuel) d) us) with (v := v2)
    as [v' [E' [_ [Hin' _]]]]; [|assumption|eauto].
  intros w u Hu Hw. destruct (Hunits u Hu) as [_ Hul].
  destruct (New_unit_facts u Hul) as [_ [_ [Hur _]]].
  pose proof (narrows_length _ _ (proj1 (proj2 Hw))) as Hlenw.
  destruct (dplacesOf_total w u d) as [pl Hpl].
  { intros q Hq. rewrite <- Hlenw. destruct Hsol as [-> _].
    apply (Hur q Hq). }
  unfold unitStep. rewrite Hpl.
  destruct (solution_unit u d Hul Hdrange) as [p [Hp Hdp]].
  destruct (within_member w p (proj1 (proj2 Hw)) (Hur p Hp))
    as [dp [Hgp Hmp]].
  rewrite Hdp in Hmp.
  assert (Hinpl : In p pl) by (apply (dplacesOf_Some _ _ _ _ Hpl); eauto).
  destruct pl as [|p1 [|p2 l]]; [contradiction| |eauto].
  destruct Hinpl as [->|[]].
  rewrite <- Hdp.
  exact (assignWith_keeps fuel IH w p Hw (Hur p Hp)).
Qed.

Lemma assignFuel_keeps (fuel : nat) (v : Values) (sq : Index) :
  keeps sol fuel v -> 0 <= sq < 81 ->
  exists v', assignFuel New fuel v sq (digitOf sol sq) = Done true v' /\
             narrows v' sol.
Proof.
  intros Hv Hsq.
  destruct (assignWith_keeps fuel (eliminateFuel_keeps fuel) v sq Hv Hsq)
    as [v' [E [_ [Hin _]]]].
  eauto.
Qed.

End KeepsSolution.

(** X11. The propagation loses no solution.  If a solution (a board
    that [isSolved] accepts) lies within a board of digits 1-9, then
    [eliminate] of a digit that is not the solution's digit for the
    square, and [assign] of the solution's digit to a square, return
    true and leave a board within which the solution still lies. *)
Theorem propagation_keeps_solutions (sol values : Values) (sq : Index)
    (d : N) :
  solution New sol -> wfBoard values -> narrows values sol ->
  0 <= sq < 81 ->
  (digitOf sol sq <> d ->
   exists values', eliminate New values sq d = Done true values' /\
                   narrows values' sol) /\
  (digitOf sol sq = d ->
   exists values', assign New values sq d = Done true values' /\
                   narrows values' sol).
Proof.
  intros Hsol Hwf Hin Hsq.
  assert (Hk : keeps sol (S (candidates values)) values)
    by (split; [assumption|split; [assumption|lia]]).
  split.
  - intros Hd. now apply (eliminateFuel_keeps sol Hsol).
  - intros <-. now apply (assignFuel_keeps sol Hsol).
Qed.

Lemma narrows_from_emptyBoard (v : Values) :
  wfBoard v -> length v = 81%nat -> narrows emptyBoard v.
Proof.
  unfold narrows, emptyBoard, wfBoard. intros Hwf <-.
  induction Hwf as [|d l Hd _ IH]; simpl; constructor; auto.
Qed.

Lemma solution_easySolution : solution New easySolution.
Proof. split; vm_compute; reflexivity. Qed.

Lemma propagation_keeps_solutions_witness :
  (exists values', eliminate New emptyBoard 0 7 = Done true values' /\
                   narrows values' easySolution) /\
  (exists values', assign New emptyBoard 0 4 = Done true values' /\
                   narrows values' easySolution).
Proof.
  assert (Hsol : solution New easySolution)
    by (split; vm_compute; reflexivity).
  assert (Hin : narrows emptyBoard easySolution).
  { apply narrows_from_emptyBoard; [|reflexivity].
    apply wfBoardb_wfBoard. vm_compute. reflexivity. }
  split.
  - apply (proj1 (propagation_keeps_solutions easySolution emptyBoard 0 7%N
                    Hsol (wfBoardb_wfBoard emptyBoard eq_refl) Hin
                    ltac:(lia))).
    vm_compute. discriminate.
  - apply (proj2 (propagation_keeps_solutions easySolution emptyBoard 0 4%N
                    Hsol (wfBoardb_wfBoard emptyBoard eq_refl) Hin
                    ltac:(lia))).
    vm_compute. reflexivity.
Defined.

(* ================================================================== *)
(** * Further properties: the search finds a solution when there is one *)
(* ================================================================== *)

Lemma tryDigits_finds (recur : Values -> outcome bool) (values : Values)
    (sq : Index) (cand : Digits) (k : N) (vk vres : Values) (ds : list N) :
  length values = 81%nat -> get values sq = Some cand ->
  (forall d vc, assign New values sq d = Done true vc ->
     exists b v', recur vc = Done b v') ->
  isMember cand k = true ->
  assign New values sq k = Done true vk -> recur vk = Done true vres ->
  In k ds ->
  exists v', tryDigits New recur values sq ds = Done true v'.
Proof.
  intros Hlen Hget Hrec Hmem Hak Hrk.
  induction ds as [|d rest IH]; intros Hin; [contradiction|].
  simpl. rewrite Hget.
  assert (Hrest : d <> k -> exists v',
            tryDigits New recur values sq rest = Done true v').
  { intros Hne. apply IH. destruct Hin; [contradiction|assumption]. }
  destruct (isMember cand d) eqn:Hd.
  2:{ apply Hrest. intros ->. congruence. }
  destruct (assign_total New New_topologyInRange values sq d Hlen)
    as [b [vc [E _]]].
  { apply get_Some_range in Hget. lia. }
  rewrite E. destruct b.
  - destruct (Hrec d vc E) as [b' [v' E']]. rewrite E'.
    destruct b'; [eauto|].
    apply Hrest. intros ->. congruence.
  - apply Hrest. intros ->. congruence.
Qed.

Lemma searchFuel_complete (sol : Values) (fuel : nat) :
  solution New sol ->
  forall v, wfBoard v -> narrows v sol -> (candidates v < fuel)%nat ->
  exists v', searchFuel New fuel v = Done true v'.
Proof.
  intros Hsol. induction fuel as [|fuel IH]; intros v Hwf Hin Hc; [lia|].
  rewrite searchFuel_S.
  destruct (Z.eqb_spec (selectSquare v) (-1)) as [E|Hne]; [eauto|].
  destruct (selectSquare_spec v) as [[E _]|[ds [Hg [Hsz _]]]];
    [contradiction|].
  assert (Hlen : length v = 81%nat).
  { rewrite <- (narrows_length _ _ Hin). now destruct Hsol. }
  assert (Hsq : 0 <= selectSquare v < 81)
    by (apply get_Some_range in Hg; lia).
  set (sq := selectSquare v) in *. set (k := digitOf sol sq).
  destruct (within_member sol Hsol v sq Hin Hsq) as [ds0 [Hg0 Hmem]].
  assert (ds0 = ds) by congruence. subst ds0.
  assert (Hdec : forall d vc, assign New v sq d = Done true vc ->
            wfBoard vc /\ length vc = 81%nat /\
            (candidates vc < fuel)%nat).
  { intros d vc Ha.
    pose proof (assignFuel_narrows New _ _ _ _ _ _ Ha) as Hn.
    destruct (assignFuel_forces New _ _ _ _ _ ds Hwf Hg ltac:(lia) Ha)
      as [ds' [Hg' [Hs' _]]].
    split; [now apply (narrows_wfBoard v)|].
    split; [now rewrite (narrows_length _ _ Hn)|].
    pose proof (candidates_lt v vc _ ds ds' Hn Hg Hg' ltac:(lia)). lia. }
  destruct (assignFuel_keeps sol Hsol (S (candidates v)) v sq)
    as [vk [Hak Hink]]; [split; [assumption|split; [assumption|lia]]
                        |assumption|].
  fold k in Hak. change (assign New v sq k = Done true vk) in Hak.
  destruct (Hdec k vk Hak) as [Hwfk [_ Hck]].
  destruct (IH vk Hwfk Hink Hck) as [vres Hres].
  apply (tryDigits_finds _ v sq ds k vk vres); auto.
  - intros d vc Ha. destruct (Hdec d vc Ha) as [H1 [H2 H3]].
    now apply (searchFuel_total New New_topologyInRange).
  - apply In_digits19.
    now destruct (solution_square sol Hsol sq Hsq) as [_ [_ [_ Hr]]].
Qed.

(** X12. Completeness of the search.  If some solution (a board that
    [isSolved] accepts) lies within a board of digits 1-9, [search]
    returns success on that board; so when [search] reports failure no
    solution lies within the board. *)
Theorem search_complete (values : Values) :
  wfBoard values ->
  (forall sol, solution New sol -> narrows values sol ->
     exists vresult, search New values = Done true vresult) /\
  (forall values', search New values = Done false values' ->
     forall sol, solution New sol -> ~ narrows values sol).
Proof.
  intros Hwf.
  assert (Hfound : forall sol, solution New sol -> narrows values sol ->
            exists vresult, search New values = Done true vresult).
  { intros sol Hsol Hin. apply (searchFuel_complete sol); auto. }
  split; [exact Hfound|].
  intros values' Hfail sol Hsol Hin.
  destruct (Hfound sol Hsol Hin) as [vresult E]. congruence.
Qed.

Lemma search_complete_witness :
  (exists vresult, search New emptyBoard = Done true vresult) /\
  forall sol, solution New sol -> ~ narrows stuckBoard sol.
Proof.
  split.
  - apply (proj1 (search_complete emptyBoard
                    (wfBoardb_wfBoard emptyBoard eq_refl)) easySolution).
    + split; vm_compute; reflexivity.
    + apply narrows_from_emptyBoard; [|reflexivity].
      apply wfBoardb_wfBoard. vm_compute. reflexivity.
  - eapply (proj2 (search_complete stuckBoard
                     (wfBoardb_wfBoard stuckBoard eq_refl))).
    vm_compute. reflexivity.
Defined.

(* ================================================================== *)
(** * Further properties: [solveBoard] *)
(* ================================================================== *)

Lemma assignAll_keeps (sol : Values) :
  solution New sol ->
  forall dgs sq v, wfBoard v -> narrows v sol ->
  0 <= sq -> sq + Z.of_nat (length dgs) <= 81 ->
  (forall i d, nth_error dgs i = Some d -> d <> 0%N ->
     digitOf sol (sq + Z.of_nat i) = d) ->
  exists v', assignAll New dgs sq v = Done None v' /\ narrows v' sol.
Proof.
  intros Hsol. induction dgs as [|d rest IH]; intros sq v Hwf Hin H0 H81 Hh;
    simpl; [eauto|].
  simpl length in H81.
  assert (Hrest : forall i e, nth_error rest i = Some e -> e <> 0%N ->
            digitOf sol (sq + 1 + Z.of_nat i) = e).
  { intros i e Hi He.
    replace (sq + 1 + Z.of_nat i) with (sq + Z.of_nat (S i)) by lia.
    now apply Hh. }
  destruct (N.eqb_spec d 0) as [->|Hd]; simpl.
  - apply IH; auto; lia.
  - pose proof (Hh O d eq_refl Hd) as Hdig. rewrite Z.add_0_r in Hdig.
    destruct (assignFuel_keeps sol Hsol (S (candidates v)) v sq)
      as [v1 [Ha Hin1]]; [split; [assumption|split; [assumption|lia]]
                         |lia|].
    rewrite Hdig in Ha. change (assign New v sq d = Done true v1) in Ha.
    rewrite Ha. apply IH; auto; try lia.
    apply (narrows_wfBoard v); [|assumption].
    eapply assignFuel_narrows; exact Ha.
Qed.

Lemma honoursHints_digitOf (dgs : list N) (sol : Values) :
  honoursHints dgs sol ->
  forall i d, nth_error dgs i = Some d -> d <> 0%N ->
  digitOf sol (0 + Z.of_nat i) = d.
Proof.
  intros H i d Hi Hd. destruct (H i d Hi Hd) as [ds [Hg Hk]].
  now apply (digitOf_single sol _ ds d).
Qed.

(** X13. Soundness of [solveBoard].  A board it returns without error
    is consistent, has every non-zero token of the text settled at its
    square, and is accepted by [isSolved], unless the text has 81 zero
    tokens, for which the empty board is returned. *)
Theorem solveBoard_sound (runes : list Z) (vresult : Values) :
  solveBoard New runes = Done None vresult ->
  consistent New vresult /\
  honoursHints (map tokenOf (filter keptRune runes)) vresult /\
  (isSolved New vresult = Done true vresult \/
   (vresult = emptyBoard /\
    forall d, In d (map tokenOf (filter keptRune runes)) -> d = 0%N)).
Proof.
  unfold solveBoard.
  destruct (parseBoard New runes) as [[e|] values| |] eqn:Hparse;
    try discriminate.
  destruct (search New values) as [[|] v'| |] eqn:Hsearch; try discriminate.
  intros H. inversion H; subst v'. clear H.
  destruct (parseBoard_facts runes values Hparse) as [Hc Hhints].
  destruct (search_sound_consistent values vresult Hc Hsearch)
    as [Hc' Hfinal].
  pose proof (searchFuel_narrows New _ _ _ Hsearch) as Hn.
  assert (Hhints' : honoursHints (map tokenOf (filter keptRune runes))
                      vresult).
  { intros i d Hi Hd. destruct (Hhints i d Hi Hd) as [ds [Hg Hk]].
    destruct (narrows_get_before _ _ _ _ Hn Hg) as [ds' [Hg' Hsub]].
    exists ds'. split; [assumption|].
    apply (single_sub_nonempty ds' ds d Hsub Hk).
    destruct Hc' as [_ [[_ [Hsz _]] _]]. now apply (Hsz _ _ Hg'). }
  split; [assumption|]. split; [assumption|].
  destruct Hfinal as [[_ ->]|Hsolved]; [right|now left].
  split; [reflexivity|]. intros d Hd.
  destruct (N.eq_dec d 0) as [|Hne]; [assumption|exfalso].
  apply In_nth_error in Hd as [i Hi].
  destruct (Hhints' i d Hi Hne) as [ds [Hg Hk]].
  assert (Hr : 0 <= Z.of_nat i < 81)
    by (apply get_Some_range in Hg; simpl in Hg; lia).
  unfold emptyBoard in Hg. rewrite (get_repeat fullDigitsSet 81 _ Hr) in Hg.
  inversion Hg; subst ds. discriminate.
Qed.

Lemma solveBoard_sound_witness :
  exists vresult,
    solveBoard New (runesOf hardboard1) = Done None vresult /\
    consistent New vresult /\
    honoursHints (map tokenOf (filter keptRune (runesOf hardboard1)))
      vresult /\
    (isSolved New vresult = Done true vresult \/
     (vresult = emptyBoard /\
      forall d, In d (map tokenOf (filter keptRune (runesOf hardboard1))) ->
        d = 0%N)).
Proof.
  eexists. split; [vm_compute; reflexivity|].
  apply (solveBoard_sound (runesOf hardboard1)). vm_compute. reflexivity.
Defined.

Lemma parseBoard_returns (runes : list Z) :
  exists r vals, parseBoard New runes = Done r vals /\
    (forall e, r = Some e -> vals = []).
Proof.
  unfold parseBoard.
  destruct (negb (Z.of_nat (length (scanRunes runes [])) =? 81)) eqn:Hcount.
  - eexists _, _. split; [reflexivity|]. reflexivity.
  - apply negb_false_iff, Z.eqb_eq in Hcount.
    destruct (assignAll_total New New_topologyInRange
                (scanRunes runes []) 0 emptyBoard eq_refl)
      as [r [vals E]]; [lia|lia|].
    exists r, vals. split; [assumption|]. intros e ->.
    exact (proj1 (assignAll_failing New _ _ _ _ _ E)).
Qed.

(** X14. The outcomes of [solveBoard].  On every text it returns: a
    parse error is passed on with no board; "not solvable" comes with
    the board as parsed, unchanged; and a board returned without error
    narrows the parsed board. *)
Theorem solveBoard_outcomes (runes : list Z) :
  exists r vals, solveBoard New runes = Done r vals /\
    match r with
    | Some (ParseFailed e) =>
        parseBoard New runes = Done (Some e) vals /\ vals = []
    | Some NotSolvable => parseBoard New runes = Done None vals
    | None =>
        exists values, parseBoard New runes = Done None values /\
                       narrows values vals
    end.
Proof.
  unfold solveBoard.
  destruct (parseBoard_returns runes) as [r [values [Hparse Hnil]]].
  rewrite Hparse. destruct r as [e|].
  - exists (Some (ParseFailed e)), values. rewrite (Hnil e eq_refl) in *.
    repeat split.
  - destruct (parseBoard_facts runes values Hparse)
      as [[Hlen [[Hwf _] _]] _].
    destruct (search_total New New_topologyInRange values Hwf Hlen)
      as [b [v' E]].
    rewrite E. destruct (search_facts _ _ _ E) as [Hn Hsame].
    destruct b.
    + exists None, v'. split; [reflexivity|]. exists values. auto.
    + exists (Some NotSolvable), v'. split; [reflexivity|].
      now rewrite (Hsame eq_refl).
Qed.

(** X15. Completeness of [solveBoard].  On a text of 81 tokens whose
    non-zero tokens are the digits of some solution (a board of digits
    1-9 that [isSolved] accepts) at their squares, it returns a board
    without error; so when it returns an error on a text of 81 tokens,
    no solution has the tokens of the text. *)
Theorem solveBoard_complete (runes : list Z) :
  length (filter keptRune runes) = 81%nat ->
  (forall sol, solution New sol -> wfBoard sol ->
     honoursHints (map tokenOf (filter keptRune runes)) sol ->
     exists vresult, solveBoard New runes = Done None vresult) /\
  (forall e vals, solveBoard New runes = Done (Some e) vals ->
     forall sol, solution New sol -> wfBoard sol ->
     ~ honoursHints (map tokenOf (filter keptRune runes)) sol).
Proof.
  intros Hcount.
  assert (Hfound : forall sol, solution New sol -> wfBoard sol ->
     honoursHints (map tokenOf (filter keptRune runes)) sol ->
     exists vresult, solveBoard New runes = Done None vresult).
  { intros sol Hsol Hwf Hh. unfold solveBoard, parseBoard.
    pose proof (scanRunes_filter runes []) as Hscan. simpl in Hscan.
    rewrite Hscan, length_map, Hcount. simpl negb. cbv iota.
    destruct (assignAll_keeps sol Hsol
                (map tokenOf (filter keptRune runes)) 0 emptyBoard
                wfBoard_emptyBoard)
      as [v' [E Hin]].
    - apply narrows_from_emptyBoard; [assumption|now destruct Hsol].
    - lia.
    - rewrite length_map, Hcount. simpl. lia.
    - apply honoursHints_digitOf. exact Hh.
    - rewrite E.
      assert (Hwf' : wfBoard v').
      { apply (narrows_wfBoard emptyBoard); [|apply wfBoard_emptyBoard].
        apply assignAll_Assigned in E.
        exact (proj1 (Assigned_narrows _ _ _ _ _ E)). }
      destruct (searchFuel_complete sol (S (candidates v')) Hsol v' Hwf' Hin)
        as [vresult Es]; [lia|].
      change (search New v' = Done true vresult) in Es. rewrite Es. eauto. }
  split; [exact Hfound|].
  intros e vals Hrun sol Hsol Hwf Hh.
  destruct (Hfound sol Hsol Hwf Hh) as [vresult E]. congruence.
Qed.

Lemma solveBoard_complete_witness :
  (exists vresult, solveBoard New (runesOf easyboard1) = Done None vresult) /\
  (forall sol, solution New sol -> wfBoard sol ->
     ~ honoursHints
         (map tokenOf (filter keptRune (runesOf contradictoryBoard))) sol).
Proof.
  split.
  - apply (proj1 (solveBoard_complete (runesOf easyboard1) eq_refl)
             easySolution).
    + split; vm_compute; reflexivity.
    + apply wfBoardb_wfBoard. vm_compute. reflexivity.
    + apply (parseBoard_facts (runesOf easyboard1)). vm_compute. reflexivity.
  - eapply (proj2 (solveBoard_complete (runesOf contradictoryBoard) eq_refl)).
    vm_compute. reflexivity.
Defined.
